(** * ThreadMap: hybrid operation chains

    A shallow embedding of [threadmap/models.py], [threadmap/chain.py],
    [threadmap/analysis.py] and the JSON part of [threadmap/io.py], together
    with the [networkx] operations these modules call.

    Conventions.
    - Python [str] is [string]; Python dictionaries keep insertion order, so
      they are association lists whose keys are kept duplicate free.
    - A Python [float] is modelled by the rational number it denotes, in
      [Q]; NaN and the infinities (hence overflow) are outside the model.
      Where the program computes in floats the binary64 rounding of each
      operation is written out with [fl].
    - A method that raises is a function into [result]; a method that
      mutates [self] returns the new chain next to its outcome. *)

From Stdlib Require Import String List Bool Arith ZArith QArith Qround Qabs Qpower Lia Lqa.
From Stdlib Require Import Permutation Relations Sorted.
Import ListNotations.

Local Open Scope string_scope.
Local Open Scope nat_scope.
Local Open Scope list_scope.

(** ** Exceptions and results *)

Inductive exn : Type :=
| ValueError (msg : string)
| KeyError (key : string)
| ValidationError
| RuntimeError
| NodeNotFound
| NetworkXError
| NetworkXUnfeasible
| NetworkXUnbounded
| NetworkXNoPath.

Inductive result (A : Type) : Type :=
| Ok (a : A)
| Raise (e : exn).
Arguments Ok {A} a.
Arguments Raise {A} e.

Definition bind {A B : Type} (r : result A) (k : A -> result B) : result B :=
  match r with
  | Ok a => k a
  | Raise e => Raise e
  end.

Notation "x <- r ;; k" := (bind r (fun x => k))
  (at level 61, r at next level, right associativity).

(** ** models.py *)

Inductive ActorType := STATE | PROXY | HACKTIVIST | CRIMINAL | AUTOMATED | INSIDER.
Inductive ActionDomain := CYBER | COGNITIVE | PHYSICAL | HYBRID.
Inductive CapabilityType := EXPLOIT | TOOLING | TRADECRAFT | ACCESS | DATA.
Inductive InfrastructureType :=
| SOCIAL_MEDIA | EMAIL | MESSAGING | SERVER | DOMAIN | INFRA_PHYSICAL | MEDIA | GOVERNMENT.
Inductive NarrativeType := DISINFORMATION | PROPAGANDA | LEAK | AMPLIFICATION | FRAMING.
Inductive EffectType :=
| BEHAVIORAL_CHANGE | DATA_LOSS | ACCESS_GAINED | REPUTATION_DAMAGE
| OPERATIONAL_DISRUPTION | NARRATIVE_ADOPTION.
Inductive EdgeType := DEPENDENCY | ENABLES | AMPLIFIES | TRIGGERS.

Record Actor := {
  actor_id_ : string;
  actor_name : string;
  actor_type : ActorType;
  capabilities : list string;
  known_aliases : list string;
  attribution_confidence : Q }.

Record Action := {
  action_id : string;
  action_name : string;
  action_description : string;
  domain : ActionDomain;
  attack_ids : list string;
  disarm_ids : list string;
  action_sct_codes : list string;
  actor_id : option string;
  platform_id : option string;
  tools : list string;
  duration_hours : option Q;
  success_probability : Q;
  detection_surface : list string }.

Record Capability := {
  capability_id : string;
  capability_name : string;
  capability_type : CapabilityType;
  capability_description : string;
  perishable : bool;
  ttl_hours : option Q }.

Record Infrastructure := {
  infra_id : string;
  infra_name : string;
  infra_type : InfrastructureType;
  reach_estimate : option string;
  detection_difficulty : Q }.

Record Narrative := {
  narrative_id : string;
  narrative_name : string;
  narrative_type : NarrativeType;
  narrative_description : string;
  target_audience : option string;
  narrative_sct_codes : list string;
  platforms : list string }.

Record Target := {
  target_id_ : string;
  target_name : string;
  target_type : string;
  target_description : string;
  vulnerabilities : list string }.

Record Effect := {
  effect_id : string;
  effect_name : string;
  effect_type : EffectType;
  effect_description : string;
  severity : Q;
  reversibility : Q }.

Record Relationship := {
  source_id : string;
  target_id : string;
  edge_type : EdgeType;
  resource_id : option string;
  description : string }.

(** [Entity = Actor | Action | Capability | Infrastructure | Narrative |
    Target | Effect]. *)
Inductive Entity : Type :=
| EActor (a : Actor)
| EAction (a : Action)
| ECapability (c : Capability)
| EInfrastructure (i : Infrastructure)
| ENarrative (n : Narrative)
| ETarget (t : Target)
| EEffect (e : Effect).

(** [entity.id] *)
Definition entity_id (e : Entity) : string :=
  match e with
  | EActor a => actor_id_ a
  | EAction a => action_id a
  | ECapability c => capability_id c
  | EInfrastructure i => infra_id i
  | ENarrative n => narrative_id n
  | ETarget t => target_id_ t
  | EEffect e => effect_id e
  end.

(** [entity.name] *)
Definition entity_name (e : Entity) : string :=
  match e with
  | EActor a => actor_name a
  | EAction a => action_name a
  | ECapability c => capability_name c
  | EInfrastructure i => infra_name i
  | ENarrative n => narrative_name n
  | ETarget t => target_name t
  | EEffect e => effect_name e
  end.

(** [type(entity).__name__] *)
Definition type_name (e : Entity) : string :=
  match e with
  | EActor _ => "Actor"
  | EAction _ => "Action"
  | ECapability _ => "Capability"
  | EInfrastructure _ => "Infrastructure"
  | ENarrative _ => "Narrative"
  | ETarget _ => "Target"
  | EEffect _ => "Effect"
  end.

(** ** Insertion-ordered dictionaries with string keys *)

Section Dict.
Context {V : Type}.

Fixpoint dict_get (k : string) (d : list (string * V)) : option V :=
  match d with
  | [] => None
  | (k', v) :: r => if String.eqb k' k then Some v else dict_get k r
  end.

(** [d[k] = v]: an existing key keeps its position. *)
Fixpoint dict_set (k : string) (v : V) (d : list (string * V)) : list (string * V) :=
  match d with
  | [] => [(k, v)]
  | (k', v') :: r =>
      if String.eqb k' k then (k, v) :: r else (k', v') :: dict_set k v r
  end.

Definition dict_keys (d : list (string * V)) : list string := map fst d.
End Dict.

(** [k in xs] on a list of strings. *)
Definition mem (k : string) (xs : list string) : bool := existsb (String.eqb k) xs.

(** ** networkx.DiGraph

    [_node] is the list of nodes with their attribute dictionaries, in
    insertion order. The adjacency dictionaries [_succ] and [_pred] are kept
    as one list of edges in insertion order: [_succ[u]] is the sub-list of
    the edges leaving [u] and [_pred[v]] the sub-list of the edges entering
    [v]. An attribute dictionary is either empty ([None]) or holds the fixed
    set of keys the chain writes. *)

Record EdgeData := {
  ed_edge_type : EdgeType;
  ed_resource_id : option string;
  ed_description : string }.

Record NodeData := {
  nd_entity_type : string;
  nd_data : Entity }.

Record DiGraph := {
  g_node : list (string * option NodeData);
  g_edges : list (string * string * option EdgeData) }.

Definition nx_DiGraph : DiGraph := {| g_node := []; g_edges := [] |}.

(** [G.nodes] *)
Definition nodes (g : DiGraph) : list string := dict_keys (g_node g).

(** [n in G] *)
Definition has_node (g : DiGraph) (n : string) : bool := mem n (nodes g).

(** [len(G)] *)
Definition order (g : DiGraph) : nat := length (g_node g).

Definition edge_is (u v : string) (e : string * string * option EdgeData) : bool :=
  String.eqb (fst (fst e)) u && String.eqb (snd (fst e)) v.

(** [G.has_edge(u, v)] *)
Definition has_edge (g : DiGraph) (u v : string) : bool :=
  existsb (edge_is u v) (g_edges g).

(** [G.add_node(n, **attr)]: a new node is appended; on an existing node the
    given attributes replace the stored ones. *)
Definition add_node (n : string) (attr : option NodeData) (g : DiGraph) : DiGraph :=
  match dict_get n (g_node g), attr with
  | Some _, None => g
  | _, _ => {| g_node := dict_set n attr (g_node g); g_edges := g_edges g |}
  end.

Fixpoint edge_set (u v : string) (attr : option EdgeData)
    (es : list (string * string * option EdgeData))
    : list (string * string * option EdgeData) :=
  match es with
  | [] => [(u, v, attr)]
  | e :: r =>
      if edge_is u v e
      then (u, v, match attr with Some _ => attr | None => snd e end) :: r
      else e :: edge_set u v attr r
  end.

(** [G.add_edge(u, v, **attr)]: missing end points are added as nodes; an
    existing edge keeps its place and has its attributes updated. *)
Definition add_edge (u v : string) (attr : option EdgeData) (g : DiGraph) : DiGraph :=
  let g1 := add_node u None g in
  let g2 := add_node v None g1 in
  {| g_node := g_node g2; g_edges := edge_set u v attr (g_edges g2) |}.

(** [G._succ[u]] as (neighbour, data) pairs. *)
Definition succ_items (g : DiGraph) (u : string) : list (string * option EdgeData) :=
  map (fun e => (snd (fst e), snd e))
      (filter (fun e => String.eqb (fst (fst e)) u) (g_edges g)).

(** [G.neighbors(u)] / [G.successors(u)] *)
Definition successors (g : DiGraph) (u : string) : list string :=
  map fst (succ_items g u).

(** [G._pred[v]] keys *)
Definition predecessors (g : DiGraph) (v : string) : list string :=
  map (fun e => fst (fst e))
      (filter (fun e => String.eqb (snd (fst e)) v) (g_edges g)).

Definition in_degree (g : DiGraph) (n : string) : nat := length (predecessors g n).
Definition out_degree (g : DiGraph) (n : string) : nat := length (successors g n).

(** [G.edges(data=True)]: for each node in order, its outgoing edges. *)
Definition edges_data (g : DiGraph) : list (string * string * option EdgeData) :=
  flat_map (fun u => map (fun p => (u, fst p, snd p)) (succ_items g u)) (nodes g).

(** [G.copy()]: nodes are re-inserted in order, then the edges in the order
    of [G.edges(data=True)]. *)
Definition copy (g : DiGraph) : DiGraph :=
  fold_left (fun acc e => add_edge (fst (fst e)) (snd (fst e)) (snd e) acc)
            (edges_data g)
            (fold_left (fun acc n => add_node (fst n) (snd n) acc) (g_node g) nx_DiGraph).

(** ** chain.py: HybridChain *)

Record HybridChain := {
  chain_id : string;
  name : string;
  chain_description : string;
  graph : DiGraph;
  _entities : list (string * Entity) }.

(** [HybridChain(chain_id, name, description)] *)
Definition new_chain (cid nm descr : string) : HybridChain :=
  {| chain_id := cid; name := nm; chain_description := descr;
     graph := nx_DiGraph; _entities := [] |}.

(** [add_entity] never raises. *)
Definition add_entity (entity : Entity) (self : HybridChain) : result unit * HybridChain :=
  (Ok tt,
   {| chain_id := chain_id self; name := name self;
      chain_description := chain_description self;
      graph := add_node (entity_id entity)
                 (Some {| nd_entity_type := type_name entity; nd_data := entity |})
                 (graph self);
      _entities := dict_set (entity_id entity) entity (_entities self) |}).

Definition get_entity (self : HybridChain) (entity_id : string) : option Entity :=
  dict_get entity_id (_entities self).

Definition add_relationship (rel : Relationship) (self : HybridChain)
    : result unit * HybridChain :=
  if negb (mem (source_id rel) (dict_keys (_entities self))) then
    (Raise (ValueError ("Source entity '" ++ source_id rel ++ "' not in chain")), self)
  else if negb (mem (target_id rel) (dict_keys (_entities self))) then
    (Raise (ValueError ("Target entity '" ++ target_id rel ++ "' not in chain")), self)
  else
    (Ok tt,
     {| chain_id := chain_id self; name := name self;
        chain_description := chain_description self;
        graph := add_edge (source_id rel) (target_id rel)
                   (Some {| ed_edge_type := edge_type rel;
                            ed_resource_id := resource_id rel;
                            ed_description := description rel |})
                   (graph self);
        _entities := _entities self |}).

(** The [entities] property: a copy of the dictionary. *)
Definition entities (self : HybridChain) : list (string * Entity) := _entities self.

(** The [relationships] property: [{"source": u, "target": v, **data}] for
    every edge of [graph.edges(data=True)]. *)
Definition relationships (self : HybridChain) : list (string * string * option EdgeData) :=
  edges_data (graph self).

(** ** Python floats

    A [float] is the rational number it denotes. Where the program computes
    in floats, the result of an operation is the exact result rounded to the
    nearest binary64 number, ties to even ([fl]); an [int] that meets a
    [float] in an operation is first converted in the same way. NaN and the
    infinities, hence overflow, are outside the model. *)

(** The integer nearest to [x], ties to the even one. *)
Definition round_half_even (x : Q) : Z :=
  let f := Qfloor x in
  let r := (x - inject_Z f)%Q in
  match (r ?= 1 # 2)%Q with
  | Lt => f
  | Gt => (f + 1)%Z
  | Eq => if Z.even f then f else (f + 1)%Z
  end.

(** For [a > 0], the exponent [k] with [2^k <= a < 2^(k+1)]. *)
Definition ilog2 (a : Q) : Z :=
  let l := (Z.log2 (Qnum a) - Z.log2 (Zpos (Qden a)))%Z in
  if Qle_bool (Qpower 2 l) a then l else (l - 1)%Z.

(** The binary64 number nearest to [x], ties to even: 53 significant bits
    above the exponent [-1074] of the subnormal numbers. *)
Definition fl (x : Q) : Q :=
  if Qeq_bool x 0 then 0%Q
  else
    let a := Qabs x in
    let e := Z.max (ilog2 a - 52) (-1074) in
    let m := round_half_even (a / Qpower 2 e) in
    let y := (inject_Z m * Qpower 2 e)%Q in
    if (Qnum x <? 0)%Z then (- y)%Q else y.

(** [x - y] and [x * y] on floats. *)
Definition float_sub (x y : Q) : Q := fl (x - y).
Definition float_mul (x y : Q) : Q := fl (x * y).

(** ** networkx algorithms *)

Fixpoint dict_del {V : Type} (k : string) (d : list (string * V)) : list (string * V) :=
  match d with
  | [] => []
  | (k', v) :: r => if String.eqb k' k then r else (k', v) :: dict_del k r
  end.

(** *** [topological_generations] (Kahn's algorithm by generations)

    The loop state is [indegree_map] and the list [zero_indegree] being
    built. An entry of [indegree_map] is created only for a positive degree
    and deleted when it reaches 0, so the counters stay in [nat]. *)

Definition topo_state : Type := list (string * nat) * list string.

(** Body of [for child in G.neighbors(node)]. *)
Definition topo_child (st : result topo_state) (child : string) : result topo_state :=
  st' <- st ;;
  match dict_get child (fst st') with
  | None => Raise RuntimeError
  | Some d =>
      if (d - 1) =? 0
      then Ok (dict_del child (fst st'), snd st' ++ [child])
      else Ok (dict_set child (d - 1) (fst st'), snd st')
  end.

(** Body of [for node in this_generation]. *)
Definition topo_node (g : DiGraph) (st : result topo_state) (node : string)
    : result topo_state :=
  st' <- st ;;
  if negb (has_node g node) then Raise RuntimeError
  else fold_left topo_child (successors g node) (Ok st').

(** [while zero_indegree: ...]; [fuel] bounds the number of generations. *)
Fixpoint topo_loop (fuel : nat) (g : DiGraph) (indegree_map : list (string * nat))
    (zero_indegree : list string) (yielded : list (list string))
    : option (result (list (list string))) :=
  match zero_indegree with
  | [] =>
      match indegree_map with
      | [] => Some (Ok yielded)
      | _ :: _ => Some (Raise NetworkXUnfeasible)
      end
  | _ :: _ =>
      match fuel with
      | 0 => None
      | S fuel' =>
          match fold_left (topo_node g) zero_indegree (Ok (indegree_map, [])) with
          | Raise e => Some (Raise e)
          | Ok st => topo_loop fuel' g (fst st) (snd st) (yielded ++ [zero_indegree])
          end
      end
  end.

Definition indegree_map0 (g : DiGraph) : list (string * nat) :=
  filter (fun p => 0 <? snd p) (map (fun v => (v, in_degree g v)) (nodes g)).

Definition zero_indegree0 (g : DiGraph) : list string :=
  filter (fun v => in_degree g v =? 0) (nodes g).

(** The generator run to completion; [None] only if the generation bound
    [S (order g)] were not enough. *)
Definition topological_generations (g : DiGraph) : option (result (list (list string))) :=
  topo_loop (S (order g)) g (indegree_map0 g) (zero_indegree0 g) [].

(** [list(nx.topological_sort(G))] *)
Definition topological_sort (g : DiGraph) : option (result (list string)) :=
  match topological_generations g with
  | None => None
  | Some r => Some (gens <- r ;; Ok (concat gens))
  end.

(** [nx.is_directed_acyclic_graph(G)]: [G.is_directed() and not has_cycle(G)],
    where [has_cycle] consumes [topological_sort] and catches
    [NetworkXUnfeasible]. *)
Definition is_directed_acyclic_graph (g : DiGraph) : option (result bool) :=
  match topological_sort g with
  | None => None
  | Some (Ok _) => Some (Ok true)
  | Some (Raise NetworkXUnfeasible) => Some (Ok false)
  | Some (Raise e) => Some (Raise e)
  end.

(** *** [generic_bfs_edges], [bfs_edges], [descendants] *)

Record bfs_state := {
  bfs_seen : list string;
  bfs_next : list string;
  bfs_out : list (string * string) }.

(** [for child in children: if child not in seen: ...] *)
Definition bfs_children (parent : string) (children : list string) (st : bfs_state)
    : bfs_state :=
  fold_left
    (fun st child =>
       if mem child (bfs_seen st) then st
       else {| bfs_seen := bfs_seen st ++ [child];
               bfs_next := bfs_next st ++ [child];
               bfs_out := bfs_out st ++ [(parent, child)] |})
    children st.

(** [for parent, children in this_parents_children: ...], with the early
    [return] when [len(seen) == n]; the flag tells whether it was taken. *)
Fixpoint bfs_layer (g : DiGraph) (n : nat) (this : list string) (st : bfs_state)
    : bfs_state * bool :=
  match this with
  | [] => (st, false)
  | parent :: rest =>
      let st' := bfs_children parent (successors g parent) st in
      if length (bfs_seen st') =? n then (st', true)
      else bfs_layer g n rest st'
  end.

(** [while next_parents_children and depth < depth_limit]; [budget] is
    [depth_limit - depth]. *)
Fixpoint bfs_loop (budget : nat) (g : DiGraph) (n : nat) (st : bfs_state)
    : list (string * string) :=
  match budget with
  | 0 => bfs_out st
  | S budget' =>
      match bfs_next st with
      | [] => bfs_out st
      | this =>
          let r := bfs_layer g n this
                     {| bfs_seen := bfs_seen st; bfs_next := []; bfs_out := bfs_out st |} in
          if snd r then bfs_out (fst r) else bfs_loop budget' g n (fst r)
      end
  end.

(** [list(nx.bfs_edges(G, source))] with [depth_limit = len(G)]. *)
Definition bfs_edges (g : DiGraph) (source : string) : list (string * string) :=
  bfs_loop (order g) g (order g)
    {| bfs_seen := [source]; bfs_next := [source]; bfs_out := [] |}.

(** [nx.descendants(G, source)]: the set [{child for parent, child in
    bfs_edges(G, source)}], as a duplicate-free list; [G.neighbors(source)]
    raises [NetworkXError] when the source is not a node. *)
Definition descendants (g : DiGraph) (source : string) : result (list string) :=
  if negb (has_node g source) then Raise NetworkXError
  else Ok (nodup string_dec (map snd (bfs_edges g source))).

(** *** [all_simple_paths]

    The explicit stack of [_all_simple_edge_paths] is unfolded into a
    recursion on the remaining depth [cutoff - (len(current_path) - 1)];
    [path] is the current path, last node first. *)

Fixpoint simple_paths_from (depth : nat) (g : DiGraph) (targets : list string)
    (path : list string) (next_node : string) : list (list string) :=
  (if mem next_node targets then [rev (next_node :: path)] else [])
  ++
  match depth with
  | 0 => []
  | S depth' =>
      if existsb (fun t => negb (mem t path) && negb (String.eqb t next_node)) targets
      then flat_map
             (fun child =>
                if mem child (next_node :: path) then []
                else simple_paths_from depth' g targets (next_node :: path) child)
             (successors g next_node)
      else []
  end.

(** The characters of a string, each as a string ([set(target)] when the
    target is not a node). *)
Fixpoint chars (s : string) : list string :=
  match s with
  | EmptyString => []
  | String c r => String c EmptyString :: chars r
  end.

(** [list(nx.all_simple_paths(G, source, target))] with [cutoff = len(G) - 1];
    nothing is searched when [cutoff < 0] or there is no target. *)
Definition all_simple_paths (g : DiGraph) (source target : string)
    : result (list (list string)) :=
  if negb (has_node g source) then Raise NodeNotFound
  else
    let targets := if has_node g target then [target] else nodup string_dec (chars target) in
    match order g, targets with
    | 0, _ => Ok []
    | _, [] => Ok []
    | S cutoff, _ => Ok (simple_paths_from cutoff g targets [] source)
    end.

(** *** [bellman_ford_path]

    [_inner_bellman_ford] (queue-based relaxation with the negative-cycle
    heuristic), [_bellman_ford] and [_build_paths_from_predecessors]. The
    distance [inf] of a node without entry in [dist] is [None]. *)

Definition Qlt_bool (x y : Q) : bool := negb (Qle_bool y x).

Record bf_state := {
  bf_dist : list (string * Q);
  bf_pred : list (string * list string);
  bf_pred_edge : list (string * option string);
  bf_recent_update : list (string * option (string * string));
  bf_count : list (string * nat);
  bf_q : list string;
  bf_in_q : list string }.

Inductive bf_outcome : Type :=
| Continue (st : bf_state)
| NegativeCycle (v : string)
| Fault (e : exn).

(** [v in recent_update[u]], the stored value being an edge or
    [(None, None)]. *)
Definition in_update (v : string) (ru : option (string * string)) : bool :=
  match ru with
  | None => false
  | Some (a, b) => String.eqb v a || String.eqb v b
  end.

(** Body of [for v, e in G_succ[u].items()]. *)
Definition bf_relax (weight : string -> string -> Q) (n : nat) (u : string) (dist_u : Q)
    (st : bf_state) (v : string) : bf_outcome :=
  let dist_v := fl (dist_u + weight u v) in
  let improves :=
    match dict_get v (bf_dist st) with
    | None => true
    | Some d => Qlt_bool dist_v d
    end in
  if improves then
    match dict_get u (bf_recent_update st) with
    | None => Fault (KeyError u)
    | Some ru =>
        if in_update v ru then
          match dict_get v (bf_pred st) with
          | None => Fault (KeyError v)
          | Some _ => NegativeCycle v
          end
        else
          let recent' :=
            dict_set v
              (match dict_get v (bf_pred_edge st) with
               | Some (Some p) => if String.eqb p u then ru else Some (u, v)
               | _ => Some (u, v)
               end)
              (bf_recent_update st) in
          let update q' in_q' count' :=
            Continue {| bf_dist := dict_set v dist_v (bf_dist st);
                        bf_pred := dict_set v [u] (bf_pred st);
                        bf_pred_edge := dict_set v (Some u) (bf_pred_edge st);
                        bf_recent_update := recent';
                        bf_count := count';
                        bf_q := q';
                        bf_in_q := in_q' |} in
          if mem v (bf_in_q st) then update (bf_q st) (bf_in_q st) (bf_count st)
          else
            let count_v :=
              match dict_get v (bf_count st) with Some c => c | None => 0 end + 1 in
            if count_v =? n then NegativeCycle v
            else update (bf_q st ++ [v]) (bf_in_q st ++ [v])
                        (dict_set v count_v (bf_count st))
    end
  else
    match dict_get v (bf_dist st) with
    | Some d =>
        if Qeq_bool dist_v d then
          match dict_get v (bf_pred st) with
          | None => Fault (KeyError v)
          | Some ps =>
              Continue {| bf_dist := bf_dist st;
                          bf_pred := dict_set v (ps ++ [u]) (bf_pred st);
                          bf_pred_edge := bf_pred_edge st;
                          bf_recent_update := bf_recent_update st;
                          bf_count := bf_count st;
                          bf_q := bf_q st;
                          bf_in_q := bf_in_q st |}
          end
        else Continue st
    | None => Continue st
    end.

Fixpoint bf_relax_all (weight : string -> string -> Q) (n : nat) (u : string) (dist_u : Q)
    (vs : list string) (st : bf_state) : bf_outcome :=
  match vs with
  | [] => Continue st
  | v :: r =>
      match bf_relax weight n u dist_u st v with
      | Continue st' => bf_relax_all weight n u dist_u r st'
      | o => o
      end
  end.

Fixpoint remove_str (k : string) (xs : list string) : list string :=
  match xs with
  | [] => []
  | x :: r => if String.eqb x k then r else x :: remove_str k r
  end.

(** [while q: u = q.popleft(); ...] *)
Fixpoint bf_loop (fuel : nat) (g : DiGraph) (weight : string -> string -> Q) (n : nat)
    (st : bf_state) : option bf_outcome :=
  match bf_q st with
  | [] => Some (Continue st)
  | u :: q' =>
      match fuel with
      | 0 => None
      | S fuel' =>
          let in_q' := remove_str u (bf_in_q st) in
          let st1 := {| bf_dist := bf_dist st; bf_pred := bf_pred st;
                        bf_pred_edge := bf_pred_edge st;
                        bf_recent_update := bf_recent_update st;
                        bf_count := bf_count st; bf_q := q'; bf_in_q := in_q' |} in
          match dict_get u (bf_pred st) with
          | None => Some (Fault (KeyError u))
          | Some pred_u =>
              if forallb (fun p => negb (mem p in_q')) pred_u then
                match dict_get u (bf_dist st) with
                | None => Some (Fault (KeyError u))
                | Some dist_u =>
                    match bf_relax_all weight n u dist_u (successors g u) st1 with
                    | Continue st2 => bf_loop fuel' g weight n st2
                    | o => Some o
                    end
                end
              else bf_loop fuel' g weight n st1
          end
      end
  end.

(** First path produced by [_build_paths_from_predecessors]: a depth-first
    walk over the predecessor lists from the target, [seen] being the nodes
    on the stack; [Ok None] when the walk below [node] yields nothing. *)
Fixpoint build_path (fuel : nat) (sources : list string)
    (pred : list (string * list string)) (seen : list string) (node : string)
    : option (result (option (list string))) :=
  match fuel with
  | 0 => None
  | S fuel' =>
      if mem node sources then Some (Ok (Some [node]))
      else
        match dict_get node pred with
        | None => Some (Raise (KeyError node))
        | Some ps =>
            (fix try (ps : list string) : option (result (option (list string))) :=
               match ps with
               | [] => Some (Ok None)
               | p :: r =>
                   if mem p seen then try r
                   else
                     match build_path fuel' sources pred (p :: seen) p with
                     | None => None
                     | Some (Raise e) => Some (Raise e)
                     | Some (Ok (Some path)) => Some (Ok (Some (path ++ [node])))
                     | Some (Ok None) => try r
                     end
               end) ps
        end
  end.

(** [nx.bellman_ford_path(G, source, target, weight)] for a callable
    weight. *)
Definition bellman_ford_path (g : DiGraph) (source target : string)
    (weight : string -> string -> Q) : option (result (list string)) :=
  if String.eqb source target then
    Some (if has_node g source then Ok [source] else Raise NodeNotFound)
  else if negb (has_node g source) then Some (Raise NodeNotFound)
  else
    let n := order g in
    match bf_loop (S (n * n)) g weight n
            {| bf_dist := [(source, 0%Q)]; bf_pred := [(source, [])];
               bf_pred_edge := [(source, None)];
               bf_recent_update := [(source, None)];
               bf_count := []; bf_q := [source]; bf_in_q := [source] |} with
    | None => None
    | Some (Fault e) => Some (Raise e)
    | Some (NegativeCycle _) => Some (Raise NetworkXUnbounded)
    | Some (Continue st) =>
        match dict_get target (bf_pred st) with
        | None => Some (Raise NetworkXNoPath)
        | Some _ =>
            match build_path (S (length (bf_pred st))) [source] (bf_pred st)
                    [target] target with
            | None => None
            | Some (Raise e) => Some (Raise e)
            | Some (Ok None) => Some (Raise RuntimeError)
            | Some (Ok (Some path)) => Some (Ok path)
            end
        end
    end.

(** ** chain.py: queries *)

Definition cycle_error : exn := ValueError "Chain contains cycles - not a valid DAG".

Definition is_valid_dag (self : HybridChain) : option (result bool) :=
  is_directed_acyclic_graph (graph self).

Definition get_chain (self : HybridChain) : option (result (list string)) :=
  match is_directed_acyclic_graph (graph self) with
  | None => None
  | Some (Raise e) => Some (Raise e)
  | Some (Ok false) => Some (Raise cycle_error)
  | Some (Ok true) => topological_sort (graph self)
  end.

(** The local function [_weight(u, v)] of [get_critical_path]. *)
Definition _weight (self : HybridChain) (u v : string) : Q :=
  match dict_get v (_entities self) with
  | Some (EAction a) =>
      match duration_hours a with
      | Some d => if Qeq_bool d 0 then 0%Q else (- d)%Q
      | None => 0%Q
      end
  | _ => 0%Q
  end.

Definition graph_sources (g : DiGraph) : list string :=
  filter (fun n => in_degree g n =? 0) (nodes g).

Definition graph_sinks (g : DiGraph) : list string :=
  filter (fun n => out_degree g n =? 0) (nodes g).

(** The graph [g] of [get_critical_path], with the virtual end points. *)
Definition augmented (self : HybridChain) : DiGraph :=
  let g0 := add_node "__sink__" None (add_node "__src__" None (copy (graph self))) in
  let g1 := fold_left (fun g s => add_edge "__src__" s None g)
                      (graph_sources (graph self)) g0 in
  fold_left (fun g s => add_edge s "__sink__" None g) (graph_sinks (graph self)) g1.

Definition get_critical_path (self : HybridChain) : option (result (list string)) :=
  match is_directed_acyclic_graph (graph self) with
  | None => None
  | Some (Raise e) => Some (Raise e)
  | Some (Ok false) => Some (Raise cycle_error)
  | Some (Ok true) =>
      if order (graph self) =? 0 then Some (Ok [])
      else
        match graph_sources (graph self), graph_sinks (graph self) with
        | [], _ | _, [] => topological_sort (graph self)
        | _, _ =>
            match bellman_ford_path (augmented self) "__src__" "__sink__"
                    (_weight self) with
            | None => None
            | Some (Ok path) =>
                Some (Ok (filter (fun n => negb (mem n ["__src__"; "__sink__"])) path))
            | Some (Raise NetworkXNoPath) => Some (Ok [])
            | Some (Raise e) => Some (Raise e)
            end
        end
  end.

Definition intervention_score (self : HybridChain) (node_id : string) : result nat :=
  if negb (has_node (graph self) node_id)
  then Raise (ValueError ("Node '" ++ node_id ++ "' not in chain"))
  else des <- descendants (graph self) node_id ;; Ok (length des).

Definition is_narrative (e : Entity) : bool :=
  match e with ENarrative _ => true | _ => false end.

Definition is_action (e : Entity) : bool :=
  match e with EAction _ => true | _ => false end.

(** [get_entities_by_type(entity_type)], the type given by its test. *)
Definition get_entities_by_type (self : HybridChain) (isinstance : Entity -> bool)
    : list Entity :=
  filter isinstance (map snd (_entities self)).

(** ** analysis.py *)

(** [any(n in narrative_ids for n in path)] *)
Definition touches (narrative_ids path : list string) : bool :=
  existsb (fun n => mem n narrative_ids) path.

Definition narrative_threads (chain : HybridChain) : result (list (list string)) :=
  let narrative_ids := nodup string_dec (map entity_id (get_entities_by_type chain is_narrative)) in
  match narrative_ids with
  | [] => Ok []
  | _ :: _ =>
      let sources := graph_sources (graph chain) in
      let sinks := graph_sinks (graph chain) in
      fold_left
        (fun threads source =>
           fold_left
             (fun threads sink =>
                ts <- threads ;;
                paths <- all_simple_paths (graph chain) source sink ;;
                Ok (ts ++ filter (touches narrative_ids) paths))
             sinks threads)
        sources (Ok [])
  end.

(** [round(x, 2)] on a float: the decimal number with two places nearest
    to [x], ties to the even last digit, converted back to a float. *)
Definition round2 (x : Q) : Q := fl (inject_Z (round_half_even (x * 100)) / 100).

Record Ranking := {
  r_node_id : string;
  r_entity_type : string;
  r_name : string;
  r_downstream_impact : nat;
  r_in_degree : nat;
  r_out_degree : nat;
  r_score : Q }.

Definition nat_Q (n : nat) : Q := inject_Z (Z.of_nat n).

(** The value of [score] before [round]: the [int]
    [downstream * (1 + in_deg)], which [score *= (2.0 - p)] turns into a
    [float] for an action. *)
Definition raw_score (entity : option Entity) (downstream in_deg : nat) : Q :=
  let score := nat_Q (downstream * (1 + in_deg)) in
  match entity with
  | Some (EAction a) => float_mul (fl score) (float_sub 2 (success_probability a))
  | _ => score
  end.

(** [round(score, 2)]: an [int] is returned as it is. *)
Definition rounded_score (entity : option Entity) (score : Q) : Q :=
  match entity with
  | Some (EAction _) => round2 score
  | _ => score
  end.

(** Body of [for node_id in chain.graph.nodes]. *)
Definition ranking_of (chain : HybridChain) (node_id : string) : result Ranking :=
  let entity := get_entity chain node_id in
  des <- descendants (graph chain) node_id ;;
  let downstream := length des in
  let in_deg := in_degree (graph chain) node_id in
  let out_deg := out_degree (graph chain) node_id in
  Ok {| r_node_id := node_id;
        r_entity_type := match entity with Some e => type_name e | None => "NoneType" end;
        r_name := match entity with Some e => entity_name e | None => node_id end;
        r_downstream_impact := downstream;
        r_in_degree := in_deg;
        r_out_degree := out_deg;
        r_score := rounded_score entity (raw_score entity downstream in_deg) |}.

(** [list.sort(key=..., reverse=True)]: stable, largest key first. *)
Fixpoint insert_desc {A : Type} (key : A -> Q) (x : A) (l : list A) : list A :=
  match l with
  | [] => [x]
  | y :: r => if Qlt_bool (key x) (key y) then y :: insert_desc key x r else x :: l
  end.

Definition sort_desc {A : Type} (key : A -> Q) (l : list A) : list A :=
  fold_right (insert_desc key) [] l.

Fixpoint mapM {A B : Type} (f : A -> result B) (l : list A) : result (list B) :=
  match l with
  | [] => Ok []
  | x :: r => y <- f x ;; ys <- mapM f r ;; Ok (y :: ys)
  end.

Definition intervention_ranking (chain : HybridChain) : result (list Ranking) :=
  rankings <- mapM (ranking_of chain) (nodes (graph chain)) ;;
  Ok (sort_desc r_score rankings).

(** ** The fixture of tests/test_threadmap.py *)

Definition mk_actor (i n : string) (t : ActorType) : Entity :=
  EActor {| actor_id_ := i; actor_name := n; actor_type := t; capabilities := [];
            known_aliases := []; attribution_confidence := 1 # 2 |}.

Definition mk_action (i n : string) (d : ActionDomain) (dur : option Q) (p : Q)
    (tl : list string) : Entity :=
  EAction {| action_id := i; action_name := n; action_description := ""; domain := d;
             attack_ids := []; disarm_ids := []; action_sct_codes := [];
             actor_id := None; platform_id := None; tools := tl;
             duration_hours := dur; success_probability := p;
             detection_surface := [] |}.

Definition mk_rel (s t : string) (et : EdgeType) : Relationship :=
  {| source_id := s; target_id := t; edge_type := et; resource_id := None;
     description := "" |}.

(** Runs the calls in order on the chain; the first exception stops it. *)
Fixpoint run (ops : list (HybridChain -> result unit * HybridChain)) (c : HybridChain)
    : result HybridChain :=
  match ops with
  | [] => Ok c
  | op :: r =>
      match op c with
      | (Ok _, c') => run r c'
      | (Raise e, _) => Raise e
      end
  end.

Definition simple_chain_ops : list (HybridChain -> result unit * HybridChain) :=
  [ add_entity (mk_actor "a1" "Attacker" STATE);
    add_entity (mk_action "act1" "Recon" CYBER (Some 24%Q) (1 # 2) []);
    add_entity (mk_action "act2" "Exploit" CYBER (Some 48%Q) (3 # 10) ["metasploit"]);
    add_entity (mk_action "act3" "Exfil" CYBER (Some 12%Q) (1 # 2) []);
    add_entity (ECapability {| capability_id := "cap1"; capability_name := "Zero-day";
                               capability_type := EXPLOIT; capability_description := "";
                               perishable := false; ttl_hours := None |});
    add_entity (ETarget {| target_id_ := "t1"; target_name := "Victim Org";
                           target_type := "organization"; target_description := "";
                           vulnerabilities := [] |});
    add_entity (EEffect {| effect_id := "eff1"; effect_name := "Data breach";
                           effect_type := DATA_LOSS; effect_description := "";
                           severity := 9 # 10; reversibility := 1 # 2 |});
    add_entity (ENarrative {| narrative_id := "nar1"; narrative_name := "Leak narrative";
                              narrative_type := LEAK; narrative_description := "";
                              target_audience := None; narrative_sct_codes := [];
                              platforms := [] |});
    add_relationship (mk_rel "a1" "act1" TRIGGERS);
    add_relationship (mk_rel "act1" "act2" DEPENDENCY);
    add_relationship (mk_rel "act2" "act3" DEPENDENCY);
    add_relationship (mk_rel "cap1" "act2" ENABLES);
    add_relationship (mk_rel "act3" "eff1" TRIGGERS);
    add_relationship (mk_rel "act3" "nar1" ENABLES);
    add_relationship (mk_rel "nar1" "t1" AMPLIFIES) ].

Definition simple_chain : HybridChain :=
  match run simple_chain_ops (new_chain "test-chain" "Test Chain" "A simple test chain") with
  | Ok c => c
  | Raise _ => new_chain "" "" ""
  end.

(** ** Well-formed chains

    The class invariant of [HybridChain]: the graph nodes are the keys of
    [_entities], in the same order; every entity is stored under its own id;
    there is one edge per ordered pair and its end points are nodes. It holds
    of a new chain and is kept by [add_entity] and [add_relationship]. *)

Fixpoint nodupb (l : list string) : bool :=
  match l with
  | [] => true
  | x :: r => negb (mem x r) && nodupb r
  end.

Fixpoint edges_nodupb (es : list (string * string * option EdgeData)) : bool :=
  match es with
  | [] => true
  | e :: r => negb (existsb (edge_is (fst (fst e)) (snd (fst e))) r) && edges_nodupb r
  end.

Definition wf_graph (g : DiGraph) : bool :=
  nodupb (nodes g)
  && edges_nodupb (g_edges g)
  && forallb (fun e => has_node g (fst (fst e)) && has_node g (snd (fst e))) (g_edges g).

Fixpoint list_eqb (l1 l2 : list string) : bool :=
  match l1, l2 with
  | [], [] => true
  | x :: r1, y :: r2 => String.eqb x y && list_eqb r1 r2
  | _, _ => false
  end.

Definition wf_chain (c : HybridChain) : bool :=
  wf_graph (graph c)
  && list_eqb (nodes (graph c)) (dict_keys (_entities c))
  && forallb (fun p => String.eqb (fst p) (entity_id (snd p))) (_entities c).

(** Chains obtained from the constructor by the two insertion methods. *)
Inductive constructed : HybridChain -> Prop :=
| constructed_new (cid nm descr : string) : constructed (new_chain cid nm descr)
| constructed_entity (e : Entity) (c : HybridChain) :
    constructed c -> constructed (snd (add_entity e c))
| constructed_relationship (r : Relationship) (c : HybridChain) :
    constructed c -> constructed (snd (add_relationship r c)).

(** ** Graph vocabulary of the specification *)

(** [edge g u v]: the graph has the directed edge [u -> v]. *)
Definition edge (g : DiGraph) (u v : string) : Prop :=
  exists d, In (u, v, d) (g_edges g).

(** [v] is reachable from [u] by at least one edge. *)
Definition reachable (g : DiGraph) : string -> string -> Prop :=
  clos_trans string (edge g).

(** The relationship graph contains a directed cycle. *)
Definition cyclic (g : DiGraph) : Prop := exists v, reachable g v v.

(** [u] occurs strictly before [v] in [l]. *)
Definition before (l : list string) (u v : string) : Prop :=
  exists l1 l2 l3, l = l1 ++ u :: l2 ++ v :: l3.

(** [p] is a directed path: consecutive nodes are joined by edges. *)
Fixpoint is_path (g : DiGraph) (p : list string) : Prop :=
  match p with
  | [] => False
  | [x] => In x (nodes g)
  | x :: ((y :: _) as r) => edge g x y /\ is_path g r
  end.

(** ** Invariants as propositions *)

(** The invariant of the graph, as propositions. *)
Definition graph_ok (g : DiGraph) : Prop :=
  NoDup (nodes g)
  /\ NoDup (map fst (g_edges g))
  /\ (forall u v d, In (u, v, d) (g_edges g) -> In u (nodes g) /\ In v (nodes g)).

Definition chain_ok (c : HybridChain) : Prop :=
  graph_ok (graph c)
  /\ nodes (graph c) = dict_keys (_entities c)
  /\ (forall k e, In (k, e) (_entities c) -> k = entity_id e).

(** The attribute dictionary [add_relationship] stores on the edge. *)
Definition edge_data_of (rel : Relationship) : EdgeData :=
  {| ed_edge_type := edge_type rel;
     ed_resource_id := resource_id rel;
     ed_description := description rel |}.


(** ** Invariants of the graph algorithms *)

(** Number of predecessors of [v] that are not in [P]. *)
Definition need (g : DiGraph) (P : list string) (v : string) : nat :=
  length (filter (fun u => negb (mem u P)) (predecessors g v)).

(** Loop invariant of [topological_generations]: [P] are the nodes already
    processed, [todo] the rest of the current generation, [z] the list
    [zero_indegree] being built and [im] the map [indegree_map]. *)
Definition topo_inv (g : DiGraph) (P todo z : list string) (im : list (string * nat))
    : Prop :=
  NoDup (P ++ todo ++ z)
  /\ incl (P ++ todo ++ z) (nodes g)
  /\ NoDup (dict_keys im)
  /\ (forall v, dict_get v im = if need g P v =? 0 then None else Some (need g P v))
  /\ (forall v, In v (nodes g) -> (In v (P ++ todo ++ z) <-> need g P v = 0))
  /\ (forall u v, edge g u v -> In v (P ++ todo ++ z) -> before (P ++ todo ++ z) u v).

(** [l] is a topological order of [g]. *)
Definition topological_order (g : DiGraph) (l : list string) : Prop :=
  NoDup l
  /\ (forall v, In v l <-> In v (nodes g))
  /\ (forall u v, edge g u v -> before l u v).

(** What [topological_generations] may produce. *)
Definition topo_result_ok (g : DiGraph) (r : result (list (list string))) : Prop :=
  match r with
  | Ok gens => topological_order g (concat gens)
  | Raise e => e = NetworkXUnfeasible /\ cyclic g
  end.

(** Effect of one node's children on [indegree_map], as a lookup. *)
Definition dec_get (im : list (string * nat)) (cs : list string) (v : string)
    : option nat :=
  match dict_get v im with
  | Some d => if mem v cs then (if d - 1 =? 0 then None else Some (d - 1)) else Some d
  | None => None
  end.

(** Consecutive elements of [l] are related by [R]. *)
Fixpoint chain_of (R : string -> string -> Prop) (l : list string) : Prop :=
  match l with
  | [] => True
  | x :: r =>
      match r with
      | [] => True
      | y :: _ => R x y /\ chain_of R r
      end
  end.

(** ** Further fixtures *)

(** One actor related to itself: the smallest cyclic chain. *)
Definition loop_chain : HybridChain :=
  match run [ add_entity (mk_actor "a" "A" STATE);
              add_relationship (mk_rel "a" "a" DEPENDENCY) ]
            (new_chain "x" "X" "") with
  | Ok c => c
  | Raise _ => new_chain "" "" ""
  end.

(** Invariants of the breadth-first search from [s]. *)
Definition bfs_sound (g : DiGraph) (s : string) (st : bfs_state) : Prop :=
  bfs_seen st = s :: map snd (bfs_out st)
  /\ NoDup (bfs_seen st)
  /\ incl (bfs_seen st) (nodes g)
  /\ (forall v, In v (bfs_seen st) -> v = s \/ reachable g s v).

(** [todo] is the rest of the layer being visited; every seen node outside
    [todo] and outside the next layer has all its successors seen. *)
Definition bfs_inv (g : DiGraph) (s : string) (todo : list string) (st : bfs_state)
    : Prop :=
  bfs_sound g s st
  /\ incl todo (bfs_seen st)
  /\ incl (bfs_next st) (bfs_seen st)
  /\ (forall u v, In u (bfs_seen st) -> ~ In u todo -> ~ In u (bfs_next st) ->
                  edge g u v -> In v (bfs_seen st)).

(** An action whose [success_probability] exceeds 2, followed by an actor. *)
Definition fragile_chain : HybridChain :=
  match run [ add_entity (mk_action "x" "X" CYBER None 3 []);
              add_entity (mk_actor "y" "Y" STATE);
              add_relationship (mk_rel "x" "y" DEPENDENCY) ]
            (new_chain "f" "F" "") with
  | Ok c => c
  | Raise _ => new_chain "" "" ""
  end.

(** [r] is the float of a decimal number with two places that is nearest
    to [x], the one with the even last digit when two are equally near. *)
Definition rounded_to_cents (x r : Q) : Prop :=
  exists m : Z,
    r = fl (inject_Z m / 100)
    /\ (Qabs (x * 100 - inject_Z m) <= 1 # 2)%Q
    /\ ((Qabs (x * 100 - inject_Z m) == 1 # 2)%Q -> Z.even m = true).

(** What [intervention_ranking] records for one node: the size of the
    descendant set, the degrees, and the score. The score of an action is
    the float product of the count (converted to a float) and the float
    difference [2.0 - success_probability], rounded to two decimals; the
    score of another node is the integer count itself. *)
Definition ranking_ok (c : HybridChain) (r : Ranking) : Prop :=
  In (r_node_id r) (nodes (graph c))
  /\ exists des,
       NoDup des
       /\ (forall v, In v des <-> v <> r_node_id r /\ reachable (graph c) (r_node_id r) v)
       /\ r_downstream_impact r = length des
       /\ r_in_degree r = in_degree (graph c) (r_node_id r)
       /\ r_out_degree r = out_degree (graph c) (r_node_id r)
       /\ match get_entity c (r_node_id r) with
          | Some (EAction a) =>
              rounded_to_cents
                (fl (fl (nat_Q (length des * (1 + in_degree (graph c) (r_node_id r))))
                     * fl (2 - success_probability a)))
                (r_score r)
          | _ => r_score r = nat_Q (length des * (1 + in_degree (graph c) (r_node_id r)))
          end.

(** Largest score first. *)
Definition score_ge (a b : Ranking) : Prop := (r_score b <= r_score a)%Q.

(** ** Paths *)

(** [q] is a non-empty directed walk ending in [t]. *)
Fixpoint path_to (g : DiGraph) (t : string) (q : list string) : Prop :=
  match q with
  | [] => False
  | x :: r =>
      match r with
      | [] => x = t
      | y :: _ => edge g x y /\ path_to g t r
      end
  end.

(** [p] is a simple directed path (no repeated node) from the node [s] to the
    node [t]. *)
Definition simple_path (g : DiGraph) (s t : string) (p : list string) : Prop :=
  (exists q, p = s :: q) /\ path_to g t p /\ NoDup p.

(** [p] is a simple path from a zero-in-degree node to a zero-out-degree
    node. *)
Definition source_sink_path (g : DiGraph) (p : list string) : Prop :=
  exists s t,
    In s (nodes g) /\ in_degree g s = 0
    /\ In t (nodes g) /\ out_degree g t = 0
    /\ simple_path g s t p.

(** The path [p] contains a Narrative entity of the chain. *)
Definition has_narrative (c : HybridChain) (p : list string) : Prop :=
  exists n e, In n p /\ get_entity c n = Some e /\ is_narrative e = true.

(** Threads contributed by one (source, sink) pair. *)
Definition threads_between (g : DiGraph) (ids : list string) (source sink : string)
    : list (list string) :=
  filter (touches ids) (simple_paths_from (order g - 1) g [sink] [] source).

(** A single actor whose id is the name [get_critical_path] gives to its
    virtual source. *)
Definition sentinel_chain : HybridChain :=
  match run [ add_entity (mk_actor "__src__" "Source" STATE) ] (new_chain "s" "S" "") with
  | Ok c => c
  | Raise _ => new_chain "" "" ""
  end.

(** A single action of 5 hours whose id is the name of the virtual sink. *)
Definition sentinel_action_chain : HybridChain :=
  match run [ add_entity (mk_action "__sink__" "Sink" CYBER (Some 5%Q) (1 # 2) []) ]
            (new_chain "s" "S" "") with
  | Ok c => c
  | Raise _ => new_chain "" "" ""
  end.

(** ** io.py: JSON

    [json.dumps] and [json.loads] are modelled at the level of JSON values:
    [to_json] is the value that is written and [from_json] starts from the
    value that is read. The pydantic constructors accept the JSON types that
    [model_dump(mode="json")] writes; their coercions of other types are not
    modelled and are reported as [ValidationError]. *)

#[local] Unset Elimination Schemes.
Inductive json : Type :=
| JNull
| JBool (b : bool)
| JNum (q : Q)
| JStr (s : string)
| JArr (l : list json)
| JObj (kv : list (string * json)).
#[local] Set Elimination Schemes.

(** The [.value] of the enumerations. *)
Definition actor_type_value (t : ActorType) : string :=
  match t with
  | STATE => "state" | PROXY => "proxy" | HACKTIVIST => "hacktivist"
  | CRIMINAL => "criminal" | AUTOMATED => "automated" | INSIDER => "insider"
  end.

Definition action_domain_value (t : ActionDomain) : string :=
  match t with
  | CYBER => "cyber" | COGNITIVE => "cognitive" | PHYSICAL => "physical"
  | HYBRID => "hybrid"
  end.

Definition capability_type_value (t : CapabilityType) : string :=
  match t with
  | EXPLOIT => "exploit" | TOOLING => "tooling" | TRADECRAFT => "tradecraft"
  | ACCESS => "access" | DATA => "data"
  end.

Definition infrastructure_type_value (t : InfrastructureType) : string :=
  match t with
  | SOCIAL_MEDIA => "social_media" | EMAIL => "email" | MESSAGING => "messaging"
  | SERVER => "server" | DOMAIN => "domain" | INFRA_PHYSICAL => "physical"
  | MEDIA => "media" | GOVERNMENT => "government"
  end.

Definition narrative_type_value (t : NarrativeType) : string :=
  match t with
  | DISINFORMATION => "disinformation" | PROPAGANDA => "propaganda" | LEAK => "leak"
  | AMPLIFICATION => "amplification" | FRAMING => "framing"
  end.

Definition effect_type_value (t : EffectType) : string :=
  match t with
  | BEHAVIORAL_CHANGE => "behavioral_change" | DATA_LOSS => "data_loss"
  | ACCESS_GAINED => "access_gained" | REPUTATION_DAMAGE => "reputation_damage"
  | OPERATIONAL_DISRUPTION => "operational_disruption"
  | NARRATIVE_ADOPTION => "narrative_adoption"
  end.

Definition edge_type_value (t : EdgeType) : string :=
  match t with
  | DEPENDENCY => "dependency" | ENABLES => "enables" | AMPLIFIES => "amplifies"
  | TRIGGERS => "triggers"
  end.

(** Enum lookup by value: the first member with that value. *)
Definition enum_of_value {E : Type} (value : E -> string) (members : list E) (s : string)
    : option E :=
  find (fun m => String.eqb (value m) s) members.
Arguments enum_of_value {E} value members s : simpl never.

Definition actor_types := [STATE; PROXY; HACKTIVIST; CRIMINAL; AUTOMATED; INSIDER].
Definition action_domains := [CYBER; COGNITIVE; PHYSICAL; HYBRID].
Definition capability_types := [EXPLOIT; TOOLING; TRADECRAFT; ACCESS; DATA].
Definition infrastructure_types :=
  [SOCIAL_MEDIA; EMAIL; MESSAGING; SERVER; DOMAIN; INFRA_PHYSICAL; MEDIA; GOVERNMENT].
Definition narrative_types := [DISINFORMATION; PROPAGANDA; LEAK; AMPLIFICATION; FRAMING].
Definition effect_types :=
  [BEHAVIORAL_CHANGE; DATA_LOSS; ACCESS_GAINED; REPUTATION_DAMAGE;
   OPERATIONAL_DISRUPTION; NARRATIVE_ADOPTION].
Definition edge_types := [DEPENDENCY; ENABLES; AMPLIFIES; TRIGGERS].

(** *** model_dump(mode="json") *)

Definition j_strs (l : list string) : json := JArr (map JStr l).
Definition j_opt_str (o : option string) : json :=
  match o with Some s => JStr s | None => JNull end.
Definition j_opt_num (o : option Q) : json :=
  match o with Some q => JNum q | None => JNull end.

Definition model_dump (e : Entity) : list (string * json) :=
  match e with
  | EActor a =>
      [ ("id", JStr (actor_id_ a)); ("name", JStr (actor_name a));
        ("actor_type", JStr (actor_type_value (actor_type a)));
        ("capabilities", j_strs (capabilities a));
        ("known_aliases", j_strs (known_aliases a));
        ("attribution_confidence", JNum (attribution_confidence a)) ]
  | EAction a =>
      [ ("id", JStr (action_id a)); ("name", JStr (action_name a));
        ("description", JStr (action_description a));
        ("domain", JStr (action_domain_value (domain a)));
        ("attack_ids", j_strs (attack_ids a));
        ("disarm_ids", j_strs (disarm_ids a));
        ("sct_codes", j_strs (action_sct_codes a));
        ("actor_id", j_opt_str (actor_id a));
        ("platform_id", j_opt_str (platform_id a));
        ("tools", j_strs (tools a));
        ("duration_hours", j_opt_num (duration_hours a));
        ("success_probability", JNum (success_probability a));
        ("detection_surface", j_strs (detection_surface a)) ]
  | ECapability c =>
      [ ("id", JStr (capability_id c)); ("name", JStr (capability_name c));
        ("capability_type", JStr (capability_type_value (capability_type c)));
        ("description", JStr (capability_description c));
        ("perishable", JBool (perishable c));
        ("ttl_hours", j_opt_num (ttl_hours c)) ]
  | EInfrastructure i =>
      [ ("id", JStr (infra_id i)); ("name", JStr (infra_name i));
        ("infra_type", JStr (infrastructure_type_value (infra_type i)));
        ("reach_estimate", j_opt_str (reach_estimate i));
        ("detection_difficulty", JNum (detection_difficulty i)) ]
  | ENarrative n =>
      [ ("id", JStr (narrative_id n)); ("name", JStr (narrative_name n));
        ("narrative_type", JStr (narrative_type_value (narrative_type n)));
        ("description", JStr (narrative_description n));
        ("target_audience", j_opt_str (target_audience n));
        ("sct_codes", j_strs (narrative_sct_codes n));
        ("platforms", j_strs (platforms n)) ]
  | ETarget t =>
      [ ("id", JStr (target_id_ t)); ("name", JStr (target_name t));
        ("target_type", JStr (target_type t));
        ("description", JStr (target_description t));
        ("vulnerabilities", j_strs (vulnerabilities t)) ]
  | EEffect e =>
      [ ("id", JStr (effect_id e)); ("name", JStr (effect_name e));
        ("effect_type", JStr (effect_type_value (effect_type e)));
        ("description", JStr (effect_description e));
        ("severity", JNum (severity e));
        ("reversibility", JNum (reversibility e)) ]
  end.

(** One element of the [relationships] property as JSON. *)
Definition relationship_json (r : string * string * option EdgeData) : json :=
  JObj ([ ("source", JStr (fst (fst r))); ("target", JStr (snd (fst r))) ]
        ++ match snd r with
           | Some d =>
               [ ("edge_type", JStr (edge_type_value (ed_edge_type d)));
                 ("resource_id", j_opt_str (ed_resource_id d));
                 ("description", JStr (ed_description d)) ]
           | None => []
           end).

(** The value [data] that [to_json] dumps. *)
Definition to_json (chain : HybridChain) : json :=
  JObj [ ("id", JStr (chain_id chain));
         ("name", JStr (name chain));
         ("description", JStr (chain_description chain));
         ("entities",
          JObj (map (fun p => (fst p, JObj (dict_set "_type" (JStr (type_name (snd p)))
                                              (model_dump (snd p)))))
                    (entities chain)));
         ("relationships", JArr (map relationship_json (relationships chain))) ].

(** *** Field validation of the pydantic models *)

Definition req_str (k : string) (o : list (string * json)) : result string :=
  match dict_get k o with
  | Some (JStr s) => Ok s
  | _ => Raise ValidationError
  end.

Definition str_default (k d : string) (o : list (string * json)) : result string :=
  match dict_get k o with
  | None => Ok d
  | Some (JStr s) => Ok s
  | Some _ => Raise ValidationError
  end.

Definition opt_str (k : string) (o : list (string * json)) : result (option string) :=
  match dict_get k o with
  | None | Some JNull => Ok None
  | Some (JStr s) => Ok (Some s)
  | Some _ => Raise ValidationError
  end.

Definition num_default (k : string) (d : Q) (o : list (string * json)) : result Q :=
  match dict_get k o with
  | None => Ok d
  | Some (JNum q) => Ok q
  | Some _ => Raise ValidationError
  end.

Definition opt_num (k : string) (o : list (string * json)) : result (option Q) :=
  match dict_get k o with
  | None | Some JNull => Ok None
  | Some (JNum q) => Ok (Some q)
  | Some _ => Raise ValidationError
  end.

Definition bool_default (k : string) (d : bool) (o : list (string * json)) : result bool :=
  match dict_get k o with
  | None => Ok d
  | Some (JBool b) => Ok b
  | Some _ => Raise ValidationError
  end.

Definition strs_default (k : string) (o : list (string * json)) : result (list string) :=
  match dict_get k o with
  | None => Ok []
  | Some (JArr l) =>
      mapM (fun j => match j with JStr s => Ok s | _ => Raise ValidationError end) l
  | Some _ => Raise ValidationError
  end.

Definition req_enum {E : Type} (value : E -> string) (members : list E) (k : string)
    (o : list (string * json)) : result E :=
  match dict_get k o with
  | Some (JStr s) =>
      match enum_of_value value members s with
      | Some m => Ok m
      | None => Raise ValidationError
      end
  | _ => Raise ValidationError
  end.

Definition enum_default {E : Type} (value : E -> string) (members : list E) (k : string)
    (d : E) (o : list (string * json)) : result E :=
  match dict_get k o with
  | None => Ok d
  | Some _ => req_enum value members k o
  end.

(** The constructor of the class named [etype] applied to the keyword
    arguments [edata]; [type_map[etype]] raises [KeyError] on another name. *)
Definition construct (etype : string) (o : list (string * json)) : result Entity :=
  if String.eqb etype "Actor" then
    i <- req_str "id" o ;; n <- req_str "name" o ;;
    t <- req_enum actor_type_value actor_types "actor_type" o ;;
    c <- strs_default "capabilities" o ;; k <- strs_default "known_aliases" o ;;
    a <- num_default "attribution_confidence" (1 # 2) o ;;
    Ok (EActor {| actor_id_ := i; actor_name := n; actor_type := t; capabilities := c;
                  known_aliases := k; attribution_confidence := a |})
  else if String.eqb etype "Action" then
    i <- req_str "id" o ;; n <- req_str "name" o ;;
    d <- str_default "description" "" o ;;
    dm <- enum_default action_domain_value action_domains "domain" CYBER o ;;
    at_ <- strs_default "attack_ids" o ;; di <- strs_default "disarm_ids" o ;;
    sc <- strs_default "sct_codes" o ;;
    ai <- opt_str "actor_id" o ;; pi <- opt_str "platform_id" o ;;
    tl <- strs_default "tools" o ;;
    du <- opt_num "duration_hours" o ;;
    sp <- num_default "success_probability" (1 # 2) o ;;
    ds <- strs_default "detection_surface" o ;;
    Ok (EAction {| action_id := i; action_name := n; action_description := d;
                   domain := dm; attack_ids := at_; disarm_ids := di;
                   action_sct_codes := sc; actor_id := ai; platform_id := pi;
                   tools := tl; duration_hours := du; success_probability := sp;
                   detection_surface := ds |})
  else if String.eqb etype "Capability" then
    i <- req_str "id" o ;; n <- req_str "name" o ;;
    t <- req_enum capability_type_value capability_types "capability_type" o ;;
    d <- str_default "description" "" o ;;
    p <- bool_default "perishable" false o ;;
    tt <- opt_num "ttl_hours" o ;;
    Ok (ECapability {| capability_id := i; capability_name := n; capability_type := t;
                       capability_description := d; perishable := p; ttl_hours := tt |})
  else if String.eqb etype "Infrastructure" then
    i <- req_str "id" o ;; n <- req_str "name" o ;;
    t <- req_enum infrastructure_type_value infrastructure_types "infra_type" o ;;
    r <- opt_str "reach_estimate" o ;;
    dd <- num_default "detection_difficulty" (1 # 2) o ;;
    Ok (EInfrastructure {| infra_id := i; infra_name := n; infra_type := t;
                           reach_estimate := r; detection_difficulty := dd |})
  else if String.eqb etype "Narrative" then
    i <- req_str "id" o ;; n <- req_str "name" o ;;
    t <- req_enum narrative_type_value narrative_types "narrative_type" o ;;
    d <- str_default "description" "" o ;;
    ta <- opt_str "target_audience" o ;;
    sc <- strs_default "sct_codes" o ;; pl <- strs_default "platforms" o ;;
    Ok (ENarrative {| narrative_id := i; narrative_name := n; narrative_type := t;
                      narrative_description := d; target_audience := ta;
                      narrative_sct_codes := sc; platforms := pl |})
  else if String.eqb etype "Target" then
    i <- req_str "id" o ;; n <- req_str "name" o ;;
    tt <- str_default "target_type" "organization" o ;;
    d <- str_default "description" "" o ;;
    v <- strs_default "vulnerabilities" o ;;
    Ok (ETarget {| target_id_ := i; target_name := n; target_type := tt;
                   target_description := d; vulnerabilities := v |})
  else if String.eqb etype "Effect" then
    i <- req_str "id" o ;; n <- req_str "name" o ;;
    t <- req_enum effect_type_value effect_types "effect_type" o ;;
    d <- str_default "description" "" o ;;
    s <- num_default "severity" (1 # 2) o ;;
    r <- num_default "reversibility" (1 # 2) o ;;
    Ok (EEffect {| effect_id := i; effect_name := n; effect_type := t;
                   effect_description := d; severity := s; reversibility := r |})
  else Raise (KeyError etype).

(** [Relationship(source_id=rel["source"], ...)] *)
Definition relationship_of_json (rel : json) : result Relationship :=
  match rel with
  | JObj o =>
      s <- match dict_get "source" o with
           | Some (JStr s) => Ok s
           | Some _ => Raise ValidationError
           | None => Raise (KeyError "source")
           end ;;
      t <- match dict_get "target" o with
           | Some (JStr s) => Ok s
           | Some _ => Raise ValidationError
           | None => Raise (KeyError "target")
           end ;;
      et <- match dict_get "edge_type" o with
            | None => Ok DEPENDENCY
            | Some (JStr v) =>
                match enum_of_value edge_type_value edge_types v with
                | Some m => Ok m
                | None => Raise (ValueError "not a valid EdgeType")
                end
            | Some _ => Raise (ValueError "not a valid EdgeType")
            end ;;
      r <- opt_str "resource_id" o ;;
      d <- str_default "description" "" o ;;
      Ok {| source_id := s; target_id := t; edge_type := et; resource_id := r;
            description := d |}
  | _ => Raise ValidationError
  end.

(** Body of [for eid, edata in data["entities"].items()]. *)
Definition load_entity (st : result HybridChain) (item : string * json)
    : result HybridChain :=
  chain <- st ;;
  match snd item with
  | JObj edata =>
      match dict_get "_type" edata with
      | Some (JStr etype) =>
          e <- construct etype (dict_del "_type" edata) ;;
          Ok (snd (add_entity e chain))
      | Some _ => Raise (KeyError "_type")
      | None => Raise (KeyError "_type")
      end
  | _ => Raise ValidationError
  end.

(** Body of [for rel in data["relationships"]]. *)
Definition load_relationship (st : result HybridChain) (rel : json) : result HybridChain :=
  chain <- st ;;
  r <- relationship_of_json rel ;;
  match add_relationship r chain with
  | (Ok _, chain') => Ok chain'
  | (Raise e, _) => Raise e
  end.

(** [from_json] on the value read by [json.loads]. *)
Definition from_json (data : json) : result HybridChain :=
  match data with
  | JObj o =>
      match dict_get "id" o, dict_get "name" o with
      | Some (JStr cid), Some (JStr nm) =>
          descr <- str_default "description" "" o ;;
          match dict_get "entities" o, dict_get "relationships" o with
          | Some (JObj ents), Some (JArr rels) =>
              chain <- fold_left load_entity ents (Ok (new_chain cid nm descr)) ;;
              fold_left load_relationship rels (Ok chain)
          | None, _ => Raise (KeyError "entities")
          | _, None => Raise (KeyError "relationships")
          | _, _ => Raise ValidationError
          end
      | None, _ => Raise (KeyError "id")
      | _, None => Raise (KeyError "name")
      | _, _ => Raise ValidationError
      end
  | _ => Raise ValidationError
  end.

(** Every edge carries the attributes written by [add_relationship]. *)
Definition edges_labelled (c : HybridChain) : bool :=
  forallb (fun e => match snd e with Some _ => true | None => false end)
          (g_edges (graph c)).

(** The chain [from_json] has built after the entity loop ([es] empty) and
    while the relationship loop runs. *)
Definition rebuilt (cid nm descr : string) (ents : list (string * Entity))
    (es : list (string * string * option EdgeData)) : HybridChain :=
  {| chain_id := cid; name := nm; chain_description := descr;
     graph :=
       {| g_node :=
            map (fun p => (fst p, Some {| nd_entity_type := type_name (snd p);
                                          nd_data := snd p |})) ents;
          g_edges := es |};
     _entities := ents |}.

(** ** Invariants of the shortest-path search *)

(** Sum of the edge weights along a walk. *)
Fixpoint path_weight (w : string -> string -> Q) (p : list string) : Q :=
  match p with
  | [] => 0%Q
  | x :: r =>
      match r with
      | [] => 0%Q
      | y :: _ => (w x y + path_weight w r)%Q
      end
  end.

(** [count.get(v, 0)] *)
Definition count_of (count : list (string * nat)) (v : string) : nat :=
  match dict_get v count with Some c => c | None => 0 end.

(** The value stored in [recent_update[v]] by an improving relaxation of the
    edge [u -> v]. *)
Definition next_update (st : bf_state) (u v : string) (ru : option (string * string))
    : option (string * string) :=
  match dict_get v (bf_pred_edge st) with
  | Some (Some p) => if String.eqb p u then ru else Some (u, v)
  | _ => Some (u, v)
  end.

(** The effect of one pass through the body of the relaxation loop when it
    neither raises nor reports a negative cycle. *)
Inductive relax_step (w : string -> string -> Q) (u : string) (du : Q) (st : bf_state)
    (v : string) : bf_state -> Prop :=
| relax_improve (ru : option (string * string)) :
    match dict_get v (bf_dist st) with
    | None => True
    | Some d => (fl (du + w u v) < d)%Q
    end ->
    dict_get u (bf_recent_update st) = Some ru ->
    relax_step w u du st v
      {| bf_dist := dict_set v (fl (du + w u v)) (bf_dist st);
         bf_pred := dict_set v [u] (bf_pred st);
         bf_pred_edge := dict_set v (Some u) (bf_pred_edge st);
         bf_recent_update := dict_set v (next_update st u v ru) (bf_recent_update st);
         bf_count := if mem v (bf_in_q st) then bf_count st
                     else dict_set v (count_of (bf_count st) v + 1) (bf_count st);
         bf_q := if mem v (bf_in_q st) then bf_q st else bf_q st ++ [v];
         bf_in_q := if mem v (bf_in_q st) then bf_in_q st else bf_in_q st ++ [v] |}
| relax_tie (d : Q) (ps : list string) :
    dict_get v (bf_dist st) = Some d ->
    (fl (du + w u v) == d)%Q ->
    dict_get v (bf_pred st) = Some ps ->
    relax_step w u du st v
      {| bf_dist := bf_dist st;
         bf_pred := dict_set v (ps ++ [u]) (bf_pred st);
         bf_pred_edge := bf_pred_edge st;
         bf_recent_update := bf_recent_update st;
         bf_count := bf_count st;
         bf_q := bf_q st;
         bf_in_q := bf_in_q st |}
| relax_none (d : Q) :
    dict_get v (bf_dist st) = Some d ->
    (d < fl (du + w u v))%Q ->
    relax_step w u du st v st.

(** The state after [u = q.popleft(); in_q.remove(u)]. *)
Definition bf_pop (u : string) (st : bf_state) : bf_state :=
  {| bf_dist := bf_dist st; bf_pred := bf_pred st;
     bf_pred_edge := bf_pred_edge st;
     bf_recent_update := bf_recent_update st;
     bf_count := bf_count st; bf_q := tl (bf_q st);
     bf_in_q := remove_str u (bf_in_q st) |}.

(** Bookkeeping invariant of the search from [s] in [g]: the queue and its
    membership set agree, every node with a distance has its predecessor
    list and update record, the update records follow edges of the graph,
    and the enqueue counters are bounded by the level of the queue entries
    ([lev] for the nodes in the queue, [cur] for the others). *)
Record bf_safe (g : DiGraph) (s : string) (n : nat) (lev : string -> nat) (cur : nat)
    (st : bf_state) : Prop := {
  safe_q_nodup : NoDup (bf_q st);
  safe_inq_nodup : NoDup (bf_in_q st);
  safe_q_inq : forall v, In v (bf_q st) <-> In v (bf_in_q st);
  safe_q_dom : forall v, In v (bf_q st) -> dict_get v (bf_dist st) <> None;
  safe_dom_pred : forall v, dict_get v (bf_dist st) <> None ->
                            dict_get v (bf_pred st) <> None;
  safe_dom_update : forall v, dict_get v (bf_dist st) <> None ->
                              dict_get v (bf_recent_update st) <> None;
  safe_dom_nodes : forall v, dict_get v (bf_dist st) <> None -> In v (nodes g);
  safe_update : forall x a b,
      dict_get x (bf_recent_update st) = Some (Some (a, b)) ->
      edge g a b /\ (b = x \/ reachable g b x);
  safe_levels : exists A B,
      bf_q st = A ++ B
      /\ Forall (fun x => lev x = cur) A
      /\ Forall (fun x => lev x = S cur) B;
  safe_walks : forall x, In x (bf_q st) ->
      exists p, path_to g x (s :: p) /\ length p = lev x;
  safe_count_nodup : NoDup (dict_keys (bf_count st));
  safe_count : forall x c, dict_get x (bf_count st) = Some c ->
      In x (nodes g) /\ c < n /\ c <= (if mem x (bf_q st) then lev x else cur) }.

(** The node [u] has been taken from the queue at level [cur] and its
    successors are being relaxed. *)
Record bf_current (g : DiGraph) (s : string) (lev : string -> nat) (cur : nat)
    (u : string) (st : bf_state) : Prop := {
  cur_out : ~ In u (bf_q st);
  cur_dom : dict_get u (bf_dist st) <> None;
  cur_walk : exists p, path_to g u (s :: p) /\ length p = cur }.

(** [x] still has to be looked at: it is in [base] or one of its recorded
    predecessors, from which it can be improved, has to be. *)
Inductive pending (w : string -> string -> Q) (st : bf_state) (base : list string)
    : string -> Prop :=
| pending_here (x : string) : In x base -> pending w st base x
| pending_via (x p : string) (ps : list string) (dx dp : Q) :
    dict_get x (bf_pred st) = Some ps -> In p ps ->
    dict_get x (bf_dist st) = Some dx -> dict_get p (bf_dist st) = Some dp ->
    (dp + w p x < dx)%Q ->
    pending w st base p ->
    pending w st base x.

(** Distance invariant of the search: recorded predecessors are edges along
    which the distance does not increase; every edge is relaxed unless its
    source is pending. *)
Record bf_opt (g : DiGraph) (w : string -> string -> Q) (s : string)
    (base : list string) (st : bf_state) : Prop := {
  opt_source : dict_get s (bf_dist st) = Some 0%Q /\ dict_get s (bf_pred st) = Some [];
  opt_pred : forall x ps p, dict_get x (bf_pred st) = Some ps -> In p ps ->
      edge g p x
      /\ exists dp dx,
           dict_get p (bf_dist st) = Some dp /\ dict_get x (bf_dist st) = Some dx
           /\ (dp + w p x <= dx)%Q
           /\ (In p (bf_in_q st) -> (dp + w p x < dx)%Q);
  opt_pred_nonempty : forall x, dict_get x (bf_dist st) <> None -> x <> s ->
      exists p ps, dict_get x (bf_pred st) = Some (p :: ps);
  opt_relaxed : forall a b da, edge g a b -> dict_get a (bf_dist st) = Some da ->
      (exists db, dict_get b (bf_dist st) = Some db /\ (db <= da + w a b)%Q)
      \/ pending w st base a }.

(** The successors in [done] of the node being processed are relaxed. *)
Definition relaxed_from (w : string -> string -> Q) (u : string) (du : Q)
    (done : list string) (st : bf_state) : Prop :=
  dict_get u (bf_dist st) = Some du
  /\ forall v, In v done ->
       exists dv, dict_get v (bf_dist st) = Some dv /\ (dv <= du + w u v)%Q.

(** Termination measure of the queue loop: the queue length plus the number
    of enqueue operations the counters still allow. *)
Definition bf_potential (g : DiGraph) (n : nat) (st : bf_state) : nat :=
  length (bf_q st)
  + list_sum (map (fun x => n - 1 - count_of (bf_count st) x) (nodes g)).

(** The distance the search computes along a walk: the weights are added
    one after the other, each sum rounded to a float. *)
Fixpoint float_walk_from (w : string -> string -> Q) (acc : Q) (x : string)
    (p : list string) : Q :=
  match p with
  | [] => acc
  | y :: r => float_walk_from w (fl (acc + w x y)) y r
  end.

Definition float_walk_weight (w : string -> string -> Q) (q : list string) : Q :=
  match q with
  | [] => 0%Q
  | x :: p => float_walk_from w 0%Q x p
  end.

(** [d] is the distance computed along some walk from [s] to [t]. *)
Definition reached_by (g : DiGraph) (w : string -> string -> Q) (s : string)
    (d : Q) (t : string) : Prop :=
  exists p, path_to g t (s :: p) /\ d = float_walk_weight w (s :: p).

(** Every recorded distance is the distance computed along a walk. *)
Definition bf_floats (g : DiGraph) (w : string -> string -> Q) (s : string)
    (st : bf_state) : Prop :=
  forall x d, dict_get x (bf_dist st) = Some d -> reached_by g w s d x.

(** ** The critical path *)

(** The duration [get_critical_path] charges for arriving at the node [v]:
    [duration_hours] of an Action, 0 for every other entity (and for an
    Action without duration). *)
Definition node_duration (c : HybridChain) (v : string) : Q :=
  match dict_get v (_entities c) with
  | Some (EAction a) =>
      match duration_hours a with
      | Some d => d
      | None => 0%Q
      end
  | _ => 0%Q
  end.

(** Total duration of the nodes of a path. *)
Definition total_duration (c : HybridChain) (p : list string) : Q :=
  fold_right (fun v acc => (node_duration c v + acc)%Q) 0%Q p.

(** Sum of the absolute durations of a list of nodes. *)
Definition abs_duration (c : HybridChain) (l : list string) : Q :=
  fold_right (fun v acc => (Qabs (node_duration c v) + acc)%Q) 0%Q l.

(** Every duration is a whole number of hours and the durations of the
    chain add up to less than 2^53: every sum of durations is then a float
    and the additions of the search are exact. *)
Definition whole_durations (c : HybridChain) : Prop :=
  (forall v, exists z : Z, (node_duration c v == inject_Z z)%Q)
  /\ (abs_duration c (nodes (graph c)) < inject_Z (2 ^ 53))%Q.

(** The same condition as a test that can be run on a chain. *)
Definition whole_durationsb (c : HybridChain) : bool :=
  forallb (fun v => Qeq_bool (node_duration c v)
                             (inject_Z (Qfloor (node_duration c v))))
          (dict_keys (_entities c))
  && negb (Qle_bool (inject_Z (2 ^ 53)) (abs_duration c (nodes (graph c)))).

(** ** analysis.py: chokepoints and capability requirements *)

(** The graph seen along [G.pred] instead of [G.succ]: the successors of a
    node in this view are its predecessors in [g], in the same order. *)
Definition reverse_view (g : DiGraph) : DiGraph :=
  {| g_node := g_node g;
     g_edges := map (fun e => (snd (fst e), fst (fst e), snd e)) (g_edges g) |}.

(** [nx.ancestors(G, source)]: the set [{child for parent, child in
    bfs_edges(G, source, reverse=True)}]; with [reverse=True] the search
    follows [G.predecessors]. *)
Definition ancestors (g : DiGraph) (source : string) : result (list string) :=
  if negb (has_node g source) then Raise NetworkXError
  else Ok (nodup string_dec (map snd (bfs_edges (reverse_view g) source))).

Record Chokepoint := {
  cp_node_id : string;
  cp_entity_type : string;
  cp_downstream_count : nat;
  cp_upstream_count : nat;
  cp_impact : nat }.

(** Body of [for node_id in chain.graph.nodes] in [find_chokepoints]. *)
Definition chokepoint_of (chain : HybridChain) (node_id : string) : result Chokepoint :=
  des <- descendants (graph chain) node_id ;;
  anc <- ancestors (graph chain) node_id ;;
  let impact := length des in
  Ok {| cp_node_id := node_id;
        cp_entity_type := match get_entity chain node_id with
                          | Some e => type_name e
                          | None => "NoneType"
                          end;
        cp_downstream_count := length des;
        cp_upstream_count := length anc;
        cp_impact := impact |}.

(** The slice [l[:n]] for an integer [n]: a negative [n] counts from the
    end. *)
Definition slice_to {A : Type} (n : Z) (l : list A) : list A :=
  if (0 <=? n)%Z then firstn (Z.to_nat n) l
  else firstn (length l - Z.to_nat (- n)) l.

Definition find_chokepoints (chain : HybridChain) (top_n : Z) : result (list Chokepoint) :=
  results <- mapM (chokepoint_of chain) (nodes (graph chain)) ;;
  Ok (slice_to top_n (sort_desc (fun x => nat_Q (cp_impact x)) results)).

Definition is_capability (e : Entity) : bool :=
  match e with ECapability _ => true | _ => false end.

Record CapabilityRequirement := {
  cr_id : string;
  cr_name : string;
  cr_type : string;
  cr_source : string }.

(** [capability_requirements]: the explicit Capability entities, then the
    tools listed on the Action entities. *)
Definition capability_requirements (chain : HybridChain) : list CapabilityRequirement :=
  flat_map
    (fun entity =>
       match entity with
       | ECapability c =>
           [ {| cr_id := capability_id c; cr_name := capability_name c;
                cr_type := capability_type_value (capability_type c);
                cr_source := "entity" |} ]
       | _ => []
       end)
    (get_entities_by_type chain is_capability)
  ++
  flat_map
    (fun entity =>
       match entity with
       | EAction a =>
           map (fun tool =>
                  {| cr_id := action_id a ++ ":" ++ tool; cr_name := tool;
                     cr_type := "tooling";
                     cr_source := "action:" ++ action_id a |})
               (tools a)
       | _ => []
       end)
    (get_entities_by_type chain is_action).

(** What one record of [find_chokepoints] holds for its node. *)
Definition chokepoint_ok (c : HybridChain) (x : Chokepoint) : Prop :=
  In (cp_node_id x) (nodes (graph c))
  /\ cp_impact x = cp_downstream_count x
  /\ cp_entity_type x = match get_entity c (cp_node_id x) with
                        | Some e => type_name e
                        | None => "NoneType"
                        end
  /\ exists des anc,
       NoDup des /\ NoDup anc
       /\ (forall v, In v des <-> v <> cp_node_id x /\ reachable (graph c) (cp_node_id x) v)
       /\ (forall v, In v anc <-> v <> cp_node_id x /\ reachable (graph c) v (cp_node_id x))
       /\ cp_downstream_count x = length des
       /\ cp_upstream_count x = length anc.

Definition impact_ge (a b : Chokepoint) : Prop := cp_impact b <= cp_impact a.
(** * Properties *)

(** ** Lists and dictionaries *)

Lemma mem_In (k : string) (xs : list string) : mem k xs = true <-> In k xs.
Proof.
  unfold mem. rewrite existsb_exists. split.
  - intros [x [Hin Heq]]. apply String.eqb_eq in Heq. now subst.
  - intros H. exists k. split; auto. apply String.eqb_refl.
Qed.

Lemma mem_notIn (k : string) (xs : list string) : mem k xs = false <-> ~ In k xs.
Proof.
  rewrite <- mem_In. destruct (mem k xs); split; intros; congruence.
Qed.

Lemma nodupb_NoDup (l : list string) : nodupb l = true <-> NoDup l.
Proof.
  induction l as [|x r IH]; simpl.
  - split; auto using NoDup_nil.
  - rewrite andb_true_iff, negb_true_iff, mem_notIn, IH. split.
    + intros [H1 H2]. now constructor.
    + intros H. inversion H; auto.
Qed.

Lemma list_eqb_eq (l1 l2 : list string) : list_eqb l1 l2 = true <-> l1 = l2.
Proof.
  revert l2. induction l1 as [|x r IH]; intros [|y r2]; simpl; try (split; congruence).
  rewrite andb_true_iff, String.eqb_eq, IH. split.
  - intros [-> ->]; reflexivity.
  - intros H; inversion H; auto.
Qed.

Section DictFacts.
Context {V : Type}.
Implicit Types (d : list (string * V)) (k : string) (v : V).

Lemma dict_get_set_eq k v d : dict_get k (dict_set k v d) = Some v.
Proof.
  induction d as [|[k' v'] r IH]; simpl.
  - now rewrite String.eqb_refl.
  - destruct (String.eqb k' k) eqn:E; simpl.
    + now rewrite String.eqb_refl.
    + now rewrite E.
Qed.

Lemma dict_get_set_neq k k' v d :
  k <> k' -> dict_get k' (dict_set k v d) = dict_get k' d.
Proof.
  intros Hne. induction d as [|[k0 v0] r IH]; simpl.
  - apply String.eqb_neq in Hne. now rewrite Hne.
  - destruct (String.eqb k0 k) eqn:E; simpl.
    + apply String.eqb_eq in E. subst k0.
      apply String.eqb_neq in Hne. now rewrite Hne.
    + now rewrite IH.
Qed.

Lemma dict_set_keys_in k v d :
  In k (dict_keys d) -> dict_keys (dict_set k v d) = dict_keys d.
Proof.
  induction d as [|[k0 v0] r IH]; simpl; [tauto|].
  intros H. destruct (String.eqb k0 k) eqn:E; simpl.
  - apply String.eqb_eq in E. now subst.
  - f_equal. apply IH. destruct H as [H|H]; auto.
    apply String.eqb_neq in E. congruence.
Qed.

Lemma dict_set_notin k v d : ~ In k (dict_keys d) -> dict_set k v d = d ++ [(k, v)].
Proof.
  induction d as [|[k0 v0] r IH]; simpl; auto.
  intros H. destruct (String.eqb k0 k) eqn:E.
  - apply String.eqb_eq in E. tauto.
  - f_equal. apply IH. tauto.
Qed.

Lemma dict_get_In k d : In k (dict_keys d) <-> exists v, dict_get k d = Some v.
Proof.
  induction d as [|[k0 v0] r IH]; simpl.
  - split; [tauto | intros [v H]; discriminate].
  - destruct (String.eqb k0 k) eqn:E.
    + apply String.eqb_eq in E. split; eauto.
    + apply String.eqb_neq in E. rewrite <- IH. tauto.
Qed.

Lemma dict_get_None k d : ~ In k (dict_keys d) <-> dict_get k d = None.
Proof.
  rewrite dict_get_In. destruct (dict_get k d); split; intros H; try congruence.
  - exfalso. eauto.
  - intros [v' Hv]. discriminate.
Qed.

Lemma dict_get_Some_In k v d : dict_get k d = Some v -> In (k, v) d.
Proof.
  induction d as [|[k0 v0] r IH]; simpl; [discriminate|].
  destruct (String.eqb k0 k) eqn:E.
  - apply String.eqb_eq in E. intros H; inversion H; subst; auto.
  - auto.
Qed.

Lemma dict_In_get k v d : NoDup (dict_keys d) -> In (k, v) d -> dict_get k d = Some v.
Proof.
  induction d as [|[k0 v0] r IH]; simpl; [tauto|].
  intros Hnd [H|H].
  - inversion H; subst. now rewrite String.eqb_refl.
  - inversion Hnd as [|? ? Hnot Hnd']; subst.
    destruct (String.eqb k0 k) eqn:E.
    + apply String.eqb_eq in E. subst. exfalso. apply Hnot.
      change k with (fst (k, v)). now apply in_map.
    + auto.
Qed.
End DictFacts.

(** ** The graph store *)

Lemma edge_is_true (u v : string) (e : string * string * option EdgeData) :
  edge_is u v e = true <-> fst e = (u, v).
Proof.
  destruct e as [[a b] d]. unfold edge_is; simpl.
  rewrite andb_true_iff, !String.eqb_eq. split.
  - intros [-> ->]; reflexivity.
  - intros H; inversion H; auto.
Qed.

Lemma has_edge_key (u v : string) (es : list (string * string * option EdgeData)) :
  existsb (edge_is u v) es = true <-> In (u, v) (map fst es).
Proof.
  rewrite existsb_exists, in_map_iff. split.
  - intros [e [Hin He]]. apply edge_is_true in He. eauto.
  - intros [e [He Hin]]. exists e. split; auto. now apply edge_is_true.
Qed.

Lemma edges_nodupb_NoDup (es : list (string * string * option EdgeData)) :
  edges_nodupb es = true <-> NoDup (map fst es).
Proof.
  induction es as [|[[a b] d] r IH]; simpl.
  - split; auto using NoDup_nil.
  - rewrite andb_true_iff, negb_true_iff, IH. split.
    + intros [H1 H2]. constructor; auto.
      intros Hin. apply has_edge_key in Hin. congruence.
    + intros H. inversion H as [|? ? Hnot Hnd]; subst. split; auto.
      destruct (existsb (edge_is a b) r) eqn:E; auto.
      apply has_edge_key in E. tauto.
Qed.


Lemma wf_graph_ok (g : DiGraph) : wf_graph g = true <-> graph_ok g.
Proof.
  unfold wf_graph, graph_ok.
  rewrite !andb_true_iff, nodupb_NoDup, edges_nodupb_NoDup, forallb_forall.
  split.
  - intros [[H1 H2] H3]. repeat split; auto; intros.
    + apply (H3 (u, v, d)) in H. apply andb_true_iff in H. apply mem_In, H.
    + apply (H3 (u, v, d)) in H. apply andb_true_iff in H. apply mem_In, H.
  - intros [H1 [H2 H3]]. repeat split; auto.
    intros [[u v] d] Hin. simpl. apply H3 in Hin. unfold has_node.
    apply andb_true_iff. split; apply mem_In; tauto.
Qed.

Lemma nodes_add_node_in (n : string) (a : option NodeData) (g : DiGraph) :
  In n (nodes g) -> nodes (add_node n a g) = nodes g.
Proof.
  intros H. unfold add_node, nodes in *.
  destruct (dict_get n (g_node g)); destruct a; simpl; auto using dict_set_keys_in.
Qed.

Lemma nodes_add_node_notin (n : string) (a : option NodeData) (g : DiGraph) :
  ~ In n (nodes g) -> nodes (add_node n a g) = nodes g ++ [n].
Proof.
  intros H. unfold add_node, nodes in *.
  pose proof (proj1 (dict_get_None n (g_node g)) H) as E. rewrite E.
  simpl. rewrite dict_set_notin by assumption.
  unfold dict_keys. now rewrite map_app.
Qed.

Lemma edges_add_node (n : string) (a : option NodeData) (g : DiGraph) :
  g_edges (add_node n a g) = g_edges g.
Proof.
  unfold add_node. destruct (dict_get n (g_node g)); destruct a; reflexivity.
Qed.

Lemma In_nodes_add_node (n m : string) (a : option NodeData) (g : DiGraph) :
  In m (nodes (add_node n a g)) <-> In m (nodes g) \/ m = n.
Proof.
  destruct (in_dec string_dec n (nodes g)) as [Hin|Hout].
  - rewrite nodes_add_node_in by assumption. split; auto.
    intros [H| ->]; auto.
  - rewrite nodes_add_node_notin by assumption. rewrite in_app_iff. simpl.
    split; intros [H|H]; auto; try tauto. destruct H; auto; tauto.
Qed.

Lemma NoDup_nodes_add_node (n : string) (a : option NodeData) (g : DiGraph) :
  NoDup (nodes g) -> NoDup (nodes (add_node n a g)).
Proof.
  intros H. destruct (in_dec string_dec n (nodes g)) as [Hin|Hout].
  - now rewrite nodes_add_node_in.
  - rewrite nodes_add_node_notin by assumption.
    apply NoDup_app; auto.
    + constructor; auto using NoDup_nil.
    + intros x Hx [<-|[]]. tauto.
Qed.

Lemma edge_set_keys_in (u v : string) (a : option EdgeData)
    (es : list (string * string * option EdgeData)) :
  In (u, v) (map fst es) -> map fst (edge_set u v a es) = map fst es.
Proof.
  induction es as [|e r IH]; simpl; [tauto|].
  intros H. destruct (edge_is u v e) eqn:E; simpl.
  - apply edge_is_true in E. now rewrite E.
  - f_equal. apply IH. destruct H as [H|H]; auto.
    apply edge_is_true in H. congruence.
Qed.

Lemma edge_set_notin (u v : string) (a : option EdgeData)
    (es : list (string * string * option EdgeData)) :
  ~ In (u, v) (map fst es) -> edge_set u v a es = es ++ [(u, v, a)].
Proof.
  induction es as [|e r IH]; simpl; auto.
  intros H. destruct (edge_is u v e) eqn:E.
  - apply edge_is_true in E. tauto.
  - f_equal. apply IH. tauto.
Qed.

Lemma edge_set_In_same (u v : string) (d : EdgeData)
    (es : list (string * string * option EdgeData)) :
  In (u, v, Some d) (edge_set u v (Some d) es).
Proof.
  induction es as [|e r IH]; simpl; auto.
  destruct (edge_is u v e); simpl; auto.
Qed.

Lemma edge_set_In_other (u v u' v' : string) (a d : option EdgeData)
    (es : list (string * string * option EdgeData)) :
  (u', v') <> (u, v) ->
  (In (u', v', d) (edge_set u v a es) <-> In (u', v', d) es).
Proof.
  intros Hne. induction es as [|e r IH]; simpl.
  - split; [intros [H|[]] | tauto]. inversion H; subst. congruence.
  - destruct (edge_is u v e) eqn:E; simpl.
    + apply edge_is_true in E. split; intros [H|H]; auto.
      * inversion H; subst. congruence.
      * subst e. simpl in E. congruence.
    + rewrite IH. tauto.
Qed.

Lemma edge_set_key_In (u v : string) (a : option EdgeData) (k : string * string)
    (es : list (string * string * option EdgeData)) :
  In k (map fst (edge_set u v a es)) <-> In k (map fst es) \/ k = (u, v).
Proof.
  destruct (in_dec (fun x y : string * string =>
     ltac:(decide equality; apply string_dec) : {x = y} + {x <> y}) (u, v) (map fst es))
    as [Hin|Hout].
  - rewrite edge_set_keys_in by assumption. split; auto. intros [H| ->]; auto.
  - rewrite edge_set_notin by assumption. rewrite map_app, in_app_iff. simpl.
    split; intros [H|H]; auto; try tauto. destruct H; auto; tauto.
Qed.

Lemma edge_set_NoDup (u v : string) (a : option EdgeData)
    (es : list (string * string * option EdgeData)) :
  NoDup (map fst es) -> NoDup (map fst (edge_set u v a es)).
Proof.
  intros H.
  destruct (in_dec (fun x y : string * string =>
     ltac:(decide equality; apply string_dec) : {x = y} + {x <> y}) (u, v) (map fst es))
    as [Hin|Hout].
  - now rewrite edge_set_keys_in.
  - rewrite edge_set_notin by assumption. rewrite map_app. simpl.
    apply NoDup_app; auto.
    + constructor; auto using NoDup_nil.
    + intros x Hx [<-|[]]. tauto.
Qed.

Lemma edge_set_In_inv (u v u' v' : string) (a d : option EdgeData)
    (es : list (string * string * option EdgeData)) :
  In (u', v', d) (edge_set u v a es) ->
  (u', v') = (u, v) \/ In (u', v', d) es.
Proof.
  intros H.
  destruct (string_dec u' u) as [->|Hu]; [destruct (string_dec v' v) as [->|Hv]|]; auto;
    right; eapply edge_set_In_other; eauto; congruence.
Qed.

Lemma graph_ok_add_node (n : string) (a : option NodeData) (g : DiGraph) :
  graph_ok g -> graph_ok (add_node n a g).
Proof.
  intros [H1 [H2 H3]]. split; [|split].
  - now apply NoDup_nodes_add_node.
  - now rewrite edges_add_node.
  - intros x y d H. rewrite edges_add_node in H. destruct (H3 _ _ _ H).
    split; apply In_nodes_add_node; now left.
Qed.

Lemma nodes_add_edge (u v : string) (a : option EdgeData) (g : DiGraph) :
  nodes (add_edge u v a g) = nodes (add_node v None (add_node u None g)).
Proof. reflexivity. Qed.

Lemma edges_add_edge (u v : string) (a : option EdgeData) (g : DiGraph) :
  g_edges (add_edge u v a g) = edge_set u v a (g_edges g).
Proof. unfold add_edge. simpl. now rewrite !edges_add_node. Qed.

Lemma graph_ok_add_edge (u v : string) (a : option EdgeData) (g : DiGraph) :
  graph_ok g -> graph_ok (add_edge u v a g).
Proof.
  intros Hg.
  pose proof (graph_ok_add_node v None _ (graph_ok_add_node u None _ Hg)) as [H1 [H2 H3]].
  rewrite !edges_add_node in *.
  split; [|split].
  - now rewrite nodes_add_edge.
  - rewrite edges_add_edge. now apply edge_set_NoDup.
  - intros x y d H. rewrite nodes_add_edge. rewrite edges_add_edge in H.
    apply edge_set_In_inv in H. destruct H as [H|H].
    + inversion H; subst. split.
      * apply In_nodes_add_node. left. apply In_nodes_add_node. now right.
      * apply In_nodes_add_node. now right.
    + exact (H3 _ _ _ H).
Qed.

Lemma In_succ_items (g : DiGraph) (u v : string) (d : option EdgeData) :
  In (v, d) (succ_items g u) <-> In (u, v, d) (g_edges g).
Proof.
  unfold succ_items. rewrite in_map_iff. split.
  - intros [[[a b] d'] [Heq Hin]]. apply filter_In in Hin. simpl in *.
    destruct Hin as [Hin Ha]. apply String.eqb_eq in Ha. inversion Heq; subst. auto.
  - intros H. exists (u, v, d). split; auto. apply filter_In. split; auto.
    simpl. apply String.eqb_refl.
Qed.

Lemma In_successors (g : DiGraph) (u v : string) :
  In v (successors g u) <-> edge g u v.
Proof.
  unfold successors, edge. rewrite in_map_iff. split.
  - intros [[v' d] [Heq Hin]]. simpl in Heq. subst. exists d. now apply In_succ_items.
  - intros [d H]. exists (v, d). split; auto. now apply In_succ_items.
Qed.

Lemma In_predecessors (g : DiGraph) (u v : string) :
  In u (predecessors g v) <-> edge g u v.
Proof.
  unfold predecessors, edge. rewrite in_map_iff. split.
  - intros [[[a b] d] [Heq Hin]]. apply filter_In in Hin. simpl in *.
    destruct Hin as [Hin Hb]. apply String.eqb_eq in Hb. subst. eauto.
  - intros [d H]. exists (u, v, d). split; auto. apply filter_In. split; auto.
    simpl. apply String.eqb_refl.
Qed.

Lemma In_edges_data (g : DiGraph) (u v : string) (d : option EdgeData) :
  In (u, v, d) (edges_data g) <-> In u (nodes g) /\ In (u, v, d) (g_edges g).
Proof.
  unfold edges_data. rewrite in_flat_map. split.
  - intros [x [Hx Hin]]. apply in_map_iff in Hin. destruct Hin as [[v' d'] [Heq Hin]].
    simpl in Heq. inversion Heq; subst. split; auto. now apply In_succ_items.
  - intros [Hu Hin]. exists u. split; auto. apply in_map_iff.
    exists (v, d). split; auto. now apply In_succ_items.
Qed.

(** ** The chain invariant *)


Lemma wf_chain_ok (c : HybridChain) : wf_chain c = true <-> chain_ok c.
Proof.
  unfold wf_chain, chain_ok.
  rewrite !andb_true_iff, wf_graph_ok, list_eqb_eq, forallb_forall. split.
  - intros [[H1 H2] H3]. split; [|split]; auto.
    intros k e Hin. apply H3 in Hin. now apply String.eqb_eq in Hin.
  - intros [H1 [H2 H3]]. split; [split|]; auto.
    intros [k e] Hin. simpl. apply String.eqb_eq. auto.
Qed.

Lemma dict_set_In_inv {V : Type} (k k0 : string) (v v0 : V) (d : list (string * V)) :
  In (k, v) (dict_set k0 v0 d) -> (k, v) = (k0, v0) \/ In (k, v) d.
Proof.
  induction d as [|[k1 v1] r IH]; simpl.
  - intros [H|[]]; auto.
  - destruct (String.eqb k1 k0); simpl; intros [H|H]; auto.
    apply IH in H. tauto.
Qed.

Lemma dict_keys_set {V : Type} (k : string) (v : V) (d : list (string * V)) :
  dict_keys (dict_set k v d)
  = if mem k (dict_keys d) then dict_keys d else dict_keys d ++ [k].
Proof.
  destruct (mem k (dict_keys d)) eqn:E.
  - apply dict_set_keys_in. now apply mem_In.
  - rewrite dict_set_notin by now apply mem_notIn.
    unfold dict_keys. now rewrite map_app.
Qed.

Lemma nodes_add_node (n : string) (a : option NodeData) (g : DiGraph) :
  nodes (add_node n a g) = if mem n (nodes g) then nodes g else nodes g ++ [n].
Proof.
  destruct (mem n (nodes g)) eqn:E.
  - apply nodes_add_node_in. now apply mem_In.
  - apply nodes_add_node_notin. now apply mem_notIn.
Qed.

Lemma chain_ok_new (cid nm descr : string) : chain_ok (new_chain cid nm descr).
Proof.
  unfold chain_ok, graph_ok; simpl.
  split; [split; [|split]|split]; auto using NoDup_nil; intros; tauto.
Qed.

Lemma chain_ok_add_entity (e : Entity) (c : HybridChain) :
  chain_ok c -> chain_ok (snd (add_entity e c)).
Proof.
  intros [H1 [H2 H3]]. unfold chain_ok; simpl. split; [|split].
  - now apply graph_ok_add_node.
  - rewrite nodes_add_node, dict_keys_set, H2. reflexivity.
  - intros k e' Hin. apply dict_set_In_inv in Hin. destruct Hin as [Hin|Hin]; auto.
    now inversion Hin.
Qed.

Lemma chain_ok_add_relationship (r : Relationship) (c : HybridChain) :
  chain_ok c -> chain_ok (snd (add_relationship r c)).
Proof.
  intros Hc. unfold add_relationship.
  destruct (mem (source_id r) (dict_keys (_entities c))) eqn:Es; simpl; auto.
  destruct (mem (target_id r) (dict_keys (_entities c))) eqn:Et; simpl; auto.
  destruct Hc as [H1 [H2 H3]]. unfold chain_ok; simpl. split; [|split]; auto.
  - now apply graph_ok_add_edge.
  - rewrite nodes_add_edge, <- H2.
    apply mem_In in Es, Et. rewrite <- H2 in Es, Et.
    rewrite nodes_add_node_in; rewrite nodes_add_node_in; auto.
Qed.

Lemma constructed_ok (c : HybridChain) : constructed c -> chain_ok c.
Proof.
  induction 1; auto using chain_ok_new, chain_ok_add_entity, chain_ok_add_relationship.
Qed.

(** Every chain built through the API satisfies the executable invariant. *)
Lemma constructed_wf (c : HybridChain) : constructed c -> wf_chain c = true.
Proof. intros H. now apply wf_chain_ok, constructed_ok. Qed.

Lemma wf_simple_chain : wf_chain simple_chain = true.
Proof. vm_compute. reflexivity. Qed.

(** ** add_relationship and add_entity *)


(** C4. [add_relationship rel] raises (a [ValueError], the reference error of
    this code) exactly when the source id or the target id of [rel] is not a
    key of the chain's entities, and then leaves the chain as it was;
    otherwise it returns normally, keeps the entities and every other edge,
    and the edge [source -> target] carries the edge type, the optional
    resource id and the description of [rel]. *)
Theorem add_relationship_spec (c : HybridChain) (rel : Relationship) :
  wf_chain c = true ->
  let r := fst (add_relationship rel c) in
  let c' := snd (add_relationship rel c) in
  ((exists msg, r = Raise (ValueError msg)) <->
     (~ In (source_id rel) (dict_keys (entities c))
      \/ ~ In (target_id rel) (dict_keys (entities c))))
  /\ (r = Ok tt \/ exists msg, r = Raise (ValueError msg))
  /\ (forall e, r = Raise e -> c' = c)
  /\ (r = Ok tt ->
        entities c' = entities c
        /\ In (source_id rel, target_id rel, Some (edge_data_of rel)) (relationships c')
        /\ (forall u v d, (u, v) <> (source_id rel, target_id rel) ->
              (In (u, v, d) (relationships c') <-> In (u, v, d) (relationships c)))
        /\ wf_chain c' = true).
Proof.
  intros Hwf. pose proof (proj1 (wf_chain_ok c) Hwf) as Hok.
  pose proof (chain_ok_add_relationship rel c Hok) as Hok'.
  apply wf_chain_ok in Hok'.
  destruct Hok as [Hg [Hn He]].
  unfold add_relationship in *. unfold entities.
  destruct (mem (source_id rel) (dict_keys (_entities c))) eqn:Es; simpl in *.
  2:{ apply mem_notIn in Es. repeat split; eauto; discriminate. }
  destruct (mem (target_id rel) (dict_keys (_entities c))) eqn:Et; simpl in *.
  2:{ apply mem_notIn in Et. repeat split; eauto; discriminate. }
  apply mem_In in Es, Et.
  assert (Hnodes : nodes (add_edge (source_id rel) (target_id rel)
                            (Some (edge_data_of rel)) (graph c)) = nodes (graph c)).
  { rewrite nodes_add_edge. rewrite <- Hn in Es, Et.
    rewrite nodes_add_node_in; rewrite nodes_add_node_in; auto. }
  split; [|split; [|split]].
  - split.
    + intros [m Hm]; discriminate.
    + tauto.
  - now left.
  - discriminate.
  - intros _. split; [reflexivity|]. split; [|split]; auto.
    + unfold relationships; simpl. apply In_edges_data. fold (edge_data_of rel).
      rewrite Hnodes, edges_add_edge. split.
      * now rewrite Hn.
      * apply edge_set_In_same.
    + intros u v d Hne. unfold relationships; simpl. fold (edge_data_of rel).
      rewrite !In_edges_data, Hnodes, edges_add_edge.
      rewrite edge_set_In_other by assumption. tauto.
Qed.

Lemma add_relationship_spec_witness :
  wf_chain simple_chain = true
  /\ snd (add_relationship (mk_rel "a1" "nonexistent" DEPENDENCY) simple_chain)
     = simple_chain
  /\ In ("a1", "t1", Some (edge_data_of (mk_rel "a1" "t1" ENABLES)))
        (relationships (snd (add_relationship (mk_rel "a1" "t1" ENABLES) simple_chain))).
Proof.
  split; [vm_compute; reflexivity|]. split.
  - destruct (add_relationship_spec simple_chain
                (mk_rel "a1" "nonexistent" DEPENDENCY)) as (_ & _ & H & _).
    + vm_compute; reflexivity.
    + apply (H (ValueError "Target entity 'nonexistent' not in chain")).
      vm_compute. reflexivity.
  - destruct (add_relationship_spec simple_chain (mk_rel "a1" "t1" ENABLES))
      as (_ & _ & _ & H).
    + vm_compute; reflexivity.
    + destruct H as (_ & H & _); [vm_compute; reflexivity | exact H].
Defined.

(** C10. [add_entity] under an id already in use returns normally and
    stores the new entity under that id; the entity stored under every
    other id, the order of the ids and the whole list of relationships
    (edges touching the overwritten id included) are unchanged. *)
Theorem add_entity_overwrite (c : HybridChain) (e : Entity) :
  wf_chain c = true ->
  In (entity_id e) (dict_keys (entities c)) ->
  let c' := snd (add_entity e c) in
  fst (add_entity e c) = Ok tt
  /\ get_entity c' (entity_id e) = Some e
  /\ (forall k, k <> entity_id e -> get_entity c' k = get_entity c k)
  /\ dict_keys (entities c') = dict_keys (entities c)
  /\ relationships c' = relationships c
  /\ wf_chain c' = true.
Proof.
  intros Hwf Hin. pose proof (proj1 (wf_chain_ok c) Hwf) as Hok.
  pose proof (chain_ok_add_entity e c Hok) as Hok'. apply wf_chain_ok in Hok'.
  destruct Hok as [Hg [Hn He]]. unfold entities in *. simpl.
  split; [reflexivity|]. split; [|split; [|split; [|split]]]; auto.
  - unfold get_entity; simpl. apply dict_get_set_eq.
  - intros k Hk. unfold get_entity; simpl. apply dict_get_set_neq. congruence.
  - now apply dict_set_keys_in.
  - unfold relationships, edges_data, succ_items; simpl.
    rewrite nodes_add_node_in by now rewrite Hn.
    now rewrite edges_add_node.
Qed.

Lemma add_entity_overwrite_witness :
  wf_chain simple_chain = true
  /\ In "act2" (dict_keys (entities simple_chain))
  /\ relationships (snd (add_entity (mk_actor "act2" "Impostor" PROXY) simple_chain))
     = relationships simple_chain.
Proof.
  split; [vm_compute; reflexivity|]. split.
  - vm_compute. tauto.
  - destruct (add_entity_overwrite simple_chain (mk_actor "act2" "Impostor" PROXY))
      as (_ & _ & _ & _ & H & _).
    + vm_compute; reflexivity.
    + vm_compute. tauto.
    + exact H.
Defined.

(** ** Lists without repetition *)

Lemma repeated_or_NoDup (l : list string) :
  NoDup l \/ exists x l1 l2 l3, l = l1 ++ x :: l2 ++ x :: l3.
Proof.
  induction l as [|a r IH].
  - left; constructor.
  - destruct (in_dec string_dec a r) as [Hin|Hout].
    + right. apply in_split in Hin. destruct Hin as [l2 [l3 ->]].
      exists a, [], l2, l3. reflexivity.
    + destruct IH as [IH|[x [l1 [l2 [l3 ->]]]]].
      * left. now constructor.
      * right. exists x, (a :: l1), l2, l3. reflexivity.
Qed.

Lemma pigeonhole (l d : list string) :
  incl l d -> length d < length l -> exists x l1 l2 l3, l = l1 ++ x :: l2 ++ x :: l3.
Proof.
  intros Hincl Hlen. destruct (repeated_or_NoDup l) as [Hnd|H]; auto.
  pose proof (NoDup_incl_length Hnd Hincl). lia.
Qed.

Lemma NoDup_split_unique (x : string) (l1 l2 m1 m2 : list string) :
  NoDup (l1 ++ x :: l2) -> l1 ++ x :: l2 = m1 ++ x :: m2 -> l1 = m1 /\ l2 = m2.
Proof.
  revert m1. induction l1 as [|a l1 IH]; intros m1 Hnd Heq.
  - destruct m1 as [|b m1]; simpl in *.
    + inversion Heq; auto.
    + inversion Heq; subst. inversion Hnd as [|? ? Hnot _]; subst.
      exfalso. apply Hnot. apply in_or_app. right. now left.
  - destruct m1 as [|b m1]; simpl in *.
    + inversion Heq; subst. inversion Hnd as [|? ? Hnot _]; subst.
      exfalso. apply Hnot. apply in_or_app. right. now left.
    + inversion Heq; subst. inversion Hnd; subst.
      destruct (IH m1) as [-> ->]; auto.
Qed.

Lemma before_trans (l : list string) (a b c : string) :
  NoDup l -> before l a b -> before l b c -> before l a c.
Proof.
  intros Hnd [l1 [l2 [l3 H1]]] [m1 [m2 [m3 H2]]].
  assert (E : (l1 ++ a :: l2) ++ b :: l3 = m1 ++ b :: m2 ++ c :: m3).
  { rewrite <- H2, H1, <- app_assoc. reflexivity. }
  apply NoDup_split_unique in E.
  - destruct E as [E1 E2]. exists l1, (l2 ++ b :: m2), m3.
    rewrite H1, E2, <- app_assoc. reflexivity.
  - rewrite <- app_assoc. simpl. now rewrite <- H1.
Qed.

Lemma before_irrefl (l : list string) (a : string) : NoDup l -> ~ before l a a.
Proof.
  intros Hnd [l1 [l2 [l3 H]]]. subst l.
  apply NoDup_remove_2 in Hnd. apply Hnd.
  apply in_or_app. right. apply in_or_app. right. now left.
Qed.

Lemma before_app_r (l m : list string) (a b : string) :
  before l a b -> before (l ++ m) a b.
Proof.
  intros [l1 [l2 [l3 ->]]]. exists l1, l2, (l3 ++ m).
  rewrite <- !app_assoc. simpl. now rewrite <- app_assoc.
Qed.

Lemma before_app_mid (l m : list string) (a b : string) :
  In a l -> In b m -> before (l ++ m) a b.
Proof.
  intros Ha Hb. apply in_split in Ha, Hb.
  destruct Ha as [l1 [l2 ->]]. destruct Hb as [m1 [m2 ->]].
  exists l1, (l2 ++ m1), m2. rewrite <- !app_assoc. reflexivity.
Qed.

Lemma before_In (l : list string) (a b : string) : before l a b -> In a l /\ In b l.
Proof.
  intros [l1 [l2 [l3 ->]]]. split.
  - apply in_or_app. right. now left.
  - apply in_or_app. right. right. apply in_or_app. right. now left.
Qed.

Section DictDelete.
Context {V : Type}.
Implicit Types (d : list (string * V)) (k : string) (v : V).

Lemma dict_del_keys_incl k d : incl (dict_keys (dict_del k d)) (dict_keys d).
Proof.
  induction d as [|[k0 v0] r IH]; simpl; [apply incl_refl|].
  destruct (String.eqb k0 k); simpl.
  - apply incl_tl, incl_refl.
  - intros x [Hx|Hx]; [now left | right; now apply IH].
Qed.

Lemma dict_del_NoDup k d : NoDup (dict_keys d) -> NoDup (dict_keys (dict_del k d)).
Proof.
  induction d as [|[k0 v0] r IH]; simpl; auto.
  intros H. inversion H as [|? ? Hnot Hnd]; subst.
  destruct (String.eqb k0 k); simpl; auto.
  constructor; auto. intros Hin. apply Hnot. now apply (dict_del_keys_incl k r).
Qed.

Lemma dict_get_del_eq k d : NoDup (dict_keys d) -> dict_get k (dict_del k d) = None.
Proof.
  induction d as [|[k0 v0] r IH]; simpl; auto.
  intros H. inversion H as [|? ? Hnot Hnd]; subst.
  destruct (String.eqb k0 k) eqn:E; simpl.
  - apply String.eqb_eq in E. subst. now apply dict_get_None.
  - rewrite E. auto.
Qed.

Lemma dict_get_del_neq k k' d : k <> k' -> dict_get k' (dict_del k d) = dict_get k' d.
Proof.
  intros Hne. induction d as [|[k0 v0] r IH]; simpl; auto.
  destruct (String.eqb k0 k) eqn:E; simpl.
  - apply String.eqb_eq in E. subst. apply String.eqb_neq in Hne. now rewrite Hne.
  - now rewrite IH.
Qed.

Lemma dict_set_NoDup k v d : NoDup (dict_keys d) -> NoDup (dict_keys (dict_set k v d)).
Proof.
  intros H. rewrite dict_keys_set. destruct (mem k (dict_keys d)) eqn:E; auto.
  apply mem_notIn in E. apply NoDup_app; auto.
  - constructor; auto using NoDup_nil.
  - intros x Hx [<-|[]]. tauto.
Qed.

Lemma dict_nil_get d : (forall k, dict_get k d = None) -> d = [].
Proof.
  destruct d as [|[k v] r]; auto. intros H. specialize (H k). simpl in H.
  now rewrite String.eqb_refl in H.
Qed.
End DictDelete.

Lemma filter_remove_one (f : string -> bool) (u : string) (l : list string) :
  NoDup l ->
  length (filter (fun x => f x && negb (String.eqb x u)) l)
  = length (filter f l) - (if mem u l && f u then 1 else 0).
Proof.
  induction l as [|a r IH]; simpl; auto.
  intros H. inversion H as [|? ? Hnot Hnd]; subst. specialize (IH Hnd).
  destruct (String.eqb u a) eqn:Eua.
  - apply String.eqb_eq in Eua. subst a. rewrite String.eqb_refl. simpl.
    apply mem_notIn in Hnot. rewrite Hnot in IH. simpl in IH.
    rewrite andb_false_r. simpl. destruct (f u); simpl; lia.
  - rewrite String.eqb_sym in Eua. rewrite Eua. simpl.
    rewrite andb_true_r. destruct (f a); simpl; [|exact IH].
    rewrite IH. destruct (mem u r && f u) eqn:E; [|lia].
    apply andb_true_iff in E. destruct E as [E1 E2]. apply mem_In in E1.
    assert (0 < length (filter f r)); [|lia].
    assert (In u (filter f r)) as Hin by (apply filter_In; auto).
    destruct (filter f r); simpl in *; [tauto | lia].
Qed.

Lemma mem_app (k : string) (l1 l2 : list string) : mem k (l1 ++ l2) = mem k l1 || mem k l2.
Proof. unfold mem. apply existsb_app. Qed.

(** ** Degrees and the counter [need] *)

Section Degrees.
Variable g : DiGraph.
Hypothesis Hg : graph_ok g.

Lemma NoDup_successors (u : string) : NoDup (successors g u).
Proof.
  destruct Hg as [_ [Hnd _]]. unfold successors, succ_items.
  rewrite map_map. simpl.
  induction (g_edges g) as [|[[a b] d] r IH]; simpl; [constructor|].
  inversion Hnd as [|? ? Hnot Hnd']; subst.
  destruct (String.eqb a u) eqn:E; simpl; auto.
  apply String.eqb_eq in E. subst. constructor; auto.
  intros Hin. apply in_map_iff in Hin. destruct Hin as [[[a' b'] d'] [Heq Hin]].
  apply filter_In in Hin. simpl in *. destruct Hin as [Hin Ha].
  apply String.eqb_eq in Ha. apply Hnot.
  apply (in_map fst) in Hin. simpl in Hin. rewrite Ha, Heq in Hin. exact Hin.
Qed.

Lemma NoDup_predecessors (v : string) : NoDup (predecessors g v).
Proof.
  destruct Hg as [_ [Hnd _]]. unfold predecessors.
  induction (g_edges g) as [|[[a b] d] r IH]; simpl; [constructor|].
  inversion Hnd as [|? ? Hnot Hnd']; subst.
  destruct (String.eqb b v) eqn:E; simpl; auto.
  apply String.eqb_eq in E. subst. constructor; auto.
  intros Hin. apply in_map_iff in Hin. destruct Hin as [[[a' b'] d'] [Heq Hin]].
  apply filter_In in Hin. simpl in *. destruct Hin as [Hin Hb].
  apply String.eqb_eq in Hb. apply Hnot.
  apply (in_map fst) in Hin. simpl in Hin. rewrite Hb, Heq in Hin. exact Hin.
Qed.

Lemma edge_nodes (u v : string) : edge g u v -> In u (nodes g) /\ In v (nodes g).
Proof. intros [d H]. destruct Hg as [_ [_ H3]]. eauto. Qed.

Lemma mem_succ_pred (u v : string) :
  mem v (successors g u) = mem u (predecessors g v).
Proof.
  destruct (mem u (predecessors g v)) eqn:E.
  - apply mem_In, In_successors. apply mem_In, In_predecessors in E. exact E.
  - apply mem_notIn. apply mem_notIn in E. now rewrite In_successors, <- In_predecessors.
Qed.

Lemma need_zero (P : list string) (v : string) :
  need g P v = 0 <-> forall u, edge g u v -> In u P.
Proof.
  unfold need. rewrite length_zero_iff_nil. split.
  - intros H u Hu. apply In_predecessors in Hu.
    destruct (mem u P) eqn:E; [now apply mem_In|].
    assert (In u (filter (fun u => negb (mem u P)) (predecessors g v))) as Hin.
    { apply filter_In. rewrite E. auto. }
    rewrite H in Hin. destruct Hin.
  - intros H. destruct (filter _ _) as [|x r] eqn:E; auto.
    assert (In x (x :: r)) as Hin by now left. rewrite <- E in Hin.
    apply filter_In in Hin. destruct Hin as [Hin Hm].
    apply In_predecessors, H, mem_In in Hin. rewrite Hin in Hm. discriminate.
Qed.

Lemma need_nil (v : string) : need g [] v = in_degree g v.
Proof.
  unfold need, in_degree. simpl. f_equal.
  induction (predecessors g v); simpl; congruence.
Qed.

Lemma need_step (P : list string) (u v : string) :
  ~ In u P ->
  need g (P ++ [u]) v = need g P v - (if mem v (successors g u) then 1 else 0).
Proof.
  intros Hu. unfold need.
  rewrite (filter_ext (fun x => negb (mem x (P ++ [u])))
                      (fun x => negb (mem x P) && negb (String.eqb x u))).
  - rewrite filter_remove_one by apply NoDup_predecessors.
    rewrite mem_succ_pred. apply mem_notIn in Hu. rewrite Hu. simpl.
    now rewrite andb_true_r.
  - intros x. rewrite mem_app. simpl. rewrite orb_false_r. apply negb_orb.
Qed.

Lemma need_pos (P : list string) (u v : string) :
  edge g u v -> ~ In u P -> 0 < need g P v.
Proof.
  intros He Hu. destruct (need g P v) eqn:E; [|lia].
  exfalso. apply Hu. eapply need_zero; eauto.
Qed.
End Degrees.

(** ** Kahn's algorithm *)

Lemma mem_cons (v c : string) (r : list string) :
  mem v (c :: r) = String.eqb v c || mem v r.
Proof. reflexivity. Qed.

Lemma topo_children_spec (cs : list string) :
  forall im z,
    NoDup cs -> NoDup (dict_keys im) ->
    (forall c, In c cs -> exists d, dict_get c im = Some d) ->
    exists im',
      fold_left topo_child cs (Ok (im, z))
      = Ok (im', z ++ filter (fun c => match dict_get c im with
                                       | Some d => d - 1 =? 0
                                       | None => false
                                       end) cs)
      /\ NoDup (dict_keys im')
      /\ forall v, dict_get v im' = dec_get im cs v.
Proof.
  induction cs as [|c r IH]; intros im z Hnd Him Hget.
  - exists im. simpl. rewrite app_nil_r. repeat split; auto.
    intros v. unfold dec_get. now destruct (dict_get v im).
  - inversion Hnd as [|? ? Hnot Hnd']; subst.
    destruct (Hget c (or_introl eq_refl)) as [d Hd].
    cbn [fold_left filter]. unfold topo_child at 2. cbn [bind fst snd]. rewrite Hd.
    destruct (d - 1 =? 0) eqn:E.
    + destruct (IH (dict_del c im) (z ++ [c])) as [im' [H1 [H2 H3]]];
        auto using dict_del_NoDup.
      { intros c' Hc'. rewrite dict_get_del_neq; [apply Hget; now right|].
        intros ->; tauto. }
      exists im'. split; [|split]; auto.
      * rewrite H1, <- app_assoc. simpl. do 4 f_equal.
        apply filter_ext_in. intros c' Hc'. rewrite dict_get_del_neq; auto.
        intros ->; tauto.
      * intros v. rewrite H3. unfold dec_get. rewrite mem_cons.
        destruct (String.eqb_spec v c) as [->|Hne].
        -- rewrite dict_get_del_eq, Hd by assumption. simpl. now rewrite E.
        -- rewrite dict_get_del_neq by congruence. reflexivity.
    + destruct (IH (dict_set c (d - 1) im) z) as [im' [H1 [H2 H3]]];
        auto using dict_set_NoDup.
      { intros c' Hc'. rewrite dict_get_set_neq; [apply Hget; now right|].
        intros ->; tauto. }
      exists im'. split; [|split]; auto.
      * rewrite H1. do 3 f_equal.
        apply filter_ext_in. intros c' Hc'. rewrite dict_get_set_neq; auto.
        intros ->; tauto.
      * intros v. rewrite H3. unfold dec_get. rewrite mem_cons.
        destruct (String.eqb_spec v c) as [->|Hne].
        -- rewrite dict_get_set_eq, Hd. simpl. rewrite E.
           apply mem_notIn in Hnot. now rewrite Hnot.
        -- rewrite dict_get_set_neq by congruence. reflexivity.
Qed.

Section Kahn.
Variable g : DiGraph.
Hypothesis Hg : graph_ok g.

Lemma topo_node_spec (P : list string) (u : string) (todo z : list string)
    (im : list (string * nat)) :
  topo_inv g P (u :: todo) z im ->
  exists im' z',
    topo_node g (Ok (im, z)) u = Ok (im', z')
    /\ topo_inv g (P ++ [u]) todo z' im'.
Proof.
  intros (N1 & N2 & N3 & N4 & N5 & N6).
  assert (HuS : In u (P ++ (u :: todo) ++ z)).
  { apply in_or_app. right. now left. }
  assert (HuP : ~ In u P).
  { intros Hin. apply NoDup_remove_2 in N1. apply N1. apply in_or_app. now left. }
  assert (Hcs : forall c, In c (successors g u) ->
                  0 < need g P c /\ dict_get c im = Some (need g P c)).
  { intros c Hc. apply In_successors in Hc.
    pose proof (need_pos g P u c Hc HuP) as Hp. split; auto.
    rewrite N4. destruct (need g P c =? 0) eqn:E; auto.
    apply Nat.eqb_eq in E. lia. }
  destruct (topo_children_spec (successors g u) im z) as [im' [H1 [H2 H3]]]; auto.
  { now apply NoDup_successors. }
  { intros c Hc. exists (need g P c). now apply Hcs. }
  set (newz := filter _ (successors g u)) in H1.
  exists im', (z ++ newz). split.
  { unfold topo_node. cbn [bind]. unfold has_node.
    apply N2, mem_In in HuS. rewrite HuS. simpl. exact H1. }
  assert (HA : forall c, In c newz <-> In c (successors g u) /\ need g P c = 1).
  { intros c. unfold newz. rewrite filter_In. split.
    - intros [Hc Hd]. split; auto. destruct (Hcs c Hc) as [Hp Hget].
      rewrite Hget in Hd. apply Nat.eqb_eq in Hd. lia.
    - intros [Hc Hn]. split; auto. destruct (Hcs c Hc) as [Hp Hget].
      rewrite Hget, Hn. reflexivity. }
  assert (HB : forall v, need g (P ++ [u]) v
                         = need g P v - (if mem v (successors g u) then 1 else 0)).
  { intros v. now apply need_step. }
  assert (ES : (P ++ [u]) ++ todo ++ z ++ newz = (P ++ (u :: todo) ++ z) ++ newz).
  { rewrite <- !app_assoc. reflexivity. }
  unfold topo_inv. rewrite ES.
  assert (Hnz : forall c, In c newz -> In c (nodes g)).
  { intros c Hc. apply HA in Hc. destruct Hc as [Hc _].
    apply In_successors in Hc. now apply (edge_nodes g Hg u c). }
  split; [|split; [|split; [|split; [|split]]]]; auto.
  - apply NoDup_app; auto.
    + unfold newz. apply NoDup_filter. now apply NoDup_successors.
    + intros c HcS Hc. pose proof (Hnz c Hc) as Hn. apply HA in Hc.
      apply (N5 c Hn) in HcS. lia.
  - apply incl_app; auto.
  - intros v. rewrite H3, HB. unfold dec_get. rewrite N4.
    destruct (mem v (successors g u)) eqn:Ev.
    + apply mem_In in Ev. destruct (Hcs v Ev) as [Hp _].
      destruct (need g P v =? 0) eqn:E; [apply Nat.eqb_eq in E; lia|].
      reflexivity.
    + rewrite Nat.sub_0_r. now destruct (need g P v =? 0).
  - intros v Hv. rewrite in_app_iff, HA, HB, (N5 v Hv).
    destruct (mem v (successors g u)) eqn:Ev.
    + apply mem_In in Ev. destruct (Hcs v Ev) as [Hp _]. split.
      * intros [H|[_ H]]; lia.
      * intros H. right. split; auto. lia.
    + apply mem_notIn in Ev. rewrite Nat.sub_0_r. split; [|tauto].
      intros [H|[H _]]; tauto.
  - intros a v Hav Hv. apply in_app_or in Hv. destruct Hv as [Hv|Hv].
    + apply before_app_r. now apply N6.
    + apply before_app_mid; auto.
      assert (need g (P ++ [u]) v = 0) as Hz.
      { rewrite HB. apply HA in Hv. destruct Hv as [Hc Hn].
        apply mem_In in Hc. rewrite Hc. lia. }
      pose proof (proj1 (need_zero g (P ++ [u]) v) Hz a Hav) as Ha.
      apply in_app_or in Ha. destruct Ha as [Ha|[<-|[]]]; auto.
      apply in_or_app. now left.
Qed.

Lemma topo_generation_spec (todo : list string) :
  forall P z im,
    topo_inv g P todo z im ->
    exists im' z',
      fold_left (topo_node g) todo (Ok (im, z)) = Ok (im', z')
      /\ topo_inv g (P ++ todo) [] z' im'.
Proof.
  induction todo as [|u todo IH]; intros P z im Hinv.
  - exists im, z. rewrite app_nil_r. auto.
  - destruct (topo_node_spec P u todo z im Hinv) as [im1 [z1 [H1 Hinv1]]].
    destruct (IH _ _ _ Hinv1) as [im2 [z2 [H2 Hinv2]]].
    exists im2, z2. split.
    + cbn [fold_left]. rewrite H1. exact H2.
    + rewrite <- app_assoc in Hinv2. exact Hinv2.
Qed.
End Kahn.

(** ** Cycles *)

Lemma chain_of_app_r (R : string -> string -> Prop) (l1 l2 : list string) :
  chain_of R (l1 ++ l2) -> chain_of R l2.
Proof.
  induction l1 as [|a l1 IH]; simpl; auto.
  intros H. apply IH. destruct (l1 ++ l2); [exact I | tauto].
Qed.

Lemma chain_of_trans (R : string -> string -> Prop) (l2 l3 : list string) :
  forall x y, chain_of R (x :: l2 ++ y :: l3) -> clos_trans string R x y.
Proof.
  induction l2 as [|a l2 IH]; intros x y; simpl.
  - intros [H _]. now apply t_step.
  - intros [H1 H2]. eapply t_trans; [apply t_step; eassumption|]. now apply IH.
Qed.

Lemma chain_of_cycle (R : string -> string -> Prop) (x : string)
    (l1 l2 l3 : list string) :
  chain_of R (l1 ++ x :: l2 ++ x :: l3) -> clos_trans string R x x.
Proof. intros H. apply chain_of_app_r in H. now apply chain_of_trans in H. Qed.

Lemma backward_chain (R : string -> string -> Prop) (D : string -> Prop) :
  (forall v, D v -> exists u, D u /\ R u v) ->
  forall v, D v ->
  forall k, exists h l, length l = k /\ chain_of R (h :: l) /\ D h /\ (forall x, In x l -> D x).
Proof.
  intros Hstep v Hv k. induction k as [|k IH].
  - exists v, []. simpl. repeat split; auto. tauto.
  - destruct IH as [h [l [Hlen [Hch [Hh Hl]]]]].
    destruct (Hstep h Hh) as [u [Hu Huh]].
    exists u, (h :: l). simpl. repeat split; auto.
    intros x [<-|Hx]; auto.
Qed.

(** A non-empty set of nodes in which every node has a predecessor contains
    a cycle. *)
Lemma closed_set_cycle (R : string -> string -> Prop) (dom : list string)
    (D : string -> Prop) :
  (forall v, D v -> In v dom) ->
  (forall v, D v -> exists u, D u /\ R u v) ->
  forall v, D v -> exists x, clos_trans string R x x.
Proof.
  intros Hdom Hstep v Hv.
  destruct (backward_chain R D Hstep v Hv (length dom)) as [h [l [Hlen [Hch [Hh Hl]]]]].
  destruct (pigeonhole (h :: l) dom) as [x [l1 [l2 [l3 E]]]].
  - intros y [<-|Hy]; auto.
  - simpl. lia.
  - exists x. rewrite E in Hch. now apply chain_of_cycle in Hch.
Qed.

Lemma topological_order_acyclic (g : DiGraph) (l : list string) :
  topological_order g l -> ~ cyclic g.
Proof.
  intros [Hnd [_ Hb]] [v Hv].
  assert (forall a b, reachable g a b -> before l a b) as H.
  { intros a b Hab. induction Hab; auto. eapply before_trans; eauto. }
  apply (before_irrefl l v Hnd). auto.
Qed.

Section KahnLoop.
Variable g : DiGraph.
Hypothesis Hg : graph_ok g.

Lemma in_degree_outside (v : string) : ~ In v (nodes g) -> in_degree g v = 0.
Proof.
  intros Hv. unfold in_degree. destruct (predecessors g v) as [|u r] eqn:E; auto.
  exfalso. apply Hv. assert (In u (predecessors g v)) as H by (rewrite E; now left).
  apply In_predecessors in H. now apply (edge_nodes g Hg u v).
Qed.

Lemma dict_get_tabulate (f : string -> nat) (p : string * nat -> bool)
    (l : list string) (v : string) :
  dict_get v (filter p (map (fun v => (v, f v)) l))
  = if mem v l && p (v, f v) then Some (f v) else None.
Proof.
  induction l as [|a r IH]; [reflexivity|].
  rewrite mem_cons. cbn [map filter].
  destruct (p (a, f a)) eqn:Ep.
  - cbn [dict_get]. rewrite String.eqb_sym.
    destruct (String.eqb_spec v a) as [->|Hne]; simpl.
    + now rewrite Ep.
    + exact IH.
  - destruct (String.eqb_spec v a) as [->|Hne]; simpl.
    + rewrite IH, Ep, andb_false_r. reflexivity.
    + exact IH.
Qed.

Lemma dict_keys_tabulate (f : string -> nat) (p : string * nat -> bool)
    (l : list string) :
  dict_keys (filter p (map (fun v => (v, f v)) l)) = filter (fun v => p (v, f v)) l.
Proof.
  induction l as [|a r IH]; simpl; auto.
  destruct (p (a, f a)); simpl; now rewrite IH.
Qed.

Lemma topo_inv_init : topo_inv g [] (zero_indegree0 g) [] (indegree_map0 g).
Proof.
  destruct Hg as [Hnd _]. unfold topo_inv. simpl. rewrite app_nil_r.
  unfold zero_indegree0, indegree_map0.
  split; [|split; [|split; [|split; [|split]]]].
  - now apply NoDup_filter.
  - intros v Hv. now apply filter_In in Hv.
  - rewrite dict_keys_tabulate. now apply NoDup_filter.
  - intros v. rewrite dict_get_tabulate, need_nil. simpl.
    destruct (mem v (nodes g)) eqn:Ev; simpl.
    + destruct (in_degree g v); reflexivity.
    + apply mem_notIn, in_degree_outside in Ev. now rewrite Ev.
  - intros v Hv. rewrite filter_In, need_nil, Nat.eqb_eq. tauto.
  - intros u v He Hv. apply filter_In in Hv. destruct Hv as [_ Hv].
    apply Nat.eqb_eq in Hv. rewrite <- need_nil in Hv.
    pose proof (proj1 (need_zero g [] v) Hv u He) as []. 
Qed.

Lemma need_nonzero_pred (P : list string) (v : string) :
  need g P v <> 0 -> exists u, edge g u v /\ ~ In u P.
Proof.
  unfold need. intros H.
  destruct (filter (fun u => negb (mem u P)) (predecessors g v)) as [|u r] eqn:E;
    [simpl in H; tauto|].
  assert (In u (u :: r)) as Hin by now left. rewrite <- E in Hin.
  apply filter_In in Hin. destruct Hin as [Hin Hm]. exists u. split.
  - now apply In_predecessors.
  - apply mem_notIn. now apply negb_true_iff.
Qed.

Lemma topo_final (yielded : list (list string)) (im : list (string * nat)) :
  topo_inv g (concat yielded) [] [] im ->
  topo_result_ok g (match im with
                    | [] => Ok yielded
                    | _ :: _ => Raise NetworkXUnfeasible
                    end).
Proof.
  intros (N1 & N2 & N3 & N4 & N5 & N6). simpl in *. rewrite app_nil_r in *.
  destruct im as [|[k d] r]; simpl.
  - assert (Hz : forall v, need g (concat yielded) v = 0).
    { intros v. specialize (N4 v). simpl in N4.
      destruct (need g (concat yielded) v =? 0) eqn:E; [|discriminate].
      now apply Nat.eqb_eq. }
    split; [|split]; auto.
    + intros v. split; auto. intros Hv. apply N5; auto.
    + intros u v He. apply N6; auto. apply N5; auto.
      now apply (edge_nodes g Hg u v).
  - split; auto.
    apply (closed_set_cycle (edge g) (nodes g)
             (fun v => In v (nodes g) /\ need g (concat yielded) v <> 0)) with (v := k).
    + tauto.
    + intros v [Hv Hn]. destruct (need_nonzero_pred _ _ Hn) as [u [He Hu]].
      exists u. split; auto.
      assert (In u (nodes g)) as Hun by now apply (edge_nodes g Hg u v).
      split; auto. intros Hz. apply Hu. now apply (N5 u Hun).
    + assert (need g (concat yielded) k <> 0) as Hn.
      { specialize (N4 k). simpl in N4. rewrite String.eqb_refl in N4.
        intros Hz. rewrite Hz in N4. discriminate. }
      split; auto. destruct (need_nonzero_pred _ _ Hn) as [u [He _]].
      now apply (edge_nodes g Hg u k).
Qed.

Lemma topo_loop_spec (fuel : nat) :
  forall yielded zero im,
    topo_inv g (concat yielded) zero [] im ->
    length (nodes g) + 1 <= fuel + length (concat yielded) ->
    exists r, topo_loop fuel g im zero yielded = Some r /\ topo_result_ok g r.
Proof.
  induction fuel as [|fuel IH]; intros yielded zero im Hinv Hfuel.
  - destruct zero as [|u zero].
    + simpl. destruct im; eexists; (split; [reflexivity|]);
        apply (topo_final yielded _ Hinv).
    + destruct Hinv as (N1 & N2 & _).
      pose proof (NoDup_incl_length N1 N2) as Hlen.
      rewrite !length_app in Hlen. simpl in *. lia.
  - destruct zero as [|u zero].
    + simpl. destruct im; eexists; (split; [reflexivity|]);
        apply (topo_final yielded _ Hinv).
    + destruct (topo_generation_spec g Hg (u :: zero) _ _ _ Hinv)
        as [im' [z' [H1 Hinv']]].
      cbn [topo_loop]. rewrite H1. cbn [fst snd].
      apply IH.
      * rewrite concat_app. simpl. rewrite app_nil_r.
        destruct Hinv' as (M1 & M2 & M3 & M4 & M5 & M6). simpl in *.
        unfold topo_inv. simpl. rewrite app_nil_r. repeat split; auto;
          try apply M5; auto.
      * rewrite concat_app. simpl. rewrite app_nil_r, length_app. simpl. lia.
Qed.

(** [topological_generations] terminates within its bound, with a
    topological order or with [NetworkXUnfeasible] on a cyclic graph. *)
Lemma topological_generations_spec :
  exists r, topological_generations g = Some r /\ topo_result_ok g r.
Proof.
  apply topo_loop_spec.
  - apply topo_inv_init.
  - unfold order, nodes, dict_keys. rewrite length_map. simpl. lia.
Qed.
End KahnLoop.

(** ** is_valid_dag, get_chain *)

Lemma is_directed_acyclic_graph_spec (g : DiGraph) :
  graph_ok g ->
  (cyclic g
   /\ is_directed_acyclic_graph g = Some (Ok false)
   /\ topological_sort g = Some (Raise NetworkXUnfeasible))
  \/ (~ cyclic g
      /\ is_directed_acyclic_graph g = Some (Ok true)
      /\ exists l, topological_sort g = Some (Ok l) /\ topological_order g l).
Proof.
  intros Hg. destruct (topological_generations_spec g Hg) as [r [Hr Hok]].
  unfold is_directed_acyclic_graph, topological_sort. rewrite Hr.
  destruct r as [gens|e]; simpl in *.
  - right. split; [now apply (topological_order_acyclic g (concat gens))|].
    split; eauto.
  - left. destruct Hok as [-> Hc]. auto.
Qed.

Lemma is_dag_true_acyclic (g : DiGraph) :
  graph_ok g -> is_directed_acyclic_graph g = Some (Ok true) -> ~ cyclic g.
Proof.
  intros Hg H. destruct (is_directed_acyclic_graph_spec g Hg) as [(_ & E & _)|(Hc & _)]; auto.
  congruence.
Qed.

Lemma wf_chain_graph_ok (c : HybridChain) : wf_chain c = true -> graph_ok (graph c).
Proof. intros H. apply wf_chain_ok in H. apply H. Qed.

Lemma relationships_edge (c : HybridChain) (u v : string) (d : option EdgeData) :
  In (u, v, d) (relationships c) -> edge (graph c) u v.
Proof. intros H. apply In_edges_data in H. exists d. apply H. Qed.

(** C2. On a chain whose relationship graph has a directed cycle,
    [is_valid_dag] returns [False] and both [get_chain] and
    [get_critical_path] raise the cycle error; no list is returned. *)
Theorem cyclic_chain_rejected (c : HybridChain) :
  wf_chain c = true ->
  cyclic (graph c) ->
  is_valid_dag c = Some (Ok false)
  /\ get_chain c = Some (Raise cycle_error)
  /\ get_critical_path c = Some (Raise cycle_error).
Proof.
  intros Hwf Hc. apply wf_chain_graph_ok in Hwf.
  unfold is_valid_dag, get_chain, get_critical_path.
  destruct (is_directed_acyclic_graph_spec _ Hwf) as [(_ & E & _)|(Hn & _)]; [|tauto].
  rewrite E. auto.
Qed.

Lemma loop_chain_cyclic : cyclic (graph loop_chain).
Proof.
  exists "a". apply t_step. exists (Some (edge_data_of (mk_rel "a" "a" DEPENDENCY))).
  simpl. now left.
Qed.

Lemma cyclic_chain_rejected_witness :
  wf_chain loop_chain = true
  /\ cyclic (graph loop_chain)
  /\ get_chain loop_chain = Some (Raise cycle_error).
Proof.
  split; [vm_compute; reflexivity|]. split; [exact loop_chain_cyclic|].
  apply (cyclic_chain_rejected loop_chain).
  - vm_compute; reflexivity.
  - exact loop_chain_cyclic.
Defined.

(** C1, as the code has it. On a chain whose relationship graph is acyclic,
    [get_chain] returns a list that is a permutation of the entity ids and in
    which the source of every relationship occurs before its target. *)
Theorem get_chain_topological (c : HybridChain) :
  wf_chain c = true ->
  ~ cyclic (graph c) ->
  exists l,
    get_chain c = Some (Ok l)
    /\ Permutation l (dict_keys (entities c))
    /\ (forall u v d, In (u, v, d) (relationships c) -> before l u v).
Proof.
  intros Hwf Hc. pose proof (proj1 (wf_chain_ok c) Hwf) as [Hg [Hn _]].
  unfold get_chain.
  destruct (is_directed_acyclic_graph_spec _ Hg) as [(Hy & _)|(_ & E & l & Hl & Hord)];
    [tauto|].
  rewrite E. exists l. split; auto. destruct Hord as [Hnd [Hin Hb]]. split.
  - apply NoDup_Permutation; auto.
    + unfold entities. rewrite <- Hn. apply Hg.
    + intros x. unfold entities. rewrite <- Hn. apply Hin.
  - intros u v d H. apply Hb. eapply relationships_edge; eauto.
Qed.

Lemma get_chain_topological_witness :
  wf_chain simple_chain = true
  /\ ~ cyclic (graph simple_chain)
  /\ exists l, get_chain simple_chain = Some (Ok l) /\ before l "act1" "act2".
Proof.
  assert (Hwf : wf_chain simple_chain = true) by (vm_compute; reflexivity).
  assert (Hac : ~ cyclic (graph simple_chain)).
  { apply is_dag_true_acyclic; [now apply wf_chain_graph_ok|]. vm_compute; reflexivity. }
  split; [exact Hwf|]. split; [exact Hac|].
  destruct (get_chain_topological simple_chain Hwf Hac) as [l [H1 [_ H3]]].
  exists l. split; auto.
  apply (H3 "act1" "act2" (Some (edge_data_of (mk_rel "act1" "act2" DEPENDENCY)))).
  vm_compute. tauto.
Defined.

(** C1 as stated fails on a cyclic chain: [get_chain] raises instead of
    returning a list. *)
Lemma get_chain_cyclic_counterexample :
  wf_chain loop_chain = true
  /\ ~ (exists l,
          get_chain loop_chain = Some (Ok l)
          /\ Permutation l (dict_keys (entities loop_chain))
          /\ (forall u v d, In (u, v, d) (relationships loop_chain) -> before l u v)).
Proof.
  split; [vm_compute; reflexivity|].
  intros [l [H _]]. vm_compute in H. discriminate.
Qed.

(** ** Sources and sinks of an acyclic graph *)

Lemma before_head (a u : string) (l : list string) : before (a :: l) u a -> In a l.
Proof.
  intros [l1 [l2 [l3 E]]]. destruct l1 as [|x l1]; simpl in E; inversion E; subst.
  - apply in_or_app. right. now left.
  - apply in_or_app. right. right. apply in_or_app. right. now left.
Qed.

Lemma before_last (b v : string) (l : list string) : before (l ++ [b]) b v -> In b l.
Proof.
  intros [l1 [l2 [l3 E]]].
  assert (E' : l ++ [b] = (l1 ++ b :: l2 ++ removelast (v :: l3)) ++ [last (v :: l3) b]).
  { rewrite E. rewrite <- !app_assoc. simpl. rewrite <- !app_assoc. do 3 f_equal.
    rewrite (app_removelast_last (l := v :: l3) b) at 1 by discriminate.
    reflexivity. }
  apply app_inj_tail in E'. destruct E' as [-> _].
  apply in_or_app. right. now left.
Qed.

Lemma topological_order_head (g : DiGraph) (a : string) (l : list string) :
  topological_order g (a :: l) -> in_degree g a = 0.
Proof.
  intros [Hnd [_ Hb]]. unfold in_degree.
  destruct (predecessors g a) as [|u r] eqn:E; auto.
  assert (In u (predecessors g a)) as H by (rewrite E; now left).
  apply In_predecessors, Hb, before_head in H. inversion Hnd; tauto.
Qed.

Lemma topological_order_last (g : DiGraph) (b : string) (l : list string) :
  topological_order g (l ++ [b]) -> out_degree g b = 0.
Proof.
  intros [Hnd [_ Hb]]. unfold out_degree.
  destruct (successors g b) as [|v r] eqn:E; auto.
  assert (In v (successors g b)) as H by (rewrite E; now left).
  apply In_successors, Hb, before_last in H.
  apply NoDup_remove_2 in Hnd. rewrite app_nil_r in Hnd. tauto.
Qed.

Lemma acyclic_has_source_and_sink (g : DiGraph) :
  graph_ok g -> ~ cyclic g -> nodes g <> [] ->
  graph_sources g <> [] /\ graph_sinks g <> [].
Proof.
  intros Hg Hc Hne.
  destruct (is_directed_acyclic_graph_spec g Hg) as [(Hy & _)|(_ & _ & l & _ & Hord)];
    [tauto|].
  pose proof Hord as [_ [Hin _]].
  assert (Hl : l <> []).
  { destruct (nodes g) as [|n r] eqn:E; [tauto|].
    assert (In n l) as Hn by (apply Hin; now left).
    intros ->. destruct Hn. }
  split.
  - destruct l as [|a l']; [tauto|].
    pose proof (topological_order_head g a l' Hord) as Hd.
    assert (In a (graph_sources g)) as Ha.
    { apply filter_In. split; [apply Hin; now left | now apply Nat.eqb_eq]. }
    intros E. rewrite E in Ha. destruct Ha.
  - destruct (exists_last Hl) as [l' [b ->]].
    pose proof (topological_order_last g b l' Hord) as Hd.
    assert (In b (graph_sinks g)) as Ha.
    { apply filter_In. split; [|now apply Nat.eqb_eq].
      apply Hin. apply in_or_app. right. now left. }
    intros E. rewrite E in Ha. destruct Ha.
Qed.

Lemma empty_graph_acyclic (g : DiGraph) : graph_ok g -> nodes g = [] -> ~ cyclic g.
Proof.
  intros Hg Hn [v Hv].
  assert (forall a b, reachable g a b -> In a (nodes g)) as H.
  { intros a b Hab. induction Hab; auto. now apply (edge_nodes g Hg x y). }
  apply H in Hv. rewrite Hn in Hv. destruct Hv.
Qed.

(** ** get_critical_path: the fallback branch *)

(** C9, as the code has it. When the chain has no zero-in-degree node or no
    zero-out-degree node, either the chain is empty and [get_critical_path]
    returns the empty sequence, or the graph is cyclic and
    [get_critical_path] raises the cycle error: the topological-order
    fallback is never taken on a chain with entities. *)
Theorem critical_path_without_source_or_sink (c : HybridChain) :
  wf_chain c = true ->
  graph_sources (graph c) = [] \/ graph_sinks (graph c) = [] ->
  (nodes (graph c) = [] /\ get_critical_path c = Some (Ok []))
  \/ (nodes (graph c) <> [] /\ cyclic (graph c)
      /\ get_critical_path c = Some (Raise cycle_error)).
Proof.
  intros Hwf Hss. pose proof (wf_chain_graph_ok c Hwf) as Hg.
  destruct (nodes (graph c)) as [|n r] eqn:En.
  - left. split; auto. unfold get_critical_path.
    destruct (is_directed_acyclic_graph_spec _ Hg) as [(Hy & _)|(_ & E & _)].
    + exfalso. now apply (empty_graph_acyclic _ Hg En).
    + rewrite E. unfold order. unfold nodes, dict_keys in En.
      destruct (g_node (graph c)); [reflexivity|discriminate].
  - right. split; [discriminate|].
    destruct (is_directed_acyclic_graph_spec _ Hg) as [(Hy & E & _)|(Hn & _)].
    + split; auto. unfold get_critical_path. now rewrite E.
    + exfalso. destruct (acyclic_has_source_and_sink _ Hg Hn) as [H1 H2].
      * rewrite En. discriminate.
      * tauto.
Qed.

Lemma critical_path_without_source_or_sink_witness :
  wf_chain loop_chain = true
  /\ graph_sources (graph loop_chain) = []
  /\ cyclic (graph loop_chain).
Proof.
  split; [vm_compute; reflexivity|]. split; [vm_compute; reflexivity|].
  destruct (critical_path_without_source_or_sink loop_chain) as [[H _]|[_ [H _]]].
  - vm_compute; reflexivity.
  - left. vm_compute; reflexivity.
  - vm_compute in H. discriminate.
  - exact H.
Defined.

(** C9 as stated fails: on a chain without zero-in-degree node nothing is
    returned, the cycle error is raised. *)
Lemma critical_path_fallback_counterexample :
  wf_chain loop_chain = true
  /\ graph_sources (graph loop_chain) = []
  /\ topological_sort (graph loop_chain) = Some (Raise NetworkXUnfeasible)
  /\ ~ (exists l, get_critical_path loop_chain = Some (Ok l)).
Proof.
  split; [vm_compute; reflexivity|]. split; [vm_compute; reflexivity|].
  split; [vm_compute; reflexivity|].
  intros [l H]. vm_compute in H. discriminate.
Qed.

(** ** Breadth-first search and descendants *)

Lemma bfs_children_spec (parent : string) (cs : list string) :
  forall st,
    NoDup (bfs_seen st) ->
    exists new,
      bfs_seen (bfs_children parent cs st) = bfs_seen st ++ new
      /\ bfs_next (bfs_children parent cs st) = bfs_next st ++ new
      /\ bfs_out (bfs_children parent cs st)
         = bfs_out st ++ map (fun c => (parent, c)) new
      /\ NoDup (bfs_seen st ++ new)
      /\ (forall c, In c new -> In c cs)
      /\ (forall c, In c cs -> In c (bfs_seen st ++ new)).
Proof.
  induction cs as [|c r IH]; intros st Hnd.
  - exists []. simpl. rewrite !app_nil_r. repeat split; auto. tauto.
  - unfold bfs_children. cbn [fold_left]. fold (bfs_children parent r).
    destruct (mem c (bfs_seen st)) eqn:E.
    + destruct (IH st Hnd) as [new (H1 & H2 & H3 & H4 & H5 & H6)].
      exists new. repeat split; auto.
      * intros x Hx. right. auto.
      * intros x [<-|Hx]; auto. apply in_or_app. left. now apply mem_In.
    + apply mem_notIn in E.
      set (st1 := {| bfs_seen := bfs_seen st ++ [c];
                     bfs_next := bfs_next st ++ [c];
                     bfs_out := bfs_out st ++ [(parent, c)] |}).
      assert (Hnd1 : NoDup (bfs_seen st1)).
      { simpl. apply NoDup_app; auto.
        - constructor; auto using NoDup_nil.
        - intros x Hx [<-|[]]. tauto. }
      destruct (IH st1 Hnd1) as [new (H1 & H2 & H3 & H4 & H5 & H6)].
      exists (c :: new). simpl in *. rewrite <- !app_assoc in *. simpl in *.
      repeat split; auto.
      * intros x [<-|Hx]; auto.
      * intros x [<-|Hx]; auto. apply in_or_app. right. now left.
Qed.

Section BFS.
Variable g : DiGraph.
Hypothesis Hg : graph_ok g.
Variable s : string.

Lemma bfs_parent_step (p : string) (todo : list string) (st : bfs_state) (K : nat) :
  bfs_inv g s (p :: todo) st ->
  length (bfs_seen st) = K + length (bfs_next st) ->
  bfs_inv g s todo (bfs_children p (successors g p) st)
  /\ length (bfs_seen (bfs_children p (successors g p) st))
     = K + length (bfs_next (bfs_children p (successors g p) st)).
Proof.
  intros ((S1 & S2 & S3 & S4) & I2 & I3 & I4) HK.
  destruct (bfs_children_spec p (successors g p) st S2)
    as [new (H1 & H2 & H3 & H4 & H5 & H6)].
  assert (Hp : In p (bfs_seen st)) by (apply I2; now left).
  split.
  - unfold bfs_inv, bfs_sound. rewrite H1, H2, H3.
    split; [split; [|split; [|split]]|split; [|split]].
    + rewrite S1, map_app, map_map. simpl. now rewrite map_id.
    + exact H4.
    + apply incl_app; auto. intros c Hc. apply H5, In_successors in Hc.
      now apply (edge_nodes g Hg p c).
    + intros v Hv. apply in_app_or in Hv. destruct Hv as [Hv|Hv]; auto.
      right. apply H5, In_successors in Hv.
      destruct (S4 p Hp) as [->|Hr]; [now apply t_step|].
      eapply t_trans; [eassumption|now apply t_step].
    + intros x Hx. apply in_or_app. left. apply I2. now right.
    + apply incl_app.
      * intros x Hx. apply in_or_app. left. now apply I3.
      * intros x Hx. apply in_or_app. now right.
    + intros u v Hu Hut Hun He.
      destruct (string_dec u p) as [->|Hne].
      * apply H6. now apply In_successors.
      * apply in_app_or in Hu. destruct Hu as [Hu|Hu].
        -- apply in_or_app. left. apply (I4 u v); auto.
           ++ intros [E|Hin]; [congruence|tauto].
           ++ intros Hin. apply Hun. apply in_or_app. now left.
        -- exfalso. apply Hun. apply in_or_app. now right.
  - rewrite H1, H2, !length_app. lia.
Qed.

Lemma bfs_layer_spec (n : nat) (todo : list string) :
  forall st K,
    bfs_inv g s todo st ->
    length (bfs_seen st) = K + length (bfs_next st) ->
    let r := bfs_layer g n todo st in
    bfs_sound g s (fst r)
    /\ (snd r = true -> length (bfs_seen (fst r)) = n)
    /\ (snd r = false ->
          bfs_inv g s [] (fst r)
          /\ length (bfs_seen (fst r)) = K + length (bfs_next (fst r))).
Proof.
  induction todo as [|p todo IH]; intros st K Hinv HK; simpl.
  - split; [apply Hinv|]. split; [discriminate|]. auto.
  - destruct (bfs_parent_step p todo st K Hinv HK) as [Hinv' HK'].
    destruct (length (bfs_seen (bfs_children p (successors g p) st)) =? n) eqn:E.
    + simpl. split; [apply Hinv'|]. split; [|discriminate].
      intros _. now apply Nat.eqb_eq.
    + apply (IH _ K Hinv' HK').
Qed.

Lemma bfs_closed_complete (st : bfs_state) :
  bfs_sound g s st ->
  (forall u v, In u (bfs_seen st) -> edge g u v -> In v (bfs_seen st)) ->
  forall v, reachable g s v -> In v (bfs_seen st).
Proof.
  intros (S1 & _) Hcl v Hv.
  assert (Hs : In s (bfs_seen st)) by (rewrite S1; now left).
  assert (forall a b, reachable g a b -> In a (bfs_seen st) -> In b (bfs_seen st)) as H.
  { intros a b Hab. induction Hab; eauto. }
  eauto.
Qed.

Lemma bfs_full_complete (st : bfs_state) :
  bfs_sound g s st ->
  length (bfs_seen st) = length (nodes g) ->
  forall v, reachable g s v -> In v (bfs_seen st).
Proof.
  intros (_ & S2 & S3 & _) Hlen v Hv.
  assert (In v (nodes g)) as Hn.
  { assert (forall a b, reachable g a b -> In b (nodes g)) as H.
    { intros a b Hab. induction Hab; auto. now apply (edge_nodes g Hg x y). }
    eauto. }
  pose proof (@NoDup_length_incl _ (bfs_seen st) (nodes g) S2) as H.
  apply H; auto. lia.
Qed.

Lemma bfs_out_spec (st : bfs_state) :
  bfs_sound g s st ->
  (forall v, reachable g s v -> In v (bfs_seen st)) ->
  forall v, In v (map snd (bfs_out st)) <-> v <> s /\ reachable g s v.
Proof.
  intros (S1 & S2 & S3 & S4) Hc v. rewrite S1 in S2, S4, Hc.
  inversion S2 as [|? ? Hnot Hnd]; subst. split.
  - intros Hv. assert (v <> s) as Hne by (intros ->; tauto). split; auto.
    destruct (S4 v (or_intror Hv)) as [->|Hr]; tauto.
  - intros [Hne Hr]. destruct (Hc v Hr) as [E|Hin]; auto. congruence.
Qed.

Lemma bfs_loop_spec (budget : nat) :
  forall st,
    bfs_inv g s (bfs_next st)
      {| bfs_seen := bfs_seen st; bfs_next := []; bfs_out := bfs_out st |} ->
    length (nodes g) + length (bfs_next st) <= budget + length (bfs_seen st) ->
    forall v, In v (map snd (bfs_loop budget g (length (nodes g)) st))
              <-> v <> s /\ reachable g s v.
Proof.
  induction budget as [|budget IH]; intros st Hinv Hlen.
  - destruct Hinv as (Hs & I2 & I3 & I4). simpl in *.
    assert (bfs_next st = []) as En.
    { destruct Hs as (_ & S2 & S3 & _). simpl in *.
      pose proof (NoDup_incl_length S2 S3).
      destruct (bfs_next st); auto. simpl in *. lia. }
    apply (bfs_out_spec {| bfs_seen := bfs_seen st; bfs_next := [];
                           bfs_out := bfs_out st |}); auto.
    apply bfs_closed_complete; auto. simpl. intros u v Hu He.
    apply (I4 u v); auto. now rewrite En.
  - cbn [bfs_loop]. destruct (bfs_next st) as [|p todo] eqn:En.
    + destruct Hinv as (Hs & I2 & I3 & I4). simpl in *.
      apply (bfs_out_spec {| bfs_seen := bfs_seen st; bfs_next := [];
                             bfs_out := bfs_out st |}); auto.
      apply bfs_closed_complete; auto. simpl. intros u v Hu He.
      apply (I4 u v); auto.
    + assert (HK0 : length (bfs_seen st) = length (bfs_seen st) + 0) by lia.
      pose proof (bfs_layer_spec (length (nodes g)) (p :: todo) _ (length (bfs_seen st))
                    Hinv HK0) as Hl.
      cbv zeta in Hl.
      set (r := bfs_layer g (length (nodes g)) (p :: todo) _) in *.
      destruct Hl as (Hs & Ht & Hf).
      destruct (snd r) eqn:Er.
      * apply bfs_out_spec; auto. apply bfs_full_complete; auto.
      * destruct (Hf eq_refl) as [Hinv' HK].
        apply IH.
        -- destruct Hinv' as ((T1 & T2 & T3 & T4) & J2 & J3 & J4).
           unfold bfs_inv, bfs_sound. simpl.
           split; [split; [|split; [|split]]|split; [|split]]; auto.
           intros u v Hu Hut _ He. apply (J4 u v); auto.
        -- simpl in Hlen. lia.
Qed.

Lemma bfs_edges_spec :
  In s (nodes g) ->
  forall v, In v (map snd (bfs_edges g s)) <-> v <> s /\ reachable g s v.
Proof.
  intros Hs v. unfold bfs_edges.
  replace (order g) with (length (nodes g))
    by (unfold order, nodes, dict_keys; now rewrite length_map).
  apply bfs_loop_spec.
  - unfold bfs_inv, bfs_sound; simpl. repeat split; auto.
    + constructor; auto using NoDup_nil.
    + intros x [<-|[]]; auto.
    + intros x [<-|[]]; auto.
    + intros x [<-|[]]; now left.
    + intros x [].
  - simpl. lia.
Qed.

Lemma descendants_spec :
  In s (nodes g) ->
  exists des,
    descendants g s = Ok des
    /\ NoDup des
    /\ (forall v, In v des <-> v <> s /\ reachable g s v).
Proof.
  intros Hs. unfold descendants, has_node.
  rewrite (proj2 (mem_In s (nodes g)) Hs). simpl.
  eexists. split; [reflexivity|]. split.
  - apply NoDup_nodup.
  - intros v. rewrite nodup_In. now apply bfs_edges_spec.
Qed.
End BFS.

(** ** intervention_score *)

Lemma acyclic_reachable_neq (g : DiGraph) (u v : string) :
  ~ cyclic g -> reachable g u v -> v <> u.
Proof. intros Hc Hr ->. apply Hc. now exists u. Qed.

(** C6. For a node id of the chain, [intervention_score] is the size of the
    node's descendant set: the nodes other than the node itself that are
    reachable from it along relationships. It is 0 when no other node is
    reachable, and on an acyclic chain the descendants are simply the
    reachable nodes. *)
Theorem intervention_score_descendants (c : HybridChain) (node_id : string) :
  wf_chain c = true ->
  In node_id (dict_keys (entities c)) ->
  exists des,
    intervention_score c node_id = Ok (length des)
    /\ NoDup des
    /\ (forall v, In v des <-> v <> node_id /\ reachable (graph c) node_id v)
    /\ ((forall v, v <> node_id -> ~ reachable (graph c) node_id v) ->
        intervention_score c node_id = Ok 0)
    /\ (~ cyclic (graph c) -> forall v, In v des <-> reachable (graph c) node_id v).
Proof.
  intros Hwf Hin. pose proof (proj1 (wf_chain_ok c) Hwf) as [Hg [Hn _]].
  unfold entities in Hin. rewrite <- Hn in Hin.
  destruct (descendants_spec (graph c) Hg node_id Hin) as [des [H1 [H2 H3]]].
  exists des. unfold intervention_score, has_node.
  rewrite (proj2 (mem_In _ _) Hin), H1. simpl.
  split; [reflexivity|]. split; [assumption|]. split; [assumption|]. split.
  - intros Hnone. destruct des as [|v r]; [reflexivity|].
    exfalso. destruct (proj1 (H3 v) (or_introl eq_refl)) as [Hne Hr].
    now apply (Hnone v).
  - intros Hc v. rewrite H3. split; [tauto|]. intros Hr. split; auto.
    now apply (acyclic_reachable_neq (graph c) node_id v).
Qed.

Lemma simple_chain_edge (u v : string) (t : EdgeType) :
  In (u, v, Some (edge_data_of (mk_rel u v t))) (g_edges (graph simple_chain)) ->
  edge (graph simple_chain) u v.
Proof. intros H. eexists. exact H. Qed.

Lemma intervention_score_descendants_witness :
  wf_chain simple_chain = true
  /\ In "act1" (dict_keys (entities simple_chain))
  /\ exists des,
       intervention_score simple_chain "act1" = Ok (length des)
       /\ NoDup des /\ In "act3" des.
Proof.
  split; [vm_compute; reflexivity|]. split; [vm_compute; tauto|].
  destruct (intervention_score_descendants simple_chain "act1")
    as [des (H1 & H2 & H3 & _)].
  - vm_compute; reflexivity.
  - vm_compute; tauto.
  - exists des. split; [exact H1|]. split; [exact H2|].
    apply H3. split; [discriminate|].
    apply t_trans with (y := "act2"); apply t_step.
    + apply (simple_chain_edge "act1" "act2" DEPENDENCY). vm_compute. tauto.
    + apply (simple_chain_edge "act2" "act3" DEPENDENCY). vm_compute. tauto.
Defined.

(** C6 as stated fails on a cyclic chain: in the chain with the single
    relationship [a -> a] the node [a] is reachable from [a], yet
    [intervention_score] is 0, because a node is not among its own
    descendants. *)
Lemma intervention_score_cyclic_counterexample :
  wf_chain loop_chain = true
  /\ In "a" (dict_keys (entities loop_chain))
  /\ ~ (exists reach,
          NoDup reach
          /\ (forall v, In v reach <-> reachable (graph loop_chain) "a" v)
          /\ intervention_score loop_chain "a" = Ok (length reach)).
Proof.
  split; [vm_compute; reflexivity|]. split; [vm_compute; tauto|].
  intros [reach (_ & Hr & E)].
  assert (E0 : intervention_score loop_chain "a" = Ok 0) by (vm_compute; reflexivity).
  rewrite E0 in E. inversion E as [El].
  destruct reach as [|x r]; [|discriminate].
  apply (Hr "a"). apply t_step. exists (Some (edge_data_of (mk_rel "a" "a" DEPENDENCY))).
  vm_compute. tauto.
Qed.

(** ** Sorting by decreasing key *)

Lemma Forall_perm {A : Type} (P : A -> Prop) (l l' : list A) :
  Permutation l l' -> Forall P l -> Forall P l'.
Proof. intros Hp Hf. rewrite <- Hp. exact Hf. Qed.

Lemma Qlt_bool_true (x y : Q) : Qlt_bool x y = true <-> (x < y)%Q.
Proof.
  unfold Qlt_bool. rewrite negb_true_iff. split.
  - intros H. apply Qnot_le_lt. intros Hle. apply Qle_bool_iff in Hle. congruence.
  - intros H. destruct (Qle_bool y x) eqn:E; auto.
    apply Qle_bool_iff in E. exfalso. exact (Qlt_not_le _ _ H E).
Qed.

Lemma Qlt_bool_false (x y : Q) : Qlt_bool x y = false <-> (y <= x)%Q.
Proof.
  unfold Qlt_bool. rewrite negb_false_iff. apply Qle_bool_iff.
Qed.

Section SortDesc.
Context {A : Type}.
Variable key : A -> Q.

Lemma insert_desc_perm (x : A) (l : list A) : Permutation (insert_desc key x l) (x :: l).
Proof.
  induction l as [|y r IH]; simpl; auto.
  destruct (Qlt_bool (key x) (key y)); auto.
  rewrite IH. apply perm_swap.
Qed.

Lemma sort_desc_perm (l : list A) : Permutation (sort_desc key l) l.
Proof.
  induction l as [|x r IH]; simpl; auto.
  rewrite insert_desc_perm. now constructor.
Qed.

Lemma insert_desc_sorted (x : A) (l : list A) :
  StronglySorted (fun a b => (key b <= key a)%Q) l ->
  StronglySorted (fun a b => (key b <= key a)%Q) (insert_desc key x l).
Proof.
  induction l as [|y r IH]; simpl; intros Hs.
  - constructor; auto.
  - inversion Hs as [|? ? Hr Hy]; subst.
    destruct (Qlt_bool (key x) (key y)) eqn:E.
    + apply Qlt_bool_true in E. constructor; auto.
      apply (Forall_perm _ (x :: r)).
      * symmetry. apply insert_desc_perm.
      * constructor; auto. now apply Qlt_le_weak.
    + apply Qlt_bool_false in E. constructor; auto.
      constructor; auto.
      eapply Forall_impl; [|exact Hy]. intros z Hz. simpl in *.
      eapply Qle_trans; eauto.
Qed.

Lemma sort_desc_sorted (l : list A) :
  StronglySorted (fun a b => (key b <= key a)%Q) (sort_desc key l).
Proof.
  induction l as [|x r IH]; simpl.
  - constructor.
  - now apply insert_desc_sorted.
Qed.
End SortDesc.

(** ** Rounding *)

Lemma round_half_even_nonneg (x : Q) : (0 <= x)%Q -> (0 <= round_half_even x)%Z.
Proof.
  intros Hx. unfold round_half_even.
  assert (0 <= Qfloor x)%Z as Hf.
  { change 0%Z with (Qfloor 0). now apply Qfloor_resp_le. }
  destruct (Qcompare _ _); [destruct (Z.even _)| |]; lia.
Qed.

Lemma round_half_even_spec (x : Q) :
  (Qabs (x - inject_Z (round_half_even x)) <= 1 # 2)%Q
  /\ ((Qabs (x - inject_Z (round_half_even x)) == 1 # 2)%Q ->
      Z.even (round_half_even x) = true).
Proof.
  unfold round_half_even.
  pose proof (Qfloor_le x) as H1. pose proof (Qlt_floor x) as H2.
  set (f := Qfloor x) in *. rewrite inject_Z_plus in H2.
  change (inject_Z 1) with 1%Q in H2.
  destruct (Qcompare_spec (x - inject_Z f) (1 # 2)) as [E|E|E].
  - destruct (Z.even f) eqn:Ev.
    + split; [|intros _; exact Ev]. apply Qabs_Qle_condition. split; lra.
    + split.
      * rewrite inject_Z_plus. change (inject_Z 1) with 1%Q.
        apply Qabs_Qle_condition. split; lra.
      * intros _. change (f + 1)%Z with (Z.succ f).
        rewrite Z.even_succ, <- Z.negb_even, Ev. reflexivity.
  - split; [apply Qabs_Qle_condition; split; lra|].
    intros Ht. rewrite Qabs_pos in Ht by lra. lra.
  - rewrite inject_Z_plus. change (inject_Z 1) with 1%Q.
    split; [apply Qabs_Qle_condition; split; lra|].
    intros Ht. rewrite Qabs_neg in Ht by lra. lra.
Qed.

(** Rounding to the nearest float keeps the sign. *)
Lemma fl_nonneg (x : Q) : (0 <= x)%Q -> (0 <= fl x)%Q.
Proof.
  intros Hx. unfold fl. destruct (Qeq_bool x 0); [lra|]. cbv zeta.
  assert (Hn : (Qnum x <? 0)%Z = false).
  { apply Z.ltb_ge. unfold Qle in Hx. simpl in Hx. lia. }
  rewrite Hn. apply Qmult_le_0_compat.
  - change 0%Q with (inject_Z 0). rewrite <- Zle_Qle. apply round_half_even_nonneg.
    apply Qle_shift_div_l; [apply Qpower_0_lt; reflexivity|].
    rewrite Qmult_0_l. apply Qabs_nonneg.
  - apply Qpower_0_le. discriminate.
Qed.

(** *** Integers below 2^53 are floats *)

Lemma round_half_even_int (x : Q) (z : Z) : (x == inject_Z z)%Q -> round_half_even x = z.
Proof.
  intros H. unfold round_half_even.
  rewrite (Qfloor_comp x (inject_Z z) H), Qfloor_Z.
  assert (E : (x - inject_Z z ?= 1 # 2)%Q = Lt) by (apply (proj1 (Qlt_alt _ _)); rewrite H; unfold Qminus; rewrite Qplus_opp_r; reflexivity).
  now rewrite E.
Qed.

Lemma pow2_frac (x y : Z) :
  (0 <= x)%Z -> (0 <= y)%Z -> (Qpower 2 (x - y) == (2 ^ x) # Z.to_pos (2 ^ y))%Q.
Proof.
  intros Hx Hy. unfold Z.sub. rewrite Qpower_plus by discriminate.
  rewrite Qpower_opp. change 2%Q with (inject_Z 2).
  rewrite <- !Zpower_Qpower by assumption.
  rewrite Qmake_Qdiv. rewrite Z2Pos.id by (apply Z.pow_pos_nonneg; lia).
  reflexivity.
Qed.

Lemma ilog2_spec (a : Q) :
  (0 < a)%Q -> (Qpower 2 (ilog2 a) <= a)%Q /\ (a < Qpower 2 (ilog2 a + 1))%Q.
Proof.
  intros Ha. destruct a as [n d]. assert (Hn : (0 < n)%Z).
  { unfold Qlt in Ha. simpl in Ha. lia. }
  unfold ilog2. cbn [Qnum Qden].
  pose proof (Z.log2_spec n Hn) as [N1 N2].
  pose proof (Z.log2_spec (Z.pos d) (Pos2Z.is_pos d)) as [D1 D2].
  pose proof (Z.log2_nonneg n) as Ln. pose proof (Z.log2_nonneg (Z.pos d)) as Ld.
  set (ln := Z.log2 n) in *. set (ld := Z.log2 (Z.pos d)) in *.
  assert (P1 : (0 < 2 ^ ln)%Z) by (apply Z.pow_pos_nonneg; lia).
  assert (P2 : (0 < 2 ^ ld)%Z) by (apply Z.pow_pos_nonneg; lia).
  assert (P3 : (0 < 2 ^ Z.succ ld)%Z) by (apply Z.pow_pos_nonneg; lia).
  assert (P4 : (0 < 2 ^ Z.succ ln)%Z) by (apply Z.pow_pos_nonneg; lia).
  assert (B : (n # d < Qpower 2 (ln - ld + 1))%Q).
  { replace (ln - ld + 1)%Z with (Z.succ ln - ld)%Z by lia.
    rewrite pow2_frac by lia. unfold Qlt. cbn [Qnum Qden].
    rewrite Z2Pos.id by assumption. nia. }
  assert (A : (Qpower 2 (ln - ld - 1) <= n # d)%Q).
  { replace (ln - ld - 1)%Z with (ln - Z.succ ld)%Z by lia.
    rewrite pow2_frac by lia. unfold Qle. cbn [Qnum Qden].
    rewrite Z2Pos.id by assumption. nia. }
  destruct (Qle_bool (Qpower 2 (ln - ld)) (n # d)) eqn:E.
  - apply Qle_bool_iff in E. split; assumption.
  - split; [exact A|]. replace (ln - ld - 1 + 1)%Z with (ln - ld)%Z by lia.
    apply Qnot_le_lt. intros H. apply Qle_bool_iff in H. congruence.
Qed.

Lemma fl_exact_int (x : Q) (z : Z) :
  (x == inject_Z z)%Q -> (Z.abs z < 2 ^ 53)%Z -> (fl x == x)%Q.
Proof.
  intros Hx Hz. unfold fl. destruct (Qeq_bool x 0) eqn:E0.
  - apply Qeq_bool_iff in E0. now rewrite E0.
  - apply Qeq_bool_neq in E0. cbv zeta.
    assert (Ha : (Qabs x == inject_Z (Z.abs z))%Q).
    { rewrite Hx. destruct (Z.abs_spec z) as [[H1 ->]|[H1 ->]].
      - apply Qabs_pos. change 0%Q with (inject_Z 0). rewrite <- Zle_Qle. exact H1.
      - rewrite Qabs_neg.
        + now rewrite inject_Z_opp.
        + change 0%Q with (inject_Z 0). rewrite <- Zle_Qle. lia. }
    assert (Hz0 : (1 <= Z.abs z)%Z).
    { assert (z <> 0%Z); [|lia]. intros ->. apply E0. exact Hx. }
    assert (Hpos : (0 < Qabs x)%Q).
    { rewrite Ha. change 0%Q with (inject_Z 0). rewrite <- Zlt_Qlt. lia. }
    destruct (ilog2_spec (Qabs x) Hpos) as [K1 K2].
    set (k := ilog2 (Qabs x)) in *.
    assert (Hk0 : (0 <= k)%Z).
    { assert (H : (Qpower 2 0 < Qpower 2 (k + 1))%Q).
      { eapply Qle_lt_trans; [|exact K2]. rewrite Ha.
        change (Qpower 2 0) with (inject_Z 1). rewrite <- Zle_Qle. exact Hz0. }
      assert (H12 : (1 < 2)%Q) by reflexivity.
      pose proof (Qpower_lt_compat_l_inv 2 0 (k + 1) H H12). lia. }
    assert (Hk1 : (k < 53)%Z).
    { assert (H : (Qpower 2 k < Qpower 2 53)%Q).
      { eapply Qle_lt_trans; [exact K1|]. rewrite Ha.
        change 2%Q with (inject_Z 2). rewrite <- Zpower_Qpower by lia.
        rewrite <- Zlt_Qlt. exact Hz. }
      assert (H12 : (1 < 2)%Q) by reflexivity.
      pose proof (Qpower_lt_compat_l_inv 2 k 53 H H12). lia. }
    rewrite Z.max_l by lia.
    assert (F1 : (/ Qpower 2 (k - 52) == Qpower 2 (52 - k))%Q).
    { rewrite <- Qpower_opp. replace (- (k - 52))%Z with (52 - k)%Z by lia. reflexivity. }
    assert (F2 : (Qpower 2 (52 - k) == inject_Z (2 ^ (52 - k)))%Q).
    { rewrite Zpower_Qpower by lia. reflexivity. }
    assert (F3 : (Qpower 2 (52 - k) * Qpower 2 (k - 52) == 1)%Q).
    { rewrite <- Qpower_plus by discriminate.
      replace (52 - k + (k - 52))%Z with 0%Z by lia. reflexivity. }
    assert (Hm : (Qabs x / Qpower 2 (k - 52) == inject_Z (Z.abs z * 2 ^ (52 - k)))%Q).
    { unfold Qdiv. rewrite F1, F2, Ha, inject_Z_mult. reflexivity. }
    rewrite (round_half_even_int _ _ Hm).
    assert (Hy : (inject_Z (Z.abs z * 2 ^ (52 - k)) * Qpower 2 (k - 52) == Qabs x)%Q).
    { rewrite inject_Z_mult, <- F2, <- Qmult_assoc, F3, Ha. ring. }
    destruct (Qnum x <? 0)%Z eqn:Es.
    + rewrite Hy. apply Z.ltb_lt in Es. rewrite Qabs_neg; [lra|].
      unfold Qle. cbn [Qnum Qden]. lia.
    + rewrite Hy. apply Z.ltb_ge in Es. apply Qabs_pos.
      unfold Qle. cbn [Qnum Qden]. lia.
Qed.

Lemma round2_spec (x : Q) : rounded_to_cents x (round2 x).
Proof.
  exists (round_half_even (x * 100)). split; [reflexivity|].
  apply round_half_even_spec.
Qed.

Lemma rounded_to_cents_nonneg (x r : Q) :
  (0 <= x)%Q -> rounded_to_cents x r -> (0 <= r)%Q.
Proof.
  intros Hx [m (-> & Hm & _)]. apply fl_nonneg.
  apply Qabs_Qle_condition in Hm. destruct Hm as [_ Hm].
  assert (Hz : (-1 < m)%Z).
  { rewrite Zlt_Qlt. change (inject_Z (-1)) with (-1)%Q. lra. }
  apply Qle_shift_div_l; [reflexivity|]. rewrite Qmult_0_l.
  change 0%Q with (inject_Z 0). rewrite <- Zle_Qle. lia.
Qed.

(** The float nearest to one tenth. *)
Lemma fl_one_tenth : (fl (1 # 10) == 3602879701896397 # 36028797018963968)%Q.
Proof. vm_compute. reflexivity. Qed.

(** Five descendants and a success probability of 0.003: the float product
    is 9.985000000000001 and the score 9.99, where the exact product 9.985
    would be rounded to 9.98. *)
Lemma score_binary_rounding :
  let p := fl (3 # 1000) in
  (round2 (float_mul (fl 5) (float_sub 2 p)) == fl (999 # 100))%Q
  /\ (inject_Z (round_half_even ((5 * (2 - (3 # 1000))) * 100)) / 100 == 998 # 100)%Q.
Proof. split; vm_compute; reflexivity. Qed.

Lemma nat_Q_nonneg (n : nat) : (0 <= nat_Q n)%Q.
Proof. unfold nat_Q, Qle; simpl. lia. Qed.

(** ** intervention_ranking *)

Lemma mapM_spec {A B : Type} (f : A -> result B) (g : B -> A) (P : B -> Prop)
    (l : list A) :
  (forall x, In x l -> exists y, f x = Ok y /\ P y /\ g y = x) ->
  exists ys, mapM f l = Ok ys /\ Forall P ys /\ map g ys = l.
Proof.
  induction l as [|x r IH]; intros H.
  - exists []. simpl. auto.
  - destruct (H x (or_introl eq_refl)) as [y [Hy [HP Hg]]].
    destruct IH as [ys [Hys [HF Hm]]]; [intros; apply H; now right|].
    exists (y :: ys). simpl. rewrite Hy, Hys. simpl.
    split; auto. split; [now constructor | now rewrite Hg, Hm].
Qed.

Lemma ranking_of_spec (c : HybridChain) (node_id : string) :
  wf_chain c = true ->
  In node_id (nodes (graph c)) ->
  exists r, ranking_of c node_id = Ok r /\ ranking_ok c r /\ r_node_id r = node_id.
Proof.
  intros Hwf Hin. pose proof (wf_chain_graph_ok c Hwf) as Hg.
  destruct (descendants_spec (graph c) Hg node_id Hin) as [des [H1 [H2 H3]]].
  unfold ranking_of. rewrite H1. cbn [bind]. eexists. split; [reflexivity|].
  split; [|reflexivity]. unfold ranking_ok.
  cbn [r_node_id r_downstream_impact r_in_degree r_out_degree r_score].
  split; [exact Hin|]. exists des.
  split; [exact H2|]. split; [exact H3|]. split; [reflexivity|].
  split; [reflexivity|]. split; [reflexivity|].
  unfold rounded_score, raw_score, float_mul, float_sub.
  destruct (get_entity c node_id) as [[]|]; try reflexivity.
  apply round2_spec.
Qed.

(** C5, as the code has it. [intervention_ranking] returns one record per
    node; the record of a node holds the size of its descendant set and its
    degrees. The score of a node that is no action is the integer
    [descendants * (1 + in_degree)]; the score of an action is that count
    multiplied, in binary64 arithmetic, by [2.0 - success_probability] and
    rounded to two decimals, ties to the even digit. The records are in
    decreasing order of the score. No score is negative when every action
    has a success probability of at most 2. *)
Theorem intervention_ranking_spec (c : HybridChain) :
  wf_chain c = true ->
  exists l,
    intervention_ranking c = Ok l
    /\ Permutation (map r_node_id l) (dict_keys (entities c))
    /\ Forall (ranking_ok c) l
    /\ StronglySorted score_ge l
    /\ ((forall k a, In (k, EAction a) (entities c) -> (success_probability a <= 2)%Q) ->
        Forall (fun r => (0 <= r_score r)%Q) l).
Proof.
  intros Hwf. pose proof (proj1 (wf_chain_ok c) Hwf) as [Hg [Hn He]].
  destruct (mapM_spec (ranking_of c) r_node_id (ranking_ok c) (nodes (graph c)))
    as [rs [H1 [H2 H3]]].
  { intros x Hx. now apply ranking_of_spec. }
  exists (sort_desc r_score rs). unfold intervention_ranking. rewrite H1. simpl.
  pose proof (sort_desc_perm r_score rs) as Hp.
  split; [reflexivity|]. split; [|split; [|split]].
  - unfold entities. rewrite <- Hn, <- H3. now apply Permutation_map.
  - apply (Forall_perm _ rs); auto. now symmetry.
  - apply sort_desc_sorted.
  - intros Hprob. apply (Forall_perm _ rs); [now symmetry|].
    eapply Forall_impl; [|exact H2]. intros r [_ [des (_ & _ & _ & _ & _ & Hs)]].
    destruct (get_entity c (r_node_id r)) as [e|] eqn:Ee;
      [|rewrite Hs; apply nat_Q_nonneg].
    destruct e; try (rewrite Hs; apply nat_Q_nonneg).
    eapply rounded_to_cents_nonneg; [|exact Hs].
    apply fl_nonneg. apply Qmult_le_0_compat; [apply fl_nonneg, nat_Q_nonneg|].
    apply fl_nonneg. apply dict_get_Some_In in Ee. apply Hprob in Ee. lra.
Qed.

Lemma intervention_ranking_spec_witness :
  wf_chain simple_chain = true
  /\ exists l, intervention_ranking simple_chain = Ok l
               /\ StronglySorted score_ge l
               /\ Forall (fun r => (0 <= r_score r)%Q) l.
Proof.
  split; [vm_compute; reflexivity|].
  destruct (intervention_ranking_spec simple_chain) as [l (H1 & _ & _ & H4 & H5)].
  - vm_compute; reflexivity.
  - exists l. split; [exact H1|]. split; [exact H4|]. apply H5.
    intros k a Hin. vm_compute in Hin.
    repeat (destruct Hin as [Hin|Hin];
            [inversion Hin; subst; vm_compute; discriminate|]).
    destruct Hin.
Defined.

(** C5 as stated fails: an action with success probability 3 and one
    descendant is ranked with the score -1. *)
Lemma intervention_ranking_negative_counterexample :
  wf_chain fragile_chain = true
  /\ exists l r,
       intervention_ranking fragile_chain = Ok l
       /\ In r l /\ r_node_id r = "x" /\ (r_score r < 0)%Q.
Proof.
  split; [vm_compute; reflexivity|].
  eexists. eexists. split; [vm_compute; reflexivity|].
  split; [right; left; reflexivity|]. split; reflexivity.
Qed.

(** ** Simple paths *)

Lemma NoDup_flat_map {A B : Type} (f : A -> list B) (l : list A) :
  NoDup l ->
  (forall a, In a l -> NoDup (f a)) ->
  (forall a b x, In a l -> In b l -> In x (f a) -> In x (f b) -> a = b) ->
  NoDup (flat_map f l).
Proof.
  induction l as [|a r IH]; simpl; intros Hnd Hf Hdis; [constructor|].
  inversion Hnd as [|? ? Hnot Hnd']; subst.
  apply NoDup_app.
  - apply Hf. now left.
  - apply IH; auto. intros x y z Hx Hy. apply Hdis; now right.
  - intros x Hx Hx'. apply in_flat_map in Hx'. destruct Hx' as [b [Hb Hxb]].
    assert (a = b) by (apply (Hdis a b x); auto; now right). subst. tauto.
Qed.

Lemma path_to_last (g : DiGraph) (t : string) (q : list string) :
  path_to g t q -> In t q.
Proof.
  induction q as [|x r IH]; simpl; [tauto|].
  destruct r as [|y r']; [intros ->; now left|].
  intros [_ H]. right. now apply IH.
Qed.

Lemma path_to_unique (g : DiGraph) (t t' : string) (q : list string) :
  path_to g t q -> path_to g t' q -> t = t'.
Proof.
  induction q as [|x r IH]; simpl; [tauto|].
  destruct r as [|y r']; [congruence|].
  intros [_ H] [_ H']. now apply IH.
Qed.

Lemma path_to_nodes (g : DiGraph) (t x : string) (q : list string) :
  graph_ok g -> In x (nodes g) -> path_to g t (x :: q) -> incl (x :: q) (nodes g).
Proof.
  intros Hg. revert x. induction q as [|y r IH]; intros x Hx Hp.
  - intros z [<-|[]]; auto.
  - destruct Hp as [He Hp]. intros z [<-|Hz]; auto.
    apply (IH y); auto. now apply (edge_nodes g Hg x y).
Qed.

Section SimplePaths.
Variable g : DiGraph.
Hypothesis Hg : graph_ok g.
Variable t : string.

Lemma simple_paths_from_spec (depth : nat) :
  forall pre x p,
    ~ In t pre -> ~ In x pre ->
    (In p (simple_paths_from depth g [t] pre x) <->
     exists q, p = rev pre ++ x :: q
               /\ path_to g t (x :: q)
               /\ NoDup (x :: q)
               /\ (forall y, In y (x :: q) -> ~ In y pre)
               /\ length q <= depth).
Proof.
  induction depth as [|d IH]; intros pre x p Ht Hx.
  - cbn [simple_paths_from]. rewrite app_nil_r. unfold mem at 1. cbn [existsb].
    rewrite orb_false_r. destruct (String.eqb_spec x t) as [->|Hne].
    + split.
      * intros [<-|[]]. exists []. simpl.
        repeat split; auto.
        -- constructor; auto using NoDup_nil.
        -- intros y [<-|[]]. assumption.
      * intros [q (-> & Hp & Hnd & Hdis & Hlen)].
        destruct q; [|simpl in Hlen; lia]. left. simpl. reflexivity.
    + split; [intros []|].
      intros [q (-> & Hp & Hnd & Hdis & Hlen)].
      destruct q; [|simpl in Hlen; lia]. simpl in Hp. congruence.
  - cbn [simple_paths_from]. unfold mem at 1. cbn [existsb].
    rewrite !orb_false_r.
    destruct (String.eqb_spec x t) as [->|Hne].
    + rewrite String.eqb_refl. simpl. rewrite andb_false_r. simpl. split.
      * intros [<-|[]]. exists []. simpl.
        repeat split; auto.
        -- constructor; auto using NoDup_nil.
        -- intros y [<-|[]]. assumption.
        -- lia.
      * intros [q (-> & Hp & Hnd & Hdis & Hlen)].
        destruct q as [|c q]; [left; simpl; reflexivity|].
        exfalso. destruct Hp as [_ Hp]. apply path_to_last in Hp.
        inversion Hnd; tauto.
    + assert (mem t pre = false) as Em by now apply mem_notIn.
      rewrite Em. rewrite (proj2 (String.eqb_neq t x)) by congruence.
      cbn [negb andb app]. rewrite in_flat_map. split.
      * intros [c [Hc Hin]].
        destruct (mem c (x :: pre)) eqn:Ec; [destruct Hin|].
        apply mem_notIn in Ec.
        apply IH in Hin; auto.
        2:{ intros [E|Hin']; [congruence|tauto]. }
        destruct Hin as [q (-> & Hp & Hnd & Hdis & Hlen)].
        exists (c :: q). simpl. rewrite <- app_assoc. simpl.
        split; [reflexivity|]. split; [|split; [|split]].
        -- split; auto. now apply In_successors.
        -- constructor; auto. intros Hin. apply (Hdis x Hin). now left.
        -- intros y [<-|Hy]; auto. intros Hy'. apply (Hdis y Hy). now right.
        -- simpl. lia.
      * intros [q (-> & Hp & Hnd & Hdis & Hlen)].
        destruct q as [|c q]; [simpl in Hp; congruence|].
        destruct Hp as [He Hp]. exists c. split; [now apply In_successors|].
        inversion Hnd as [|? ? Hxq Hnd']; subst.
        assert (~ In c (x :: pre)) as Hc.
        { intros [E|Hin]; [subst; apply Hxq; now left|].
          apply (Hdis c); auto. right. now left. }
        rewrite (proj2 (mem_notIn _ _) Hc).
        apply IH; auto.
        { intros [E|Hin']; [congruence|tauto]. }
        exists q. simpl. rewrite <- app_assoc. simpl.
        split; [reflexivity|]. split; [assumption|]. split; [assumption|]. split.
        -- intros y Hy [E|Hin].
           ++ subst y. exact (Hxq Hy).
           ++ apply (Hdis y); auto. now right.
        -- simpl in Hlen. lia.
Qed.

Lemma simple_paths_from_NoDup (depth : nat) :
  forall pre x,
    ~ In t pre -> ~ In x pre ->
    NoDup (simple_paths_from depth g [t] pre x).
Proof.
  induction depth as [|d IH]; intros pre x Ht Hx.
  - cbn [simple_paths_from]. rewrite app_nil_r.
    destruct (mem x [t]); constructor; auto using NoDup_nil.
  - cbn [simple_paths_from]. unfold mem at 1. cbn [existsb].
    rewrite !orb_false_r.
    destruct (String.eqb_spec x t) as [->|Hne].
    + rewrite String.eqb_refl. simpl. rewrite andb_false_r. simpl.
      constructor; auto using NoDup_nil.
    + assert (mem t pre = false) as Em by now apply mem_notIn.
      rewrite Em. rewrite (proj2 (String.eqb_neq t x)) by congruence.
      cbn [negb andb app].
      apply NoDup_flat_map.
      * now apply NoDup_successors.
      * intros c Hc. destruct (mem c (x :: pre)) eqn:Ec; [constructor|].
        apply mem_notIn in Ec. apply IH; auto.
        intros [E|Hin']; [congruence|tauto].
      * intros a b p Ha Hb Hpa Hpb.
        destruct (mem a (x :: pre)) eqn:Ea; [destruct Hpa|].
        destruct (mem b (x :: pre)) eqn:Eb; [destruct Hpb|].
        apply mem_notIn in Ea, Eb.
        assert (Ht' : ~ In t (x :: pre)) by (intros [E|Hin']; [congruence|tauto]).
        apply simple_paths_from_spec in Hpa, Hpb; auto.
        destruct Hpa as [qa [Epa _]]. destruct Hpb as [qb [Epb _]].
        rewrite Epa in Epb. apply app_inv_head in Epb. congruence.
Qed.
End SimplePaths.

Lemma order_nodes (g : DiGraph) : order g = length (nodes g).
Proof. unfold order, nodes, dict_keys. now rewrite length_map. Qed.

Lemma all_simple_paths_nodes (g : DiGraph) (s t : string) :
  In s (nodes g) -> In t (nodes g) ->
  all_simple_paths g s t = Ok (simple_paths_from (order g - 1) g [t] [] s).
Proof.
  intros Hs Ht. unfold all_simple_paths, has_node.
  rewrite (proj2 (mem_In _ _) Hs), (proj2 (mem_In _ _) Ht). simpl.
  destruct (order g) as [|n] eqn:E.
  - rewrite order_nodes in E. destruct (nodes g); [destruct Hs|discriminate].
  - simpl. now rewrite Nat.sub_0_r.
Qed.

Lemma simple_paths_from_source (g : DiGraph) (s t : string) (p : list string) :
  graph_ok g -> In s (nodes g) ->
  (In p (simple_paths_from (order g - 1) g [t] [] s) <-> simple_path g s t p).
Proof.
  intros Hg Hs. rewrite (simple_paths_from_spec g t (order g - 1) [] s p); auto.
  unfold simple_path. simpl. split.
  - intros [q (-> & Hp & Hnd & _ & _)]. repeat split; eauto.
  - intros [[q ->] [Hp Hnd]]. exists q. repeat split; auto.
    pose proof (path_to_nodes g t s q Hg Hs Hp) as Hincl.
    pose proof (NoDup_incl_length Hnd Hincl) as Hlen.
    rewrite order_nodes. simpl in Hlen. lia.
Qed.

(** ** narrative_threads *)

Section Threads.
Variable g : DiGraph.
Hypothesis Hg : graph_ok g.
Variable ids : list string.

Lemma threads_inner_fold (s : string) (sinks : list string) :
  In s (nodes g) ->
  incl sinks (nodes g) ->
  forall acc,
    fold_left
      (fun threads sink =>
         ts <- threads ;;
         paths <- all_simple_paths g s sink ;;
         Ok (ts ++ filter (touches ids) paths))
      sinks (Ok acc)
    = Ok (acc ++ flat_map (threads_between g ids s) sinks).
Proof.
  intros Hs. induction sinks as [|t r IH]; intros Hincl acc; simpl.
  - now rewrite app_nil_r.
  - rewrite all_simple_paths_nodes; auto; [|apply Hincl; now left]. simpl.
    rewrite IH; [|intros x Hx; apply Hincl; now right].
    now rewrite <- app_assoc.
Qed.

Lemma threads_outer_fold (sources sinks : list string) :
  incl sources (nodes g) ->
  incl sinks (nodes g) ->
  forall acc,
    fold_left
      (fun threads source =>
         fold_left
           (fun threads sink =>
              ts <- threads ;;
              paths <- all_simple_paths g source sink ;;
              Ok (ts ++ filter (touches ids) paths))
           sinks threads)
      sources (Ok acc)
    = Ok (acc ++ flat_map (fun s => flat_map (threads_between g ids s) sinks) sources).
Proof.
  intros Hsrc Hsnk. revert Hsrc. induction sources as [|s r IH]; intros Hsrc acc; simpl.
  - now rewrite app_nil_r.
  - rewrite threads_inner_fold; auto; [|apply Hsrc; now left].
    rewrite IH; [|intros x Hx; apply Hsrc; now right].
    now rewrite <- app_assoc.
Qed.

Lemma In_threads_between (s t : string) (p : list string) :
  In s (nodes g) ->
  (In p (threads_between g ids s t) <-> simple_path g s t p /\ touches ids p = true).
Proof.
  intros Hs. unfold threads_between. rewrite filter_In.
  now rewrite simple_paths_from_source.
Qed.

Lemma threads_NoDup (sources sinks : list string) :
  NoDup sources -> NoDup sinks -> incl sources (nodes g) ->
  NoDup (flat_map (fun s => flat_map (threads_between g ids s) sinks) sources).
Proof.
  intros Hn1 Hn2 Hincl. apply NoDup_flat_map; auto.
  - intros s Hs. apply NoDup_flat_map; auto.
    + intros t Ht. unfold threads_between. apply NoDup_filter.
      apply simple_paths_from_NoDup; auto.
    + intros a b p Ha Hb Hpa Hpb.
      apply In_threads_between in Hpa, Hpb; auto.
      destruct Hpa as [(_ & Hpa & _) _]. destruct Hpb as [(_ & Hpb & _) _].
      eapply path_to_unique; eauto.
  - intros a b p Ha Hb Hpa Hpb.
    apply in_flat_map in Hpa, Hpb.
    destruct Hpa as [ta [_ Hpa]]. destruct Hpb as [tb [_ Hpb]].
    apply In_threads_between in Hpa, Hpb; auto.
    destruct Hpa as [([qa Ea] & _) _]. destruct Hpb as [([qb Eb] & _) _].
    congruence.
Qed.
End Threads.

Lemma touches_spec (ids p : list string) :
  touches ids p = true <-> exists n, In n p /\ In n ids.
Proof.
  unfold touches. rewrite existsb_exists. split.
  - intros [n [Hn Hm]]. exists n. split; auto. now apply mem_In.
  - intros [n [Hn Hm]]. exists n. split; auto. now apply mem_In.
Qed.

Lemma narrative_ids_spec (c : HybridChain) (n : string) :
  wf_chain c = true ->
  (In n (nodup string_dec (map entity_id (get_entities_by_type c is_narrative)))
   <-> exists e, get_entity c n = Some e /\ is_narrative e = true).
Proof.
  intros Hwf. pose proof (proj1 (wf_chain_ok c) Hwf) as [Hg [Hn He]].
  assert (Hnd : NoDup (dict_keys (_entities c))) by (rewrite <- Hn; apply Hg).
  rewrite nodup_In, in_map_iff. unfold get_entities_by_type, get_entity. split.
  - intros [e [<- Hin]]. apply filter_In in Hin. destruct Hin as [Hin Hnar].
    apply in_map_iff in Hin. destruct Hin as [[k e'] [Heq Hin]]. simpl in Heq. subst e'.
    exists e. split; auto. apply dict_In_get; auto.
    now rewrite <- (He k e Hin).
  - intros [e [Hget Hnar]]. apply dict_get_Some_In in Hget.
    exists e. split; [symmetry; now apply He|].
    apply filter_In. split; auto. apply in_map_iff. now exists (n, e).
Qed.

(** C7. [narrative_threads] returns, each once, exactly the simple directed
    paths from a zero-in-degree node to a zero-out-degree node that contain
    at least one Narrative entity; it returns the empty list when the chain
    has no Narrative entity. *)
Theorem narrative_threads_spec (c : HybridChain) :
  wf_chain c = true ->
  exists threads,
    narrative_threads c = Ok threads
    /\ NoDup threads
    /\ (forall p, In p threads <-> source_sink_path (graph c) p /\ has_narrative c p)
    /\ (get_entities_by_type c is_narrative = [] -> threads = []).
Proof.
  intros Hwf. pose proof (wf_chain_graph_ok c Hwf) as Hg.
  pose proof (narrative_ids_spec c) as Hids.
  unfold narrative_threads.
  remember (nodup string_dec (map entity_id (get_entities_by_type c is_narrative)))
    as ids eqn:Eids.
  assert (Hnar : forall p, has_narrative c p <-> touches ids p = true).
  { intros p. rewrite touches_spec. unfold has_narrative. split.
    - intros [n [e (H1 & H2 & H3)]]. exists n. split; auto. apply Hids; eauto.
    - intros [n [H1 H2]]. apply Hids in H2; auto. destruct H2 as [e [H2 H3]]. eauto. }
  destruct ids as [|i ids'].
  - exists []. split; [reflexivity|]. split; [constructor|]. split; [|reflexivity].
    intros p. split; [intros []|]. intros [_ Hp]. apply Hnar in Hp.
    apply touches_spec in Hp. destruct Hp as [n [_ []]].
  - assert (Hsrc : incl (graph_sources (graph c)) (nodes (graph c))).
    { intros x Hx. now apply filter_In in Hx. }
    assert (Hsnk : incl (graph_sinks (graph c)) (nodes (graph c))).
    { intros x Hx. now apply filter_In in Hx. }
    rewrite (threads_outer_fold (graph c) (i :: ids') _ _ Hsrc Hsnk []). simpl app.
    eexists. split; [reflexivity|]. split; [|split].
    + apply threads_NoDup; auto; apply NoDup_filter; apply Hg.
    + intros p. rewrite in_flat_map. unfold source_sink_path. split.
      * intros [s [Hs Hp]]. apply in_flat_map in Hp. destruct Hp as [t [Ht Hp]].
        apply In_threads_between in Hp; auto. destruct Hp as [Hp Htouch].
        split; [|now apply Hnar].
        apply filter_In in Hs, Ht. destruct Hs as [Hs Hs0]. destruct Ht as [Ht Ht0].
        apply Nat.eqb_eq in Hs0, Ht0. exists s, t. auto.
      * intros [[s [t (Hs & Hs0 & Ht & Ht0 & Hp)]] Hn].
        exists s. split; [apply filter_In; split; auto; now apply Nat.eqb_eq|].
        apply in_flat_map. exists t.
        split; [apply filter_In; split; auto; now apply Nat.eqb_eq|].
        apply In_threads_between; auto. split; auto. now apply Hnar.
    + intros Hnone. rewrite Hnone in Eids. discriminate.
Qed.

(** ** JSON round trip *)

Lemma strs_roundtrip (l : list string) :
  mapM (fun j => match j with JStr s => Ok s | _ => Raise ValidationError end)
       (map JStr l) = Ok l.
Proof. induction l as [|x r IH]; simpl; auto. now rewrite IH. Qed.

Lemma actor_type_roundtrip (t : ActorType) :
  enum_of_value actor_type_value actor_types (actor_type_value t) = Some t.
Proof. destruct t; reflexivity. Qed.

Lemma action_domain_roundtrip (t : ActionDomain) :
  enum_of_value action_domain_value action_domains (action_domain_value t) = Some t.
Proof. destruct t; reflexivity. Qed.

Lemma capability_type_roundtrip (t : CapabilityType) :
  enum_of_value capability_type_value capability_types (capability_type_value t) = Some t.
Proof. destruct t; reflexivity. Qed.

Lemma infrastructure_type_roundtrip (t : InfrastructureType) :
  enum_of_value infrastructure_type_value infrastructure_types
    (infrastructure_type_value t) = Some t.
Proof. destruct t; reflexivity. Qed.

Lemma narrative_type_roundtrip (t : NarrativeType) :
  enum_of_value narrative_type_value narrative_types (narrative_type_value t) = Some t.
Proof. destruct t; reflexivity. Qed.

Lemma effect_type_roundtrip (t : EffectType) :
  enum_of_value effect_type_value effect_types (effect_type_value t) = Some t.
Proof. destruct t; reflexivity. Qed.

Lemma edge_type_roundtrip (t : EdgeType) :
  enum_of_value edge_type_value edge_types (edge_type_value t) = Some t.
Proof. destruct t; reflexivity. Qed.

Ltac roundtrip_step :=
  first
    [ rewrite strs_roundtrip
    | rewrite actor_type_roundtrip
    | rewrite action_domain_roundtrip
    | rewrite capability_type_roundtrip
    | rewrite infrastructure_type_roundtrip
    | rewrite narrative_type_roundtrip
    | rewrite effect_type_roundtrip
    | rewrite edge_type_roundtrip ];
  cbn.

(** Constructing an entity from its dump gives the entity back. *)
Lemma construct_model_dump (e : Entity) :
  construct (type_name e)
            (dict_del "_type" (dict_set "_type" (JStr (type_name e)) (model_dump e)))
  = Ok e.
Proof.
  destruct e as [a|a|c|i|n|t|e].
  - destruct a. cbn. unfold req_enum, strs_default, j_strs. cbn.
    repeat roundtrip_step. reflexivity.
  - destruct a as [? ? ? ? ? ? ? ai pi ? du ? ?].
    cbn. unfold enum_default, req_enum, strs_default, opt_str, opt_num, j_strs. cbn.
    repeat roundtrip_step. destruct ai, pi, du; cbn; repeat roundtrip_step; reflexivity.
  - destruct c as [? ? ? ? ? tt]. cbn. unfold req_enum, opt_num. cbn.
    repeat roundtrip_step. destruct tt; reflexivity.
  - destruct i as [? ? ? re ?]. cbn. unfold req_enum, opt_str. cbn.
    repeat roundtrip_step. destruct re; reflexivity.
  - destruct n as [? ? ? ? ta ? ?]. cbn. unfold req_enum, strs_default, opt_str, j_strs. cbn.
    repeat roundtrip_step. destruct ta; cbn; repeat roundtrip_step; reflexivity.
  - destruct t. cbn. unfold strs_default, j_strs. cbn.
    repeat roundtrip_step. reflexivity.
  - destruct e. cbn. unfold req_enum. cbn.
    repeat roundtrip_step. reflexivity.
Qed.

Lemma relationship_json_roundtrip (u v : string) (d : EdgeData) :
  relationship_of_json (relationship_json (u, v, Some d))
  = Ok {| source_id := u; target_id := v; edge_type := ed_edge_type d;
          resource_id := ed_resource_id d; description := ed_description d |}.
Proof.
  destruct d as [et ri de]. unfold relationship_json, relationship_of_json.
  cbn. rewrite edge_type_roundtrip. cbn. unfold opt_str. cbn.
  destruct ri; reflexivity.
Qed.

Lemma add_node_None_present (n : string) (g : DiGraph) :
  In n (nodes g) -> add_node n None g = g.
Proof.
  intros H. unfold add_node. apply dict_get_In in H. destruct H as [a Ha].
  now rewrite Ha.
Qed.

Lemma rebuilt_nodes (cid nm descr : string) (ents : list (string * Entity))
    (es : list (string * string * option EdgeData)) :
  nodes (graph (rebuilt cid nm descr ents es)) = map fst ents.
Proof. unfold nodes, dict_keys. simpl. rewrite map_map. reflexivity. Qed.

Lemma load_entities (cid nm descr : string) (l : list (string * Entity)) :
  forall acc,
    NoDup (map fst (acc ++ l)) ->
    (forall k e, In (k, e) l -> k = entity_id e) ->
    fold_left load_entity
      (map (fun p => (fst p, JObj (dict_set "_type" (JStr (type_name (snd p)))
                                     (model_dump (snd p))))) l)
      (Ok (rebuilt cid nm descr acc []))
    = Ok (rebuilt cid nm descr (acc ++ l) []).
Proof.
  induction l as [|[k e] r IH]; intros acc Hnd Hid.
  - simpl. now rewrite app_nil_r.
  - cbn [map fold_left fst snd]. unfold load_entity at 2. cbn [bind snd].
    rewrite dict_get_set_eq, construct_model_dump. cbn [bind].
    assert (Hk : k = entity_id e) by (apply Hid; now left).
    assert (Hout : ~ In k (map fst acc)).
    { rewrite map_app in Hnd. simpl in Hnd. apply NoDup_remove_2 in Hnd.
      intros Hin. apply Hnd. apply in_or_app. now left. }
    replace (snd (add_entity e (rebuilt cid nm descr acc [])))
      with (rebuilt cid nm descr (acc ++ [(k, e)]) []).
    + rewrite IH.
      * now rewrite <- app_assoc.
      * now rewrite <- app_assoc.
      * intros k' e' Hin. apply Hid. now right.
    + unfold add_entity, rebuilt. cbn [snd graph _entities chain_id name
                                          chain_description].
      rewrite <- Hk. f_equal.
      * unfold add_node. cbn [g_node g_edges].
        assert (dict_get k (map (fun p : string * Entity =>
                   (fst p, Some {| nd_entity_type := type_name (snd p);
                                   nd_data := snd p |})) acc) = None) as E.
        { apply dict_get_None. unfold dict_keys. now rewrite map_map. }
        rewrite E. rewrite dict_set_notin.
        -- now rewrite map_app.
        -- unfold dict_keys. now rewrite map_map.
      * now rewrite dict_set_notin.
Qed.

Lemma load_relationships (cid nm descr : string) (ents : list (string * Entity))
    (rels : list (string * string * option EdgeData)) :
  forall acc,
    NoDup (map fst (acc ++ rels)) ->
    (forall u v d, In (u, v, d) rels ->
                   In u (map fst ents) /\ In v (map fst ents) /\ d <> None) ->
    fold_left load_relationship (map relationship_json rels)
      (Ok (rebuilt cid nm descr ents acc))
    = Ok (rebuilt cid nm descr ents (acc ++ rels)).
Proof.
  induction rels as [|[[u v] d] r IH]; intros acc Hnd Hok.
  - simpl. now rewrite app_nil_r.
  - destruct (Hok u v d (or_introl eq_refl)) as (Hu & Hv & Hd).
    destruct d as [d|]; [|congruence].
    cbn [map fold_left]. unfold load_relationship at 2. cbn [bind].
    rewrite relationship_json_roundtrip. cbn [bind].
    assert (Hout : ~ In (u, v) (map fst acc)).
    { rewrite map_app in Hnd. simpl in Hnd. apply NoDup_remove_2 in Hnd.
      intros Hin. apply Hnd. apply in_or_app. now left. }
    unfold add_relationship. cbn [source_id target_id _entities rebuilt].
    unfold dict_keys.
    rewrite (proj2 (mem_In _ _) Hu), (proj2 (mem_In _ _) Hv). cbn [negb].
    cbn [edge_type resource_id description chain_id name chain_description graph].
    replace {| ed_edge_type := ed_edge_type d; ed_resource_id := ed_resource_id d;
               ed_description := ed_description d |} with d by now destruct d.
    match goal with
    | |- fold_left _ _ (Ok ?c) = _ =>
        replace c with (rebuilt cid nm descr ents (acc ++ [(u, v, Some d)]))
    end.
    + rewrite IH.
      * now rewrite <- app_assoc.
      * now rewrite <- app_assoc.
      * intros u' v' d' Hin. apply Hok. now right.
    + unfold rebuilt. f_equal.
      set (G0 := {| g_node := map (fun p : string * Entity =>
                                (fst p, Some {| nd_entity_type := type_name (snd p);
                                                nd_data := snd p |})) ents;
                    g_edges := acc |}).
      assert (Hnu : In u (nodes G0)).
      { unfold nodes, dict_keys, G0. cbn [g_node]. now rewrite map_map. }
      assert (Hnv : In v (nodes G0)).
      { unfold nodes, dict_keys, G0. cbn [g_node]. now rewrite map_map. }
      unfold add_edge. cbn [graph].
      rewrite (add_node_None_present u G0 Hnu), (add_node_None_present v G0 Hnv).
      unfold G0. cbn [g_node g_edges]. now rewrite edge_set_notin.
Qed.

Lemma map_pair_eta {A B : Type} (l : list (A * B)) : map (fun p => (fst p, snd p)) l = l.
Proof. induction l as [|[a b] r IH]; simpl; congruence. Qed.

Lemma flat_map_ext_In {A B : Type} (f h : A -> list B) (l : list A) :
  (forall a, In a l -> f a = h a) -> flat_map f l = flat_map h l.
Proof.
  induction l as [|a r IH]; intros H; simpl; auto.
  rewrite H by now left. rewrite IH; auto. intros; apply H; now right.
Qed.

Section EdgeViews.
Variable g : DiGraph.
Hypothesis Hg : graph_ok g.

Lemma filter_source_group (a u : string) (X : list (string * option EdgeData)) :
  filter (fun e : string * string * option EdgeData => String.eqb (fst (fst e)) u)
         (map (fun p => (a, fst p, snd p)) X)
  = if String.eqb a u then map (fun p => (a, fst p, snd p)) X else [].
Proof.
  induction X as [|x r IH]; simpl.
  - now destruct (String.eqb a u).
  - rewrite IH. now destruct (String.eqb a u).
Qed.

Lemma filter_source_groups (u : string) (l : list string) :
  NoDup l ->
  filter (fun e : string * string * option EdgeData => String.eqb (fst (fst e)) u)
         (flat_map (fun a => map (fun p => (a, fst p, snd p)) (succ_items g a)) l)
  = if mem u l then map (fun p => (u, fst p, snd p)) (succ_items g u) else [].
Proof.
  induction l as [|a r IH]; intros Hnd; [reflexivity|].
  inversion Hnd as [|? ? Hnot Hnd']; subst.
  cbn [flat_map]. rewrite filter_app, filter_source_group, IH by assumption.
  rewrite mem_cons. destruct (String.eqb_spec a u) as [->|Hne].
  - rewrite String.eqb_refl. apply mem_notIn in Hnot. rewrite Hnot.
    simpl. now rewrite app_nil_r.
  - rewrite (proj2 (String.eqb_neq u a)) by congruence. reflexivity.
Qed.

Lemma edges_data_keys_NoDup : NoDup (map fst (edges_data g)).
Proof.
  unfold edges_data. destruct Hg as [Hnd _].
  induction (nodes g) as [|a r IH]; [constructor|].
  inversion Hnd as [|? ? Hnot Hnd']; subst.
  cbn [flat_map]. rewrite map_app. apply NoDup_app; auto.
  - rewrite map_map. cbn [fst].
    pose proof (NoDup_successors g Hg a) as Hs. unfold successors in Hs.
    induction (succ_items g a) as [|x xs IHx]; [constructor|].
    simpl in *. inversion Hs as [|? ? Hx Hxs]; subst. constructor; auto.
    intros Hin. apply in_map_iff in Hin. destruct Hin as [y [Hy Hin]].
    inversion Hy as [Hf]. apply Hx. rewrite <- Hf. now apply in_map.
  - intros x Hx Hx'. apply in_map_iff in Hx, Hx'.
    destruct Hx as [[[a1 b1] d1] [E1 H1]]. destruct Hx' as [[[a2 b2] d2] [E2 H2]].
    apply in_map_iff in H1. destruct H1 as [p [Ep _]]. inversion Ep; subst.
    apply in_flat_map in H2. destruct H2 as [a' [Ha' H2]].
    apply in_map_iff in H2. destruct H2 as [q [Eq _]]. inversion Eq; subst.
    simpl in E2. inversion E2; subst. tauto.
Qed.

(** A graph with the same nodes whose edge list is [edges_data g] has the
    same [edges_data]. *)
Lemma edges_data_regrouped (g2 : DiGraph) :
  nodes g2 = nodes g -> g_edges g2 = edges_data g -> edges_data g2 = edges_data g.
Proof.
  intros Hn He. unfold edges_data. rewrite Hn.
  apply flat_map_ext_In. intros u Hu. f_equal.
  unfold succ_items at 1. rewrite He. unfold edges_data.
  rewrite filter_source_groups by apply Hg.
  rewrite (proj2 (mem_In _ _) Hu), map_map. cbn [fst snd]. apply map_pair_eta.
Qed.
End EdgeViews.

Lemma edges_labelled_spec (c : HybridChain) :
  edges_labelled c = true <->
  forall u v d, In (u, v, d) (g_edges (graph c)) -> d <> None.
Proof.
  unfold edges_labelled. rewrite forallb_forall. split.
  - intros H u v d Hin. apply H in Hin. simpl in Hin. now destruct d.
  - intros H [[u v] d] Hin. simpl. apply H in Hin. destruct d; congruence.
Qed.

(** C8. Deserialising the serialisation of a chain succeeds and yields a
    chain with the same entities under the same ids (hence the same count,
    variant and attribute values for every id) and the same relationships
    (hence the same count). *)
Theorem json_roundtrip (c : HybridChain) :
  wf_chain c = true ->
  edges_labelled c = true ->
  exists c',
    from_json (to_json c) = Ok c'
    /\ length (entities c') = length (entities c)
    /\ length (relationships c') = length (relationships c)
    /\ (forall id, get_entity c' id = get_entity c id)
    /\ entities c' = entities c
    /\ relationships c' = relationships c
    /\ chain_id c' = chain_id c.
Proof.
  intros Hwf Hlab. pose proof (proj1 (wf_chain_ok c) Hwf) as [Hg [Hn He]].
  pose proof (proj1 (edges_labelled_spec c) Hlab) as Hl.
  assert (Hnd : NoDup (map fst (_entities c))).
  { change (map fst (_entities c)) with (dict_keys (_entities c)).
    rewrite <- Hn. apply Hg. }
  exists (rebuilt (chain_id c) (name c) (chain_description c) (entities c)
                  (relationships c)).
  split.
  - unfold from_json, to_json. cbn [dict_get String.eqb Ascii.eqb Bool.eqb].
    unfold str_default. cbn [dict_get String.eqb Ascii.eqb Bool.eqb bind].
    change (new_chain (chain_id c) (name c) (chain_description c))
      with (rebuilt (chain_id c) (name c) (chain_description c) [] []).
    rewrite (load_entities _ _ _ (entities c) []); auto. cbn [bind app].
    rewrite (load_relationships _ _ _ (entities c) (relationships c) []); auto.
    + simpl. apply edges_data_keys_NoDup. exact Hg.
    + intros u v d Hin. apply In_edges_data in Hin. destruct Hin as [_ Hin].
      destruct Hg as (_ & _ & Hends). destruct (Hends u v d Hin) as [Hu Hv].
      unfold entities. change (map fst (_entities c)) with (dict_keys (_entities c)).
      rewrite <- Hn. repeat split; auto. now apply (Hl u v d).
  - assert (Hrel : relationships (rebuilt (chain_id c) (name c) (chain_description c)
                                    (entities c) (relationships c))
                   = relationships c).
    { unfold relationships at 1. apply edges_data_regrouped; auto.
      rewrite rebuilt_nodes. unfold entities. symmetry. exact Hn. }
    rewrite Hrel. repeat split; reflexivity.
Qed.

Lemma labelled_edge_set (u v : string) (x : EdgeData)
    (es : list (string * string * option EdgeData)) :
  forallb (fun e : string * string * option EdgeData =>
             match snd e with Some _ => true | None => false end) es = true ->
  forallb (fun e : string * string * option EdgeData =>
             match snd e with Some _ => true | None => false end)
          (edge_set u v (Some x) es) = true.
Proof.
  induction es as [|e es IH]; simpl; auto.
  intros H. apply andb_true_iff in H. destruct H as [H1 H2].
  destruct (edge_is u v e); simpl; auto. rewrite H1. auto.
Qed.

Lemma constructed_labelled (c : HybridChain) : constructed c -> edges_labelled c = true.
Proof.
  induction 1 as [| e c Hc IH | r c Hc IH].
  - reflexivity.
  - unfold edges_labelled in *. cbn [add_entity snd graph].
    now rewrite edges_add_node.
  - unfold add_relationship.
    destruct (mem (source_id r) (dict_keys (_entities c))); cbn [negb snd]; auto.
    destruct (mem (target_id r) (dict_keys (_entities c))); cbn [negb snd]; auto.
    unfold edges_labelled in *. cbn [graph]. rewrite edges_add_edge.
    now apply labelled_edge_set.
Qed.

Lemma json_roundtrip_witness :
  wf_chain simple_chain = true
  /\ edges_labelled simple_chain = true
  /\ exists c', from_json (to_json simple_chain) = Ok c'
                /\ get_entity c' "act2" = get_entity simple_chain "act2"
                /\ length (relationships c') = 7.
Proof.
  split; [vm_compute; reflexivity|]. split; [vm_compute; reflexivity|].
  destruct (json_roundtrip simple_chain) as [c' (H1 & _ & H3 & H4 & _)].
  - vm_compute; reflexivity.
  - vm_compute; reflexivity.
  - exists c'. split; [exact H1|]. split; [apply H4|]. rewrite H3. reflexivity.
Defined.

Lemma narrative_threads_spec_witness :
  wf_chain simple_chain = true
  /\ exists threads,
       narrative_threads simple_chain = Ok threads
       /\ NoDup threads
       /\ forall p, In p threads -> has_narrative simple_chain p.
Proof.
  split; [vm_compute; reflexivity|].
  destruct (narrative_threads_spec simple_chain) as [threads (H1 & H2 & H3 & _)].
  - vm_compute; reflexivity.
  - exists threads. split; [exact H1|]. split; [exact H2|].
    intros p Hp. now apply H3.
Defined.

(** ** get_critical_path and the names of its virtual end points *)

(** C3 fails on chains that use the id of a virtual end point. The chain made
    of the single actor ["__src__"] is acyclic and its only source-to-sink
    path is [["__src__"]], yet [get_critical_path] returns the empty list;
    on the single 5-hour action ["__sink__"] the call does not return a path
    at all, the negative-cycle error of the search escapes. *)
Lemma critical_path_sentinel_collision :
  wf_chain sentinel_chain = true
  /\ is_valid_dag sentinel_chain = Some (Ok true)
  /\ source_sink_path (graph sentinel_chain) ["__src__"]
  /\ get_critical_path sentinel_chain = Some (Ok [])
  /\ wf_chain sentinel_action_chain = true
  /\ is_valid_dag sentinel_action_chain = Some (Ok true)
  /\ get_critical_path sentinel_action_chain = Some (Raise NetworkXUnbounded).
Proof.
  split; [vm_compute; reflexivity|]. split; [vm_compute; reflexivity|].
  split.
  - exists "__src__", "__src__". unfold simple_path. simpl.
    repeat split; auto.
    + now exists [].
    + constructor; [intros []|constructor].
  - repeat split; vm_compute; reflexivity.
Qed.

(** ** Walks in an acyclic graph *)

Lemma path_to_reach (g : DiGraph) (t x y : string) (r : list string) :
  path_to g t (y :: r) -> In x (y :: r) -> y = x \/ reachable g y x.
Proof.
  revert y. induction r as [|z r IH]; intros y Hp Hin.
  - destruct Hin as [->|[]]. now left.
  - destruct Hin as [->|Hin]; [now left|]. destruct Hp as [He Hp].
    right. destruct (IH z Hp Hin) as [->|Hr].
    + now apply t_step.
    + eapply t_trans; [apply t_step; eassumption|assumption].
Qed.

Lemma acyclic_walk_NoDup (g : DiGraph) (t : string) (q : list string) :
  ~ cyclic g -> path_to g t q -> NoDup q.
Proof.
  intros Hac. induction q as [|x r IH]; intros Hp; [constructor|].
  destruct r as [|y r']; [constructor; [intros []|constructor]|].
  destruct Hp as [He Hp]. constructor; auto.
  intros Hin. apply Hac. exists x.
  destruct (path_to_reach g t x y r' Hp Hin) as [->|Hr].
  - now apply t_step.
  - eapply t_trans; [apply t_step; eassumption|assumption].
Qed.

Lemma acyclic_walk_length (g : DiGraph) (s t : string) (p : list string) :
  graph_ok g -> ~ cyclic g -> In s (nodes g) ->
  path_to g t (s :: p) -> S (length p) <= order g.
Proof.
  intros Hg Hac Hs Hp. rewrite order_nodes.
  change (S (length p)) with (length (s :: p)).
  apply NoDup_incl_length.
  - now apply (acyclic_walk_NoDup g t).
  - now apply (path_to_nodes g t s p).
Qed.

Lemma path_to_snoc (g : DiGraph) (u v : string) (q : list string) :
  path_to g u q -> edge g u v -> path_to g v (q ++ [v]).
Proof.
  induction q as [|x r IH]; [simpl; tauto|].
  intros Hp He. destruct r as [|y r'].
  - simpl in Hp. subst x. simpl. auto.
  - destruct Hp as [He' Hp]. specialize (IH Hp He).
    simpl in *. split; assumption.
Qed.

Lemma path_weight_snoc (g : DiGraph) (w : string -> string -> Q) (u v : string)
    (q : list string) :
  path_to g u q -> (path_weight w (q ++ [v]) == path_weight w q + w u v)%Q.
Proof.
  induction q as [|x r IH]; simpl; [tauto|].
  destruct r as [|y r'].
  - intros ->. simpl. lra.
  - intros [_ Hp]. specialize (IH Hp). simpl in *. lra.
Qed.

Lemma path_to_app_head (g : DiGraph) (t : string) (p : list string) :
  path_to g t p -> exists x r, p = x :: r.
Proof. destruct p as [|x r]; simpl; [tauto|eauto]. Qed.

(** ** The queue-based shortest-path search on an acyclic graph *)

Lemma in_update_true (v : string) (ru : option (string * string)) :
  in_update v ru = true -> exists a b, ru = Some (a, b) /\ (v = a \/ v = b).
Proof.
  destruct ru as [[a b]|]; simpl; [|discriminate].
  intros H. apply orb_true_iff in H. exists a, b. split; auto.
  destruct H as [H|H]; apply String.eqb_eq in H; auto.
Qed.

Lemma dict_get_set {V : Type} (k k' : string) (v : V) (d : list (string * V)) :
  dict_get k' (dict_set k v d) = if String.eqb k k' then Some v else dict_get k' d.
Proof.
  destruct (String.eqb_spec k k') as [->|Hne].
  - apply dict_get_set_eq.
  - now apply dict_get_set_neq.
Qed.

Lemma mem_snoc_other (x v : string) (l : list string) :
  x <> v -> mem x (l ++ [v]) = mem x l.
Proof.
  intros Hne. rewrite mem_app. simpl.
  rewrite (proj2 (String.eqb_neq x v) Hne). now rewrite !orb_false_r.
Qed.

Lemma NoDup_snoc (v : string) (l : list string) : NoDup l -> ~ In v l -> NoDup (l ++ [v]).
Proof.
  intros Hnd Hv. apply NoDup_app; auto.
  - constructor; [intros []|constructor].
  - intros x Hx [<-|[]]. tauto.
Qed.

Section BellmanFord.
Variable g : DiGraph.
Hypothesis Hg : graph_ok g.
Hypothesis Hac : ~ cyclic g.
Variable w : string -> string -> Q.
Variable s : string.
Hypothesis Hs : In s (nodes g).
Hypothesis Hs_in : forall u, ~ edge g u s.
Hypothesis Hexact : forall d t v,
  reached_by g w s d t -> edge g t v -> (fl (d + w t v) == d + w t v)%Q.

Lemma no_self_loop (u : string) : ~ edge g u u.
Proof. intros He. apply Hac. exists u. now apply t_step. Qed.

Lemma enqueue_count_bound (lev : string -> nat) (cur : nat) (st : bf_state) (u v : string) :
  bf_safe g s (order g) lev cur st ->
  bf_current g s lev cur u st ->
  edge g u v ->
  ~ In v (bf_q st) ->
  count_of (bf_count st) v <= cur /\ S (S cur) <= order g.
Proof.
  intros Hsafe Hcur He Hv. split.
  - unfold count_of. destruct (dict_get v (bf_count st)) as [c|] eqn:E; [|lia].
    destruct (safe_count _ _ _ _ _ _ Hsafe v c E) as (_ & _ & Hc).
    apply mem_notIn in Hv. now rewrite Hv in Hc.
  - destruct (cur_walk _ _ _ _ _ _ Hcur) as [p [Hp Hlen]].
    pose proof (path_to_snoc g u v (s :: p) Hp He) as Hp'.
    pose proof (acyclic_walk_length g s v (p ++ [v]) Hg Hac Hs Hp') as Hb.
    rewrite length_app in Hb. simpl in Hb. lia.
Qed.

Lemma update_acyclic (lev : string -> nat) (cur : nat) (st : bf_state) (u v : string)
    (ru : option (string * string)) :
  bf_safe g s (order g) lev cur st ->
  edge g u v ->
  dict_get u (bf_recent_update st) = Some ru ->
  in_update v ru = false.
Proof.
  intros Hsafe He Hru. destruct (in_update v ru) eqn:E; auto.
  exfalso. apply in_update_true in E. destruct E as [a [b [-> Hv]]].
  destruct (safe_update _ _ _ _ _ _ Hsafe u a b Hru) as [Hab Hbu].
  apply Hac. destruct Hv as [->| ->].
  - exists a. destruct Hbu as [->|Hbu].
    + eapply t_trans; apply t_step; eassumption.
    + eapply t_trans; [apply t_step; eassumption|].
      eapply t_trans; [eassumption|now apply t_step].
  - exists b. destruct Hbu as [->|Hbu].
    + now apply t_step.
    + eapply t_trans; [eassumption|now apply t_step].
Qed.

Lemma bf_relax_step (lev : string -> nat) (cur : nat) (st : bf_state) (u v : string)
    (du : Q) :
  bf_safe g s (order g) lev cur st ->
  bf_current g s lev cur u st ->
  edge g u v ->
  exists st',
    bf_relax w (order g) u du st v = Continue st' /\ relax_step w u du st v st'.
Proof.
  intros Hsafe Hcur He. unfold bf_relax.
  assert (Hru : exists ru, dict_get u (bf_recent_update st) = Some ru).
  { pose proof (safe_dom_update _ _ _ _ _ _ Hsafe u (cur_dom _ _ _ _ _ _ Hcur)) as H.
    destruct (dict_get u (bf_recent_update st)); [eauto|congruence]. }
  destruct Hru as [ru Hru].
  assert (Himp : match dict_get v (bf_dist st) with
                 | None => True
                 | Some d => (fl (du + w u v) < d)%Q
                 end ->
                 exists st',
                   match dict_get u (bf_recent_update st) with
                   | None => Fault (KeyError u)
                   | Some ru =>
                       if in_update v ru
                       then match dict_get v (bf_pred st) with
                            | None => Fault (KeyError v)
                            | Some _ => NegativeCycle v
                            end
                       else
                         if mem v (bf_in_q st)
                         then Continue
                                {| bf_dist := dict_set v (fl (du + w u v)) (bf_dist st);
                                   bf_pred := dict_set v [u] (bf_pred st);
                                   bf_pred_edge := dict_set v (Some u) (bf_pred_edge st);
                                   bf_recent_update :=
                                     dict_set v (next_update st u v ru)
                                              (bf_recent_update st);
                                   bf_count := bf_count st;
                                   bf_q := bf_q st;
                                   bf_in_q := bf_in_q st |}
                         else
                           if count_of (bf_count st) v + 1 =? order g
                           then NegativeCycle v
                           else Continue
                                  {| bf_dist := dict_set v (fl (du + w u v)) (bf_dist st);
                                     bf_pred := dict_set v [u] (bf_pred st);
                                     bf_pred_edge :=
                                       dict_set v (Some u) (bf_pred_edge st);
                                     bf_recent_update :=
                                       dict_set v (next_update st u v ru)
                                                (bf_recent_update st);
                                     bf_count :=
                                       dict_set v (count_of (bf_count st) v + 1)
                                                (bf_count st);
                                     bf_q := bf_q st ++ [v];
                                     bf_in_q := bf_in_q st ++ [v] |}
                   end = Continue st'
                   /\ relax_step w u du st v st').
  { intros Hlt. rewrite Hru.
    rewrite (update_acyclic lev cur st u v ru Hsafe He Hru).
    pose proof (relax_improve w u du st v ru Hlt Hru) as R.
    destruct (mem v (bf_in_q st)) eqn:Em.
    - eexists. split; [reflexivity|exact R].
    - assert (~ In v (bf_q st)) as Hq.
      { rewrite (safe_q_inq _ _ _ _ _ _ Hsafe). now apply mem_notIn. }
      destruct (enqueue_count_bound lev cur st u v Hsafe Hcur He Hq) as [H1 H2].
      rewrite (proj2 (Nat.eqb_neq _ _)) by lia.
      eexists. split; [reflexivity|exact R]. }
  destruct (dict_get v (bf_dist st)) as [d|] eqn:Ed.
  - destruct (Qlt_bool (fl (du + w u v)) d) eqn:El.
    + apply Himp. now apply Qlt_bool_true.
    + apply Qlt_bool_false in El.
      destruct (Qeq_bool (fl (du + w u v)) d) eqn:Ee.
      * apply Qeq_bool_iff in Ee.
        pose proof (safe_dom_pred _ _ _ _ _ _ Hsafe v) as Hp. rewrite Ed in Hp.
        destruct (dict_get v (bf_pred st)) as [ps|] eqn:Ep;
          [|exfalso; apply Hp; congruence].
        eexists. split; [reflexivity|]. now apply (relax_tie w u du st v d ps).
      * apply Qeq_bool_neq in Ee. eexists. split; [reflexivity|].
        apply (relax_none w u du st v d); auto. lra.
  - apply Himp. exact I.
Qed.

Lemma relax_step_safe (lev : string -> nat) (cur : nat) (st st' : bf_state)
    (u v : string) (du : Q) :
  bf_safe g s (order g) lev cur st ->
  bf_current g s lev cur u st ->
  edge g u v ->
  relax_step w u du st v st' ->
  exists lev',
    bf_safe g s (order g) lev' cur st' /\ bf_current g s lev' cur u st'.
Proof.
  intros Hsafe Hcur He Hstep.
  pose proof Hsafe as [S1 S2 S3 S4 S5 S6 S7 S8 S9 S10 S11 S12].
  pose proof Hcur as [C1 C2 C3].
  assert (Hvn : In v (nodes g)) by now apply (edge_nodes g Hg u v).
  assert (Huv : u <> v) by (intros ->; now apply (no_self_loop v)).
  inversion Hstep as [ru Hlt Hru | d ps Hd Heq Hps | d Hd Hlt]; subst.
  - (* improvement *)
    destruct (mem v (bf_in_q st)) eqn:Em.
    + exists lev. split.
      * constructor; simpl; auto.
        -- intros x Hx. rewrite dict_get_set. destruct (String.eqb v x); [discriminate|auto].
        -- intros x. rewrite !dict_get_set. destruct (String.eqb v x); [discriminate|auto].
        -- intros x. rewrite !dict_get_set. destruct (String.eqb v x); [discriminate|auto].
        -- intros x. rewrite dict_get_set.
           destruct (String.eqb_spec v x) as [<-|Hne]; auto.
        -- intros x a b. rewrite dict_get_set.
           destruct (String.eqb_spec v x) as [<-|Hne]; [|apply S8].
           intros Hn. inversion Hn as [Hn']. clear Hn. unfold next_update in Hn'.
           assert (Hcase : ru = Some (a, b) \/ (a, b) = (u, v)).
           { destruct (dict_get v (bf_pred_edge st)) as [[p|]|];
               try (right; congruence).
             destruct (String.eqb p u); [now left|right; congruence]. }
           destruct Hcase as [->|Hab].
           ++ destruct (S8 u a b Hru) as [Hab Hbu]. split; auto. right.
              destruct Hbu as [->|Hbu]; [now apply t_step|].
              eapply t_trans; [eassumption|now apply t_step].
           ++ inversion Hab; subst. auto.
      * constructor; simpl; auto.
        rewrite dict_get_set. destruct (String.eqb v u); [discriminate|auto].
    + assert (Hvq : ~ In v (bf_q st)).
      { rewrite S3. now apply mem_notIn. }
      destruct (enqueue_count_bound lev cur st u v Hsafe Hcur He Hvq) as [Hc1 Hc2].
      exists (fun y => if String.eqb y v then S cur else lev y). split.
      * constructor; simpl.
        -- now apply NoDup_snoc.
        -- apply NoDup_snoc; auto. now apply mem_notIn.
        -- intros x. rewrite !in_app_iff, S3. tauto.
        -- intros x Hx. rewrite dict_get_set.
           destruct (String.eqb v x) eqn:E; [discriminate|].
           apply in_app_or in Hx. destruct Hx as [Hx|[<-|[]]]; auto.
           now rewrite String.eqb_refl in E.
        -- intros x. rewrite !dict_get_set. destruct (String.eqb v x); [discriminate|auto].
        -- intros x. rewrite !dict_get_set. destruct (String.eqb v x); [discriminate|auto].
        -- intros x. rewrite dict_get_set.
           destruct (String.eqb_spec v x) as [<-|Hne]; auto.
        -- intros x a b. rewrite dict_get_set.
           destruct (String.eqb_spec v x) as [<-|Hne]; [|apply S8].
           intros Hn. inversion Hn as [Hn']. clear Hn. unfold next_update in Hn'.
           assert (Hcase : ru = Some (a, b) \/ (a, b) = (u, v)).
           { destruct (dict_get v (bf_pred_edge st)) as [[p|]|];
               try (right; congruence).
             destruct (String.eqb p u); [now left|right; congruence]. }
           destruct Hcase as [->|Hab].
           ++ destruct (S8 u a b Hru) as [Hab Hbu]. split; auto. right.
              destruct Hbu as [->|Hbu]; [now apply t_step|].
              eapply t_trans; [eassumption|now apply t_step].
           ++ inversion Hab; subst. auto.
        -- destruct S9 as [A [B (Eq & HA & HB)]].
           exists A, (B ++ [v]). split; [rewrite Eq; now rewrite app_assoc|].
           assert (Hother : forall x, In x (bf_q st) ->
                     (if String.eqb x v then S cur else lev x) = lev x).
           { intros x Hx. destruct (String.eqb_spec x v) as [->|_]; tauto. }
           split.
           ++ apply Forall_forall. intros x Hx. rewrite Hother.
              ** now apply (proj1 (Forall_forall _ _) HA).
              ** rewrite Eq. apply in_or_app. now left.
           ++ apply Forall_app. split.
              ** apply Forall_forall. intros x Hx. rewrite Hother.
                 --- now apply (proj1 (Forall_forall _ _) HB).
                 --- rewrite Eq. apply in_or_app. now right.
              ** constructor; [|constructor]. now rewrite String.eqb_refl.
        -- intros x Hx. apply in_app_or in Hx. destruct Hx as [Hx|[<-|[]]].
           ++ destruct (String.eqb_spec x v) as [->|_]; [tauto|]. now apply S10.
           ++ rewrite String.eqb_refl. destruct C3 as [p [Hp Hlen]].
              exists (p ++ [v]). split.
              ** now apply (path_to_snoc g u v (s :: p)).
              ** rewrite length_app. simpl. lia.
        -- now apply dict_set_NoDup.
        -- intros x c. rewrite dict_get_set.
           destruct (String.eqb_spec v x) as [<-|Hne].
           ++ intros Hc. inversion Hc; subst. clear Hc.
              rewrite String.eqb_refl. split; auto. split; [lia|].
              rewrite mem_app. simpl. rewrite String.eqb_refl. rewrite orb_true_r.
              simpl. lia.
           ++ intros Hc. destruct (S12 x c Hc) as (H1 & H2 & H3).
              split; auto. split; auto.
              rewrite mem_snoc_other by congruence.
              rewrite (proj2 (String.eqb_neq x v)) by congruence. exact H3.
      * constructor; simpl; auto.
        -- intros Hin. apply in_app_or in Hin. destruct Hin as [Hin|[E|[]]]; auto.
        -- rewrite dict_get_set. destruct (String.eqb v u); [discriminate|auto].
  - (* tie *)
    exists lev. split.
    + constructor; simpl; auto.
      intros x Hx. rewrite dict_get_set. destruct (String.eqb v x); [discriminate|auto].
    + constructor; simpl; auto.
  - exists lev. auto.
Qed.

Lemma list_sum_ext_in (f f' : string -> nat) (l : list string) :
  (forall x, In x l -> f' x = f x) -> list_sum (map f' l) = list_sum (map f l).
Proof.
  induction l as [|a r IH]; intros H; simpl; auto.
  rewrite H by now left. rewrite IH; auto. intros x Hx. apply H. now right.
Qed.

Lemma list_sum_decr (f f' : string -> nat) (v : string) (l : list string) :
  NoDup l -> In v l ->
  (forall x, x <> v -> f' x = f x) ->
  f' v + 1 = f v ->
  list_sum (map f' l) + 1 = list_sum (map f l).
Proof.
  induction l as [|a r IH]; intros Hnd Hin Hother Hv; [destruct Hin|].
  inversion Hnd as [|? ? Hnot Hnd']; subst. simpl.
  destruct Hin as [->|Hin].
  - rewrite (list_sum_ext_in f f' r).
    + lia.
    + intros x Hx. apply Hother. intros ->. tauto.
  - rewrite Hother by (intros ->; tauto).
    specialize (IH Hnd' Hin Hother Hv). lia.
Qed.

Lemma relax_step_potential (lev : string -> nat) (cur : nat) (st st' : bf_state)
    (u v : string) (du : Q) :
  bf_safe g s (order g) lev cur st ->
  bf_current g s lev cur u st ->
  edge g u v ->
  relax_step w u du st v st' ->
  bf_potential g (order g) st' <= bf_potential g (order g) st.
Proof.
  intros Hsafe Hcur He Hstep.
  inversion Hstep as [ru Hlt Hru | d ps Hd Heq Hps | d Hd Hlt]; subst; auto.
  destruct (mem v (bf_in_q st)) eqn:Em; auto.
  assert (Hvq : ~ In v (bf_q st)).
  { rewrite (safe_q_inq _ _ _ _ _ _ Hsafe). now apply mem_notIn. }
  destruct (enqueue_count_bound lev cur st u v Hsafe Hcur He Hvq) as [Hc1 Hc2].
  unfold bf_potential. simpl. rewrite length_app. simpl.
  pose proof (list_sum_decr
                (fun x => order g - 1 - count_of (bf_count st) x)
                (fun x => order g - 1
                          - count_of (dict_set v (count_of (bf_count st) v + 1)
                                               (bf_count st)) x)
                v (nodes g)) as H.
  destruct Hg as [Hnd _].
  rewrite <- H; auto.
  - lia.
  - now apply (edge_nodes g Hg u v).
  - intros x Hx. unfold count_of at 1. rewrite dict_get_set_neq by congruence.
    reflexivity.
  - unfold count_of at 1. rewrite dict_get_set_eq. lia.
Qed.

Lemma enqueue_in (v : string) (l : list string) :
  In v (if mem v l then l else l ++ [v]).
Proof.
  destruct (mem v l) eqn:E.
  - now apply mem_In.
  - apply in_or_app. right. now left.
Qed.

Lemma enqueue_incl (v x : string) (l : list string) :
  In x l -> In x (if mem v l then l else l ++ [v]).
Proof. intros H. destruct (mem v l); auto. apply in_or_app. now left. Qed.

Lemma enqueue_other (v x : string) (l : list string) :
  x <> v -> In x (if mem v l then l else l ++ [v]) -> In x l.
Proof.
  intros Hne H. destruct (mem v l); auto.
  apply in_app_or in H. destruct H as [H|[E|[]]]; auto. congruence.
Qed.

Lemma pending_step (st st' : bf_state) (base base' : list string) :
  incl base base' ->
  (forall x ps, dict_get x (bf_pred st) = Some ps ->
     In x base' \/ exists ps', dict_get x (bf_pred st') = Some ps' /\ incl ps ps') ->
  (forall x dx, dict_get x (bf_dist st) = Some dx ->
     In x base' \/ dict_get x (bf_dist st') = Some dx) ->
  (forall p dp, dict_get p (bf_dist st) = Some dp ->
     exists dp', dict_get p (bf_dist st') = Some dp' /\ (dp' <= dp)%Q) ->
  forall x, pending w st base x -> pending w st' base' x.
Proof.
  intros Hb Hp Hd Hle x Hx. induction Hx as [x Hx | x p ps dx dp H1 H2 H3 H4 H5 H6 IH].
  - apply pending_here. auto.
  - destruct (in_dec string_dec x base') as [Hin|Hout]; [now apply pending_here|].
    destruct (Hp x ps H1) as [Hin|[ps' [Hps' Hincl]]]; [tauto|].
    destruct (Hd x dx H3) as [Hin|Hdx]; [tauto|].
    destruct (Hle p dp H4) as [dp' [Hdp' Hle']].
    apply (pending_via w st' base' x p ps' dx dp'); auto. lra.
Qed.

Lemma relax_step_opt (st st' : bf_state) (u v : string) (du : Q) (done : list string) :
  bf_opt g w s (u :: bf_in_q st) st ->
  relaxed_from w u du done st ->
  ~ In u (bf_in_q st) ->
  edge g u v ->
  (fl (du + w u v) == du + w u v)%Q ->
  relax_step w u du st v st' ->
  bf_opt g w s (u :: bf_in_q st') st' /\ relaxed_from w u du (done ++ [v]) st'.
Proof.
  intros [[O1 O1'] O2 O3 O4] [Hdu Hdone] Huq He Hex Hstep.
  assert (Huv : u <> v) by (intros ->; now apply (no_self_loop v)).
  assert (Hvs : v <> s) by (intros ->; now apply (Hs_in u)).
  inversion Hstep as [ru Hlt Hru | d ps Hd Heq Hps | d Hd Hlt]; subst.
  - (* improvement *)
    set (inq' := if mem v (bf_in_q st) then bf_in_q st else bf_in_q st ++ [v]).
    assert (Hvin : In v inq') by apply enqueue_in.
    assert (Hpend : forall x, pending w st (u :: bf_in_q st) x ->
              pending w
                {| bf_dist := dict_set v (fl (du + w u v)) (bf_dist st);
                   bf_pred := dict_set v [u] (bf_pred st);
                   bf_pred_edge := dict_set v (Some u) (bf_pred_edge st);
                   bf_recent_update :=
                     dict_set v (next_update st u v ru) (bf_recent_update st);
                   bf_count := if mem v (bf_in_q st) then bf_count st
                               else dict_set v (count_of (bf_count st) v + 1)
                                             (bf_count st);
                   bf_q := if mem v (bf_in_q st) then bf_q st else bf_q st ++ [v];
                   bf_in_q := inq' |} (u :: inq') x).
    { apply pending_step; simpl.
      - intros x [<-|Hx]; [now left|right; now apply enqueue_incl].
      - intros x ps Hx. destruct (String.eqb_spec v x) as [<-|Hne]; [left; now right|].
        right. exists ps. rewrite dict_get_set_neq by assumption.
        split; auto. apply incl_refl.
      - intros x dx Hx. destruct (String.eqb_spec v x) as [<-|Hne]; [left; now right|].
        right. now rewrite dict_get_set_neq.
      - intros p dp Hp. rewrite dict_get_set.
        destruct (String.eqb_spec v p) as [<-|Hne].
        + rewrite Hp in Hlt. eexists. split; [reflexivity|lra].
        + exists dp. split; auto. lra. }
    split.
    + constructor; simpl.
      * split; rewrite dict_get_set_neq; auto.
      * intros x ps p. rewrite !dict_get_set.
        destruct (String.eqb_spec v x) as [<-|Hne].
        -- intros Hps Hp. inversion Hps; subst. clear Hps.
           destruct Hp as [<-|[]].
           split; auto. exists du, (fl (du + w u v)).
           rewrite (proj2 (String.eqb_neq v u)) by congruence.
           repeat split; auto; try lra.
           intros Hin. exfalso. apply Huq. now apply (enqueue_other v u).
        -- intros Hps Hp. destruct (O2 x ps p Hps Hp) as [Hpx [dp [dx (H1 & H2 & H3 & H4)]]].
           split; auto. destruct (String.eqb_spec v p) as [<-|Hnp].
           ++ rewrite H1 in Hlt. exists (fl (du + w u v)), dx.
              repeat split; auto; lra.
           ++ exists dp, dx. repeat split; auto.
              intros Hin. apply H4. now apply (enqueue_other v p).
      * intros x. rewrite !dict_get_set.
        destruct (String.eqb_spec v x) as [<-|Hne]; [eauto|apply O3].
      * intros a b da He' Ha. rewrite dict_get_set in Ha.
        destruct (String.eqb_spec v a) as [<-|Hne].
        -- right. apply pending_here. now right.
        -- destruct (O4 a b da He' Ha) as [[db [Hb Hle]]|Hp]; [|right; now apply Hpend].
           left. rewrite dict_get_set.
           destruct (String.eqb_spec v b) as [<-|Hnb].
           ++ rewrite Hb in Hlt. eexists. split; [reflexivity|lra].
           ++ eauto.
    + split; simpl.
      * now rewrite dict_get_set_neq.
      * intros x Hx. rewrite dict_get_set.
        destruct (String.eqb_spec v x) as [<-|Hne].
        -- eexists. split; [reflexivity|lra].
        -- apply in_app_or in Hx. destruct Hx as [Hx|[E|[]]]; [auto|congruence].
  - (* tie *)
    assert (Hpend : forall x, pending w st (u :: bf_in_q st) x ->
              pending w
                {| bf_dist := bf_dist st;
                   bf_pred := dict_set v (ps ++ [u]) (bf_pred st);
                   bf_pred_edge := bf_pred_edge st;
                   bf_recent_update := bf_recent_update st;
                   bf_count := bf_count st; bf_q := bf_q st;
                   bf_in_q := bf_in_q st |} (u :: bf_in_q st) x).
    { apply pending_step; simpl.
      - apply incl_refl.
      - intros x ps0 Hx. right. rewrite dict_get_set.
        destruct (String.eqb_spec v x) as [<-|Hne].
        + rewrite Hps in Hx. inversion Hx; subst. eexists. split; [reflexivity|].
          intros y Hy. apply in_or_app. now left.
        + exists ps0. split; auto. apply incl_refl.
      - intros x dx Hx. now right.
      - intros p dp Hp. exists dp. split; auto. lra. }
    split.
    + constructor; simpl.
      * split; auto. now rewrite dict_get_set_neq.
      * intros x ps0 p. rewrite dict_get_set.
        destruct (String.eqb_spec v x) as [<-|Hne]; [|apply O2].
        intros Hps0 Hp. inversion Hps0; subst. clear Hps0.
        apply in_app_or in Hp. destruct Hp as [Hp|[<-|[]]]; [now apply (O2 v ps)|].
        split; auto. exists du, d. repeat split; auto; try lra. tauto.
      * intros x Hx Hxs. rewrite dict_get_set.
        destruct (String.eqb_spec v x) as [<-|Hne]; [|now apply O3].
        destruct ps as [|p ps']; simpl; eauto.
      * intros a b da He' Ha. destruct (O4 a b da He' Ha) as [Hr|Hp]; auto.
    + split; simpl; auto.
      intros x Hx. apply in_app_or in Hx. destruct Hx as [Hx|[<-|[]]]; auto.
      exists d. split; auto. lra.
  - (* nothing to do *)
    split.
    + constructor; auto.
    + split; auto. intros x Hx. apply in_app_or in Hx.
      destruct Hx as [Hx|[<-|[]]]; auto. exists d. split; auto. lra.
Qed.

Lemma float_walk_from_snoc (t v : string) (p : list string) :
  forall x acc,
    path_to g t (x :: p) ->
    float_walk_from w acc x (p ++ [v]) = fl (float_walk_from w acc x p + w t v).
Proof.
  induction p as [|y r IH]; intros x acc Hp.
  - simpl in Hp. subst. reflexivity.
  - destruct Hp as [_ Hp]. cbn [app float_walk_from]. now apply IH.
Qed.

Lemma reached_by_step (u v : string) (du : Q) :
  reached_by g w s du u -> edge g u v -> reached_by g w s (fl (du + w u v)) v.
Proof.
  intros [p [Hp ->]] He. exists (p ++ [v]). split.
  - change (s :: p ++ [v]) with ((s :: p) ++ [v]). now apply (path_to_snoc g u v).
  - unfold float_walk_weight. now rewrite (float_walk_from_snoc u v p).
Qed.

Lemma relax_step_floats (st st' : bf_state) (u v : string) (du : Q) :
  bf_floats g w s st -> reached_by g w s du u -> edge g u v ->
  relax_step w u du st v st' -> bf_floats g w s st'.
Proof.
  intros Hf Hr He Hstep.
  inversion Hstep as [ru Hlt Hru | d ps Hd Heq Hps | d Hd Hlt]; subst; auto.
  intros x d. cbn [bf_dist]. rewrite dict_get_set.
  destruct (String.eqb_spec v x) as [<-|Hne]; [|apply Hf].
  intros E. inversion E; subst. now apply reached_by_step.
Qed.

Lemma relax_all_spec (cur : nat) (u : string) (du : Q) (todo : list string) :
  forall done st lev,
    bf_safe g s (order g) lev cur st ->
    bf_current g s lev cur u st ->
    bf_opt g w s (u :: bf_in_q st) st ->
    relaxed_from w u du done st ->
    bf_floats g w s st ->
    reached_by g w s du u ->
    (forall v, In v todo -> edge g u v) ->
    exists st' lev',
      bf_relax_all w (order g) u du todo st = Continue st'
      /\ bf_safe g s (order g) lev' cur st'
      /\ bf_current g s lev' cur u st'
      /\ bf_opt g w s (u :: bf_in_q st') st'
      /\ relaxed_from w u du (done ++ todo) st'
      /\ bf_potential g (order g) st' <= bf_potential g (order g) st
      /\ bf_floats g w s st'.
Proof.
  induction todo as [|v todo IH]; intros done st lev Hsafe Hcur Hopt Hrel Hfl Hr Hedges.
  - exists st, lev. simpl. rewrite app_nil_r.
    exact (conj eq_refl (conj Hsafe (conj Hcur (conj Hopt (conj Hrel
             (conj (le_n _) Hfl)))))).
  - assert (He : edge g u v) by (apply Hedges; now left).
    destruct (bf_relax_step lev cur st u v du Hsafe Hcur He) as [st1 [E1 Hstep]].
    destruct (relax_step_safe lev cur st st1 u v du Hsafe Hcur He Hstep)
      as [lev1 [Hsafe1 Hcur1]].
    assert (Huq : ~ In u (bf_in_q st)).
    { rewrite <- (safe_q_inq _ _ _ _ _ _ Hsafe). apply (cur_out _ _ _ _ _ _ Hcur). }
    pose proof (Hexact du u v Hr He) as Hex.
    destruct (relax_step_opt st st1 u v du done Hopt Hrel Huq He Hex Hstep)
      as [Hopt1 Hrel1].
    pose proof (relax_step_potential lev cur st st1 u v du Hsafe Hcur He Hstep) as Hpot.
    pose proof (relax_step_floats st st1 u v du Hfl Hr He Hstep) as Hfl1.
    destruct (IH (done ++ [v]) st1 lev1 Hsafe1 Hcur1 Hopt1 Hrel1 Hfl1 Hr)
      as [st2 [lev2 (E2 & H1 & H2 & H3 & H4 & H5 & H6)]].
    { intros x Hx. apply Hedges. now right. }
    exists st2, lev2. simpl. rewrite E1. rewrite <- app_assoc in H4.
    refine (conj E2 (conj H1 (conj H2 (conj H3 (conj H4 (conj _ H6)))))). lia.
Qed.

Lemma In_remove_str (u x : string) (l : list string) :
  NoDup l -> (In x (remove_str u l) <-> In x l /\ x <> u).
Proof.
  induction l as [|a r IH]; simpl; intros Hnd; [tauto|].
  inversion Hnd as [|? ? Hnot Hnd']; subst.
  destruct (String.eqb_spec a u) as [->|Hne].
  - split.
    + intros Hx. split; auto. intros ->. tauto.
    + intros [[E|Hx] Hxu]; [congruence|auto].
  - simpl. rewrite IH by assumption. split.
    + intros [<-|[Hx Hxu]]; auto.
    + intros [[<-|Hx] Hxu]; auto.
Qed.

Lemma NoDup_remove_str (u : string) (l : list string) :
  NoDup l -> NoDup (remove_str u l).
Proof.
  induction l as [|a r IH]; simpl; intros Hnd; auto.
  inversion Hnd as [|? ? Hnot Hnd']; subst.
  destruct (String.eqb a u); auto. constructor; auto.
  intros Hin. apply In_remove_str in Hin; tauto.
Qed.

Lemma bf_pop_safe (lev : string -> nat) (cur : nat) (st : bf_state) (u : string)
    (q' : list string) :
  bf_safe g s (order g) lev cur st ->
  bf_q st = u :: q' ->
  exists cur',
    bf_safe g s (order g) lev cur' (bf_pop u st)
    /\ bf_current g s lev cur' u (bf_pop u st).
Proof.
  intros [S1 S2 S3 S4 S5 S6 S7 S8 S9 S10 S11 S12] Eq.
  rewrite Eq in *. inversion S1 as [|? ? Hnot Hnd]; subst.
  destruct S9 as [A [B (EAB & HA & HB)]].
  assert (Hlev : exists cur',
             lev u = cur' /\ cur <= cur'
             /\ exists A' B', q' = A' ++ B'
                  /\ Forall (fun x => lev x = cur') A'
                  /\ Forall (fun x => lev x = S cur') B').
  { destruct A as [|a A'].
    - simpl in EAB. destruct B as [|b B']; [discriminate|].
      inversion EAB; subst. inversion HB as [|? ? Hb HB']; subst.
      exists (S cur). split; auto. split; [lia|].
      exists B', []. rewrite app_nil_r. auto.
    - inversion EAB; subst. inversion HA as [|? ? Ha HA']; subst.
      exists (lev a). split; auto. split; [lia|]. exists A', B. auto. }
  destruct Hlev as [cur' (Hu & Hle & A' & B' & Eq' & HA' & HB')].
  exists cur'. split.
  - constructor; unfold bf_pop; simpl; rewrite ?Eq; simpl; auto.
    + now apply NoDup_remove_str.
    + intros x. rewrite In_remove_str by assumption. rewrite <- S3. simpl. split.
      * intros Hx. split; auto. intros ->. tauto.
      * intros [[E|Hx] Hxu]; [congruence|auto].
    + intros x Hx. apply S4. now right.
    + exists A', B'. auto.
    + intros x Hx. apply S10. now right.
    + intros x c Hc. destruct (S12 x c Hc) as (H1 & H2 & H3).
      split; auto. split; auto. rewrite mem_cons in H3.
      destruct (String.eqb_spec x u) as [->|Hne].
      * simpl in H3. apply mem_notIn in Hnot. rewrite Hnot. lia.
      * simpl in H3. destruct (mem x q'); lia.
  - constructor; unfold bf_pop; simpl; rewrite ?Eq; simpl; auto.
    + apply S4. now left.
    + destruct (S10 u (or_introl eq_refl)) as [p [Hp Hlen]].
      exists p. split; auto. lia.
Qed.

Lemma bf_pop_potential (st : bf_state) (u : string) (q' : list string) :
  bf_q st = u :: q' ->
  bf_potential g (order g) (bf_pop u st) + 1 = bf_potential g (order g) st.
Proof.
  intros Eq. unfold bf_potential, bf_pop. simpl. rewrite Eq. simpl. lia.
Qed.

Lemma bf_pop_opt (lev : string -> nat) (cur : nat) (st : bf_state) (u : string) :
  bf_safe g s (order g) lev cur st ->
  bf_opt g w s (bf_in_q st) st ->
  bf_opt g w s (u :: bf_in_q (bf_pop u st)) (bf_pop u st).
Proof.
  intros Hsafe [O1 O2 O3 O4].
  pose proof (safe_inq_nodup _ _ _ _ _ _ Hsafe) as Hnd.
  constructor; unfold bf_pop; simpl; auto.
  - intros x ps p Hps Hp. destruct (O2 x ps p Hps Hp) as [He [dp [dx (H1 & H2 & H3 & H4)]]].
    split; auto. exists dp, dx. repeat split; auto.
    intros Hin. apply H4. apply In_remove_str in Hin; tauto.
  - intros a b da He Ha. destruct (O4 a b da He Ha) as [Hr|Hp]; auto.
    right. revert Hp. apply pending_step; simpl; eauto.
    + intros x Hx. destruct (string_dec x u) as [->|Hne]; [now left|].
      right. apply In_remove_str; auto.
    + intros x ps Hx. right. exists ps. split; auto. apply incl_refl.
    + intros p dp Hp. exists dp. split; auto. lra.
Qed.

Lemma forallb_false_exists {A : Type} (f : A -> bool) (l : list A) :
  forallb f l = false -> exists x, In x l /\ f x = false.
Proof.
  induction l as [|a r IH]; simpl; [discriminate|].
  intros H. apply andb_false_iff in H. destruct H as [H|H].
  - exists a. auto.
  - destruct (IH H) as [x [Hx Hf]]. exists x. auto.
Qed.

Lemma bf_skip_opt (st : bf_state) (u : string) (pred_u : list string) :
  dict_get u (bf_pred st) = Some pred_u ->
  forallb (fun p => negb (mem p (bf_in_q st))) pred_u = false ->
  bf_opt g w s (u :: bf_in_q st) st ->
  bf_opt g w s (bf_in_q st) st.
Proof.
  intros Hpu Hskip [O1 O2 O3 O4]. constructor; auto.
  intros a b da He Ha. destruct (O4 a b da He Ha) as [Hr|Hp]; auto. right.
  clear He Ha. induction Hp as [x Hx | x p ps dx dp H1 H2 H3 H4 H5 H6 IH].
  - destruct Hx as [<-|Hx]; [|now apply pending_here].
    destruct (forallb_false_exists _ _ Hskip) as [p [Hp Hin]].
    apply negb_false_iff, mem_In in Hin.
    destruct (O2 u pred_u p Hpu Hp) as [He [dp [dx (H1 & H2 & H3 & H4)]]].
    apply (pending_via w st (bf_in_q st) u p pred_u dx dp); auto.
    now apply pending_here.
  - apply (pending_via w st (bf_in_q st) x p ps dx dp); auto.
Qed.

Lemma bf_finish_opt (st : bf_state) (u : string) (du : Q) :
  bf_opt g w s (u :: bf_in_q st) st ->
  relaxed_from w u du (successors g u) st ->
  bf_opt g w s (bf_in_q st) st.
Proof.
  intros [O1 O2 O3 O4] [Hdu Hrel]. constructor; auto.
  assert (Hdrop : forall x, pending w st (u :: bf_in_q st) x ->
                            x = u \/ pending w st (bf_in_q st) x).
  { intros x Hx. induction Hx as [x Hx | x p ps dx dp H1 H2 H3 H4 H5 H6 IH].
    - destruct Hx as [<-|Hx]; [now left|right; now apply pending_here].
    - right. destruct IH as [->|IH].
      + exfalso. destruct (O2 x ps u H1 H2) as [He _].
        apply In_successors in He. destruct (Hrel x He) as [dv [Hdv Hle]].
        rewrite H3 in Hdv. inversion Hdv; subst. rewrite Hdu in H4.
        inversion H4; subst. lra.
      + now apply (pending_via w st (bf_in_q st) x p ps dx dp). }
  intros a b da He Ha. destruct (O4 a b da He Ha) as [Hr|Hp]; auto.
  destruct (Hdrop a Hp) as [->|Hp']; auto.
  left. apply In_successors in He. destruct (Hrel b He) as [db [Hdb Hle]].
  rewrite Hdu in Ha. inversion Ha; subst. eauto.
Qed.

Lemma bf_loop_unfold (fuel : nat) (st : bf_state) (u : string) (q' : list string) :
  bf_q st = u :: q' ->
  bf_loop (S fuel) g w (order g) st
  = match dict_get u (bf_pred st) with
    | None => Some (Fault (KeyError u))
    | Some pred_u =>
        if forallb (fun p => negb (mem p (bf_in_q (bf_pop u st)))) pred_u then
          match dict_get u (bf_dist st) with
          | None => Some (Fault (KeyError u))
          | Some dist_u =>
              match bf_relax_all w (order g) u dist_u (successors g u) (bf_pop u st) with
              | Continue st2 => bf_loop fuel g w (order g) st2
              | o => Some o
              end
          end
        else bf_loop fuel g w (order g) (bf_pop u st)
    end.
Proof.
  intros Eq. cbn [bf_loop]. rewrite Eq. unfold bf_pop. rewrite Eq. reflexivity.
Qed.

Lemma bf_loop_spec (fuel : nat) :
  forall st lev cur,
    bf_safe g s (order g) lev cur st ->
    bf_opt g w s (bf_in_q st) st ->
    bf_floats g w s st ->
    bf_potential g (order g) st <= fuel ->
    exists st' lev' cur',
      bf_loop fuel g w (order g) st = Some (Continue st')
      /\ bf_q st' = []
      /\ bf_safe g s (order g) lev' cur' st'
      /\ bf_opt g w s (bf_in_q st') st'.
Proof.
  induction fuel as [|fuel IH]; intros st lev cur Hsafe Hopt Hfl Hpot.
  - destruct (bf_q st) as [|u q'] eqn:Eq.
    + exists st, lev, cur. simpl. rewrite Eq. auto.
    + unfold bf_potential in Hpot. rewrite Eq in Hpot. simpl in Hpot. lia.
  - destruct (bf_q st) as [|u q'] eqn:Eq.
    + exists st, lev, cur. simpl. rewrite Eq. auto.
    + rewrite (bf_loop_unfold fuel st u q' Eq).
      destruct (bf_pop_safe lev cur st u q' Hsafe Eq) as [cur1 [Hsafe1 Hcur1]].
      pose proof (bf_pop_opt lev cur st u Hsafe Hopt) as Hopt1.
      pose proof (bf_pop_potential st u q' Eq) as Hpot1.
      assert (Hdu : dict_get u (bf_dist st) <> None).
      { apply (safe_q_dom _ _ _ _ _ _ Hsafe). rewrite Eq. now left. }
      pose proof (safe_dom_pred _ _ _ _ _ _ Hsafe u Hdu) as Hpu.
      destruct (dict_get u (bf_pred st)) as [pred_u|] eqn:Epu; [|congruence].
      destruct (forallb _ pred_u) eqn:Eskip.
      * destruct (dict_get u (bf_dist st)) as [du|] eqn:Edu; [|congruence].
        destruct (relax_all_spec cur1 u du (successors g u) [] (bf_pop u st) lev
                    Hsafe1 Hcur1 Hopt1)
          as [st2 [lev2 (E2 & H1 & H2 & H3 & H4 & H5 & H6)]].
        { split; [exact Edu|]. intros v []. }
        { exact Hfl. }
        { now apply Hfl. }
        { intros v Hv. now apply In_successors. }
        rewrite E2. simpl in H4.
        apply (IH st2 lev2 cur1); auto.
        -- now apply (bf_finish_opt st2 u du).
        -- lia.
      * apply (IH (bf_pop u st) lev cur1); auto.
        -- apply (bf_skip_opt (bf_pop u st) u pred_u); auto.
        -- lia.
Qed.

Section FinalState.
Variable st : bf_state.
Variable lev : string -> nat.
Variable cur : nat.
Hypothesis Hq : bf_q st = [].
Hypothesis Hsafe : bf_safe g s (order g) lev cur st.
Hypothesis Hopt : bf_opt g w s (bf_in_q st) st.

Lemma bf_final_relaxed (a b : string) (da : Q) :
  edge g a b -> dict_get a (bf_dist st) = Some da ->
  exists db, dict_get b (bf_dist st) = Some db /\ (db <= da + w a b)%Q.
Proof.
  intros He Ha. destruct (opt_relaxed _ _ _ _ _ Hopt a b da He Ha) as [Hr|Hp]; auto.
  exfalso. clear He Ha.
  induction Hp as [x Hx | x p ps dx dp H1 H2 H3 H4 H5 H6 IH]; [|exact IH].
  apply (proj2 (safe_q_inq _ _ _ _ _ _ Hsafe x)) in Hx. rewrite Hq in Hx. destruct Hx.
Qed.

Lemma bf_final_lower (t : string) (q : list string) :
  forall a da,
    path_to g t (a :: q) -> dict_get a (bf_dist st) = Some da ->
    exists dt, dict_get t (bf_dist st) = Some dt
               /\ (dt <= da + path_weight w (a :: q))%Q.
Proof.
  induction q as [|b r IH]; intros a da Hp Ha.
  - simpl in Hp. subst a. exists da. split; auto. simpl. lra.
  - destruct Hp as [He Hp]. destruct (bf_final_relaxed a b da He Ha) as [db [Hb Hle]].
    destruct (IH b db Hp Hb) as [dt [Ht Hle']]. exists dt. split; auto.
    change (path_weight w (a :: b :: r)) with (w a b + path_weight w (b :: r))%Q.
    lra.
Qed.

Lemma bf_final_pred (x p : string) (ps : list string) :
  dict_get x (bf_pred st) = Some ps -> In p ps ->
  edge g p x
  /\ exists dp dx, dict_get p (bf_dist st) = Some dp
                   /\ dict_get x (bf_dist st) = Some dx
                   /\ (dp + w p x == dx)%Q.
Proof.
  intros Hps Hp.
  destruct (opt_pred _ _ _ _ _ Hopt x ps p Hps Hp) as [He [dp [dx (H1 & H2 & H3 & _)]]].
  split; auto. exists dp, dx. repeat split; auto.
  destruct (bf_final_relaxed p x dp He H1) as [dx' [H2' Hle]].
  rewrite H2 in H2'. inversion H2'; subst. lra.
Qed.

Lemma build_path_spec (fuel : nat) :
  forall node seen dn,
    length (bf_pred st) < fuel + length seen ->
    NoDup seen ->
    incl seen (dict_keys (bf_pred st)) ->
    In node seen ->
    (forall y, In y seen -> y = node \/ reachable g node y) ->
    dict_get node (bf_dist st) = Some dn ->
    exists path,
      build_path fuel [s] (bf_pred st) seen node = Some (Ok (Some path))
      /\ (exists r, path = s :: r)
      /\ path_to g node path
      /\ (path_weight w path == dn)%Q.
Proof.
  induction fuel as [|fuel IH]; intros node seen dn Hfuel Hnd Hincl Hin Hreach Hdn.
  - exfalso. pose proof (NoDup_incl_length Hnd Hincl) as Hlen.
    unfold dict_keys in Hlen. rewrite length_map in Hlen. simpl in Hfuel. lia.
  - cbn [build_path]. rewrite mem_cons. simpl (mem node []). rewrite orb_false_r.
    destruct (String.eqb_spec node s) as [->|Hne].
    + exists [s]. split; [reflexivity|]. split; [now exists []|]. split; [reflexivity|].
      destruct (opt_source _ _ _ _ _ Hopt) as [H0 _]. rewrite H0 in Hdn.
      inversion Hdn; subst. simpl. lra.
    + assert (Hd : dict_get node (bf_dist st) <> None) by congruence.
      destruct (opt_pred_nonempty _ _ _ _ _ Hopt node Hd Hne) as [p [ps Hps]].
      rewrite Hps.
      destruct (bf_final_pred node p (p :: ps) Hps (or_introl eq_refl))
        as [He [dp [dx (H1 & H2 & H3)]]].
      rewrite Hdn in H2. inversion H2; subst dx. clear H2.
      assert (Hp : ~ In p seen).
      { intros Hp. apply Hac. exists p.
        destruct (Hreach p Hp) as [->|Hr].
        - now apply t_step.
        - eapply t_trans; [apply t_step; eassumption|assumption]. }
      rewrite (proj2 (mem_notIn _ _) Hp).
      destruct (IH p (p :: seen) dp) as [path (E & [r Er] & Hpath & Hw)]; auto.
      * simpl. simpl in Hfuel. lia.
      * now constructor.
      * intros y [<-|Hy]; [|now apply Hincl].
        apply dict_get_In.
        assert (dict_get p (bf_dist st) <> None) as Hpd by congruence.
        apply (safe_dom_pred _ _ _ _ _ _ Hsafe) in Hpd.
        destruct (dict_get p (bf_pred st)); [eauto|congruence].
      * now left.
      * intros y [<-|Hy]; [now left|]. right.
        destruct (Hreach y Hy) as [->|Hr]; [now apply t_step|].
        eapply t_trans; [apply t_step; eassumption|assumption].
      * rewrite E. exists (path ++ [node]). split; [reflexivity|].
        split; [exists (r ++ [node]); now rewrite Er|].
        split; [now apply (path_to_snoc g p node)|].
        rewrite (path_weight_snoc g w p node path Hpath). lra.
Qed.
End FinalState.

Lemma list_sum_const (c : nat) (l : list string) :
  list_sum (map (fun _ => c) l) = length l * c.
Proof. induction l as [|a r IH]; simpl; auto. Qed.

(** On an acyclic graph, from a node [s] without incoming edge,
    [bellman_ford_path] returns a walk of least weight to every node that
    can be reached. *)
Lemma bellman_ford_path_spec (t : string) :
  s <> t ->
  (exists p0, path_to g t (s :: p0)) ->
  exists path,
    bellman_ford_path g s t w = Some (Ok path)
    /\ (exists r, path = s :: r)
    /\ path_to g t path
    /\ forall p', path_to g t (s :: p') ->
                  (path_weight w path <= path_weight w (s :: p'))%Q.
Proof.
  intros Hst [p0 Hp0]. unfold bellman_ford_path.
  rewrite (proj2 (String.eqb_neq s t) Hst).
  unfold has_node. rewrite (proj2 (mem_In _ _) Hs). cbn [negb].
  set (st0 := {| bf_dist := [(s, 0%Q)]; bf_pred := [(s, [])];
                 bf_pred_edge := [(s, None)]; bf_recent_update := [(s, None)];
                 bf_count := []; bf_q := [s]; bf_in_q := [s] |}).
  assert (Hsafe0 : bf_safe g s (order g) (fun _ => 0) 0 st0).
  { constructor; simpl.
    - constructor; [intros []|constructor].
    - constructor; [intros []|constructor].
    - tauto.
    - intros v [<-|[]]. rewrite String.eqb_refl. discriminate.
    - intros v. destruct (String.eqb s v); intros; congruence.
    - intros v. destruct (String.eqb s v); intros; congruence.
    - intros v. destruct (String.eqb_spec s v) as [<-|]; intros; [assumption|congruence].
    - intros x a b. destruct (String.eqb s x); discriminate.
    - exists [s], []. repeat split; auto.
    - intros x [<-|[]]. exists []. split; reflexivity.
    - constructor.
    - intros x c. discriminate. }
  assert (Hopt0 : bf_opt g w s (bf_in_q st0) st0).
  { constructor; simpl.
    - rewrite String.eqb_refl. auto.
    - intros x ps p. destruct (String.eqb s x); [|discriminate].
      intros H. inversion H; subst. intros [].
    - intros x. destruct (String.eqb_spec s x) as [<-|]; congruence.
    - intros a b da He. destruct (String.eqb_spec s a) as [<-|]; [|discriminate].
      intros _. right. apply pending_here. now left. }
  assert (Hpot0 : bf_potential g (order g) st0 <= S (order g * order g)).
  { unfold bf_potential. simpl.
    rewrite (list_sum_ext_in (fun _ => order g - 1))
      by (intros x _; unfold count_of; simpl; lia).
    rewrite list_sum_const, <- order_nodes. nia. }
  assert (Hfl0 : bf_floats g w s st0).
  { intros x d. simpl. destruct (String.eqb_spec s x) as [<-|]; [|discriminate].
    intros E. inversion E; subst. exists []. split; reflexivity. }
  destruct (bf_loop_spec _ st0 _ _ Hsafe0 Hopt0 Hfl0 Hpot0)
    as [st' [lev' [cur' (E & Hq & Hsafe' & Hopt')]]].
  rewrite E.
  destruct (opt_source _ _ _ _ _ Hopt') as [Hs0 _].
  destruct (bf_final_lower st' lev' cur' Hq Hsafe' Hopt' t p0 s 0%Q Hp0 Hs0)
    as [dt [Hdt _]].
  assert (Hpt : dict_get t (bf_pred st') <> None).
  { apply (safe_dom_pred _ _ _ _ _ _ Hsafe'). congruence. }
  destruct (dict_get t (bf_pred st')) as [pt|] eqn:Ept; [|congruence].
  destruct (build_path_spec st' lev' cur' Hq Hsafe' Hopt'
              (S (length (bf_pred st'))) t [t] dt)
    as [path (Ep & Hhd & Hpath & Hw)]; auto.
  - simpl. lia.
  - constructor; [intros []|constructor].
  - intros y [<-|[]]. apply dict_get_In. eauto.
  - now left.
  - intros y [<-|[]]. now left.
  - rewrite Ep. exists path. split; [reflexivity|]. split; auto. split; auto.
    intros p' Hp'.
    destruct (bf_final_lower st' lev' cur' Hq Hsafe' Hopt' t p' s 0%Q Hp' Hs0)
      as [dt' [Hdt' Hle]].
    rewrite Hdt in Hdt'. inversion Hdt'; subst. lra.
Qed.

End BellmanFord.

(** ** The graph of get_critical_path *)

Lemma edge_key (g : DiGraph) (x y : string) :
  edge g x y <-> In (x, y) (map fst (g_edges g)).
Proof.
  unfold edge. rewrite in_map_iff. split.
  - intros [d H]. now exists (x, y, d).
  - intros [[[a b] d] [E H]]. simpl in E. inversion E; subst. eauto.
Qed.

Lemma edge_add_node (n : string) (a : option NodeData) (g : DiGraph) (x y : string) :
  edge (add_node n a g) x y <-> edge g x y.
Proof. unfold edge. now rewrite edges_add_node. Qed.

Lemma edge_add_edge (u v : string) (a : option EdgeData) (g : DiGraph) (x y : string) :
  edge (add_edge u v a g) x y <-> edge g x y \/ (x = u /\ y = v).
Proof.
  rewrite !edge_key, edges_add_edge, edge_set_key_In. split; intros [H|H]; auto.
  - right. inversion H; auto.
  - right. destruct H; congruence.
Qed.

Lemma In_nodes_add_edge (u v : string) (a : option EdgeData) (g : DiGraph) (x : string) :
  In x (nodes (add_edge u v a g)) <-> In x (nodes g) \/ x = u \/ x = v.
Proof. rewrite nodes_add_edge, !In_nodes_add_node. tauto. Qed.

Lemma fold_add_node_spec (l : list (string * option NodeData)) :
  forall g0,
    graph_ok g0 ->
    graph_ok (fold_left (fun acc n => add_node (fst n) (snd n) acc) l g0)
    /\ (forall x, In x (nodes (fold_left (fun acc n => add_node (fst n) (snd n) acc) l g0))
                  <-> In x (nodes g0) \/ In x (map fst l))
    /\ (forall x y, edge (fold_left (fun acc n => add_node (fst n) (snd n) acc) l g0) x y
                    <-> edge g0 x y).
Proof.
  induction l as [|[n a] r IH]; intros g0 H0; simpl.
  - split; auto. split; intros; tauto.
  - destruct (IH (add_node n a g0) (graph_ok_add_node _ _ _ H0)) as (H1 & H2 & H3).
    split; auto. split.
    + intros x. rewrite H2, In_nodes_add_node. intuition auto.
    + intros x y. rewrite H3. apply edge_add_node.
Qed.

Lemma fold_add_edge_spec {A : Type} (f : A -> string * string * option EdgeData)
    (l : list A) :
  forall g0,
    graph_ok g0 ->
    (forall a, In a l ->
               In (fst (fst (f a))) (nodes g0) /\ In (snd (fst (f a))) (nodes g0)) ->
    graph_ok (fold_left (fun acc a =>
                add_edge (fst (fst (f a))) (snd (fst (f a))) (snd (f a)) acc) l g0)
    /\ (forall x, In x (nodes (fold_left (fun acc a =>
                add_edge (fst (fst (f a))) (snd (fst (f a))) (snd (f a)) acc) l g0))
                  <-> In x (nodes g0))
    /\ (forall x y, edge (fold_left (fun acc a =>
                add_edge (fst (fst (f a))) (snd (fst (f a))) (snd (f a)) acc) l g0) x y
                    <-> edge g0 x y \/ In (x, y) (map (fun a => fst (f a)) l)).
Proof.
  induction l as [|a r IH]; intros g0 H0 Hin; simpl.
  - split; auto. split; intros; tauto.
  - destruct (Hin a (or_introl eq_refl)) as [Hu Hv].
    assert (Hn : forall x, In x (nodes (add_edge (fst (fst (f a))) (snd (fst (f a)))
                                                 (snd (f a)) g0)) <-> In x (nodes g0)).
    { intros x. rewrite In_nodes_add_edge. intuition (subst; auto). }
    destruct (IH _ (graph_ok_add_edge (fst (fst (f a))) (snd (fst (f a))) (snd (f a))
                      _ H0)) as (H1 & H2 & H3).
    { intros b Hb. rewrite !Hn. apply Hin. now right. }
    split; auto. split.
    + intros x. now rewrite H2, Hn.
    + intros x y. rewrite H3, edge_add_edge.
      destruct (f a) as [[u v] d]; simpl. split.
      * intros [[H|[-> ->]]|H]; auto.
      * intros [H|[H|H]]; auto. inversion H; subst; auto.
Qed.

Lemma graph_ok_empty : graph_ok nx_DiGraph.
Proof.
  split; [constructor|]. split; [constructor|]. intros u v d [].
Qed.

Lemma copy_spec (g : DiGraph) :
  graph_ok g ->
  graph_ok (copy g)
  /\ (forall x, In x (nodes (copy g)) <-> In x (nodes g))
  /\ (forall x y, edge (copy g) x y <-> edge g x y).
Proof.
  intros Hg. unfold copy.
  destruct (fold_add_node_spec (g_node g) nx_DiGraph graph_ok_empty) as (H1 & H2 & H3).
  destruct (fold_add_edge_spec (fun e => e) (edges_data g) _ H1) as (K1 & K2 & K3).
  { intros [[u v] d] Hin. simpl. apply In_edges_data in Hin. destruct Hin as [_ Hin].
    rewrite !H2. destruct Hg as (_ & _ & Hg). destruct (Hg _ _ _ Hin).
    split; right; assumption. }
  split; [exact K1|]. split.
  - intros x. rewrite K2, H2. simpl. unfold nodes, dict_keys. tauto.
  - intros x y. rewrite K3, H3. split.
    + intros [[d []]|H]. apply in_map_iff in H. destruct H as [[[a b] d] [E H]].
      simpl in E. inversion E; subst. apply In_edges_data in H. exists d. tauto.
    + intros [d H]. right. apply in_map_iff. exists (x, y, d). split; auto.
      apply In_edges_data. split; auto. destruct Hg as (_ & _ & Hg).
      now destruct (Hg _ _ _ H).
Qed.

Lemma In_graph_sources (g : DiGraph) (x : string) :
  In x (graph_sources g) <-> In x (nodes g) /\ in_degree g x = 0.
Proof. unfold graph_sources. now rewrite filter_In, Nat.eqb_eq. Qed.

Lemma In_graph_sinks (g : DiGraph) (x : string) :
  In x (graph_sinks g) <-> In x (nodes g) /\ out_degree g x = 0.
Proof. unfold graph_sinks. now rewrite filter_In, Nat.eqb_eq. Qed.

(** Nodes and edges of the graph with the two virtual end points. *)
Lemma augmented_spec (c : HybridChain) :
  graph_ok (graph c) ->
  graph_ok (augmented c)
  /\ (forall x, In x (nodes (augmented c))
                <-> In x (nodes (graph c)) \/ x = "__src__" \/ x = "__sink__")
  /\ (forall x y, edge (augmented c) x y
                  <-> edge (graph c) x y
                      \/ (x = "__src__" /\ In y (graph_sources (graph c)))
                      \/ (In x (graph_sinks (graph c)) /\ y = "__sink__")).
Proof.
  intros Hg. unfold augmented.
  destruct (copy_spec _ Hg) as (C1 & C2 & C3).
  set (g0 := add_node "__sink__" None (add_node "__src__" None (copy (graph c)))).
  assert (G1 : graph_ok g0) by (unfold g0; auto using graph_ok_add_node).
  assert (G2 : forall x, In x (nodes g0)
               <-> In x (nodes (graph c)) \/ x = "__src__" \/ x = "__sink__").
  { intros x. unfold g0. rewrite !In_nodes_add_node, C2. tauto. }
  assert (G3 : forall x y, edge g0 x y <-> edge (graph c) x y).
  { intros x y. unfold g0. now rewrite !edge_add_node, C3. }
  destruct (fold_add_edge_spec (fun s : string => ("__src__", s, @None EdgeData))
              (graph_sources (graph c)) g0 G1) as (S1 & S2 & S3).
  { intros a Ha. simpl. rewrite !G2. apply In_graph_sources in Ha. tauto. }
  simpl in S1, S2, S3.
  destruct (fold_add_edge_spec (fun s : string => (s, "__sink__", @None EdgeData))
              (graph_sinks (graph c)) _ S1) as (T1 & T2 & T3).
  { intros a Ha. simpl. rewrite !S2, !G2. apply In_graph_sinks in Ha. tauto. }
  simpl in T1, T2, T3.
  split; [exact T1|]. split.
  - intros x. now rewrite T2, S2, G2.
  - intros x y. rewrite T3, S3, G3, !in_map_iff. split.
    + intros [[H|[a [E Ha]]]|[a [E Ha]]]; auto; inversion E; subst; auto.
    + intros [H|[[-> H]|[H ->]]]; eauto.
Qed.

Lemma path_to_mono (g g' : DiGraph) (t : string) (p : list string) :
  (forall x y, edge g x y -> edge g' x y) -> path_to g t p -> path_to g' t p.
Proof.
  intros Hsub. induction p as [|x r IH]; simpl; auto.
  destruct r as [|y r']; auto. intros [He Hp]. split; auto.
Qed.

Lemma path_to_end_node (g : DiGraph) (t x : string) (m : list string) :
  graph_ok g -> In x (nodes g) -> path_to g t (x :: m) -> In t (nodes g).
Proof.
  intros Hg Hx Hp. apply (path_to_nodes g t x m Hg Hx Hp). now apply (path_to_last g).
Qed.

(** In an acyclic graph every walk can be continued to a node without
    successor. *)
Lemma sink_walk (g : DiGraph) (k : nat) :
  graph_ok g -> ~ cyclic g ->
  forall a0 p a,
    In a0 (nodes g) -> path_to g a (a0 :: p) -> order g <= length p + k ->
    exists t q, path_to g t (a :: q) /\ In t (graph_sinks g).
Proof.
  intros Hg Hac. induction k as [|k IH]; intros a0 p a Ha0 Hp Hlen.
  - pose proof (acyclic_walk_length g a0 a p Hg Hac Ha0 Hp). lia.
  - pose proof (path_to_end_node g a a0 p Hg Ha0 Hp) as Ha.
    destruct (successors g a) as [|y ys] eqn:E.
    + exists a, []. split; [reflexivity|]. apply In_graph_sinks. split; auto.
      unfold out_degree. now rewrite E.
    + assert (He : edge g a y) by (apply In_successors; rewrite E; now left).
      destruct (IH a0 (p ++ [y]) y Ha0) as [t [q [Hq Ht]]].
      * change (a0 :: p ++ [y]) with ((a0 :: p) ++ [y]).
        now apply (path_to_snoc g a y).
      * rewrite length_app. simpl. lia.
      * exists t, (y :: q). split; auto. split; assumption.
Qed.

Section Augmented.
Variable c : HybridChain.
Hypothesis Hok : chain_ok c.
Hypothesis Hac : ~ cyclic (graph c).
Hypothesis Hsrc : ~ In "__src__" (nodes (graph c)).
Hypothesis Hsnk : ~ In "__sink__" (nodes (graph c)).

Lemma aug_graph_ok : graph_ok (graph c).
Proof. apply Hok. Qed.

Lemma aug_edge (x y : string) :
  edge (augmented c) x y
  <-> edge (graph c) x y
      \/ (x = "__src__" /\ In y (graph_sources (graph c)))
      \/ (In x (graph_sinks (graph c)) /\ y = "__sink__").
Proof. apply (augmented_spec c aug_graph_ok). Qed.

Lemma aug_no_in_src (u : string) : ~ edge (augmented c) u "__src__".
Proof.
  intros H. apply aug_edge in H. destruct H as [H|[[_ H]|[_ H]]].
  - apply Hsrc. now apply (edge_nodes _ aug_graph_ok u "__src__").
  - apply In_graph_sources in H. tauto.
  - discriminate.
Qed.

Lemma aug_no_out_sink (v : string) : ~ edge (augmented c) "__sink__" v.
Proof.
  intros H. apply aug_edge in H. destruct H as [H|[[H _]|[H _]]].
  - apply Hsnk. now apply (edge_nodes _ aug_graph_ok "__sink__" v).
  - discriminate.
  - apply In_graph_sinks in H. tauto.
Qed.

Lemma aug_reach (x y : string) :
  reachable (augmented c) x y ->
  y <> "__src__" /\ x <> "__sink__"
  /\ (x = "__src__" \/ y = "__sink__" \/ reachable (graph c) x y).
Proof.
  induction 1 as [x y He | x y z _ [H1 [H2 H3]] _ [K1 [K2 K3]]].
  - split; [intros ->; now apply (aug_no_in_src x)|].
    split; [intros ->; now apply (aug_no_out_sink y)|].
    apply aug_edge in He. destruct He as [He|[[-> _]|[_ ->]]]; auto.
    right. right. now apply t_step.
  - split; auto. split; auto.
    destruct H3 as [->|[->|H3]]; auto; [tauto|].
    destruct K3 as [->|[->|K3]]; auto; [tauto|].
    right. right. now apply t_trans with y.
Qed.

Lemma aug_acyclic : ~ cyclic (augmented c).
Proof.
  intros [v Hv]. apply aug_reach in Hv. destruct Hv as [H1 [H2 [->|[->|H3]]]]; auto.
  apply Hac. now exists v.
Qed.

Lemma weight_node (u v : string) : (_weight c u v == - node_duration c v)%Q.
Proof.
  unfold _weight, node_duration.
  destruct (dict_get v (_entities c)) as [[]|]; try reflexivity.
  destruct (duration_hours _) as [d|]; try reflexivity.
  destruct (Qeq_bool d 0) eqn:E; [|reflexivity].
  apply Qeq_bool_iff in E. rewrite E. reflexivity.
Qed.

Lemma path_weight_total (q : list string) :
  forall a, (path_weight (_weight c) (a :: q) == - total_duration c q)%Q.
Proof.
  induction q as [|y r IH]; intros a.
  - reflexivity.
  - change (path_weight (_weight c) (a :: y :: r))
      with (_weight c a y + path_weight (_weight c) (y :: r))%Q.
    rewrite IH, weight_node. simpl. ring.
Qed.

Lemma total_duration_app (p q : list string) :
  (total_duration c (p ++ q) == total_duration c p + total_duration c q)%Q.
Proof.
  induction p as [|x r IH]; simpl.
  - ring.
  - fold (total_duration c (r ++ q)). fold (total_duration c r). rewrite IH. ring.
Qed.

Lemma node_duration_sink : node_duration c "__sink__" = 0%Q.
Proof.
  unfold node_duration. destruct Hok as (_ & Hk & _). rewrite Hk in Hsnk.
  apply dict_get_None in Hsnk. now rewrite Hsnk.
Qed.

Lemma aug_walk_shape (r : list string) :
  forall x,
    In x (nodes (graph c)) -> path_to (augmented c) "__sink__" (x :: r) ->
    exists m t, r = m ++ ["__sink__"] /\ path_to (graph c) t (x :: m)
                /\ In t (graph_sinks (graph c)).
Proof.
  induction r as [|y r IH]; intros x Hx Hp.
  - simpl in Hp. subst. tauto.
  - destruct Hp as [He Hp]. apply aug_edge in He. destruct He as [He|[[-> _]|[Ht ->]]].
    + destruct (IH y) as [m [t (E & Hm & Ht)]]; auto.
      { now apply (edge_nodes _ aug_graph_ok x y). }
      exists (y :: m), t. split; [now rewrite E|]. split; auto. split; assumption.
    + tauto.
    + destruct r as [|z r'].
      * exists [], x. split; [reflexivity|]. split; [reflexivity|assumption].
      * destruct Hp as [He _]. now apply aug_no_out_sink in He.
Qed.

Lemma aug_walk_of (x t : string) (m : list string) :
  In x (graph_sources (graph c)) -> In t (graph_sinks (graph c)) ->
  path_to (graph c) t (x :: m) ->
  path_to (augmented c) "__sink__" ("__src__" :: (x :: m) ++ ["__sink__"]).
Proof.
  intros Hx Ht Hp.
  change (("__src__" :: (x :: m) ++ ["__sink__"]))
    with ("__src__" :: x :: m ++ ["__sink__"]).
  split.
  - apply aug_edge. auto.
  - change (x :: m ++ ["__sink__"]) with ((x :: m) ++ ["__sink__"]).
    apply (path_to_snoc (augmented c) t).
    + apply (path_to_mono (graph c)); auto. intros a b H. apply aug_edge. auto.
    + apply aug_edge. auto.
Qed.

Lemma filter_sentinels (l : list string) :
  (forall y, In y l -> In y (nodes (graph c))) ->
  filter (fun n => negb (mem n ["__src__"; "__sink__"])) ("__src__" :: l ++ ["__sink__"])
  = l.
Proof.
  intros Hl. cbn [filter]. change (negb (mem "__src__" ["__src__"; "__sink__"])) with false.
  cbv iota. rewrite filter_app.
  change (filter (fun n => negb (mem n ["__src__"; "__sink__"])) ["__sink__"])
    with (@nil string).
  rewrite app_nil_r. apply forallb_filter_id. apply forallb_forall. intros y Hy.
  apply Hl in Hy. apply negb_true_iff. apply mem_notIn. intros [<-|[<-|[]]]; tauto.
Qed.
End Augmented.

Lemma path_to_snoc_inv (g : DiGraph) (t v : string) (p : list string) :
  forall x,
    path_to g t (x :: p ++ [v]) ->
    t = v /\ exists t', path_to g t' (x :: p) /\ edge g t' v.
Proof.
  induction p as [|y r IH]; intros x Hp.
  - destruct Hp as [He Hp]. simpl in Hp. subst. split; auto. exists x. split; auto.
    reflexivity.
  - destruct Hp as [He Hp]. destruct (IH y Hp) as [E [t' [Ht' He']]].
    split; auto. exists t'. split; auto. split; assumption.
Qed.

Lemma abs_duration_app (c : HybridChain) (l1 l2 : list string) :
  (abs_duration c (l1 ++ l2) == abs_duration c l1 + abs_duration c l2)%Q.
Proof.
  induction l1 as [|x r IH]; simpl.
  - ring.
  - fold (abs_duration c (r ++ l2)). fold (abs_duration c r). rewrite IH. ring.
Qed.

Lemma abs_duration_nonneg (c : HybridChain) (l : list string) :
  (0 <= abs_duration c l)%Q.
Proof.
  induction l as [|x r IH]; simpl; [lra|]. fold (abs_duration c r).
  pose proof (Qabs_nonneg (node_duration c x)). lra.
Qed.

Lemma abs_duration_incl (c : HybridChain) (l : list string) :
  forall l', NoDup l -> incl l l' -> (abs_duration c l <= abs_duration c l')%Q.
Proof.
  induction l as [|x r IH]; intros l' Hnd Hincl.
  - apply abs_duration_nonneg.
  - inversion Hnd as [|? ? Hx Hr]; subst.
    destruct (in_split x l' (Hincl x (or_introl eq_refl))) as [l1 [l2 ->]].
    rewrite abs_duration_app. cbn [abs_duration fold_right].
    fold (abs_duration c r). fold (abs_duration c l2).
    assert (H : (abs_duration c r <= abs_duration c (l1 ++ l2))%Q).
    { apply IH; auto. intros y Hy.
      assert (Hy' : In y (l1 ++ x :: l2)) by (apply Hincl; now right).
      apply in_app_or in Hy'. apply in_or_app.
      destruct Hy' as [Hy'|[<-|Hy']]; auto. tauto. }
    rewrite abs_duration_app in H. lra.
Qed.

Lemma total_duration_abs (c : HybridChain) (l : list string) :
  (Qabs (total_duration c l) <= abs_duration c l)%Q.
Proof.
  induction l as [|x r IH]; simpl.
  - apply Qle_refl.
  - fold (total_duration c r). fold (abs_duration c r).
    eapply Qle_trans; [apply Qabs_triangle|]. lra.
Qed.

Lemma total_duration_whole (c : HybridChain) (l : list string) :
  (forall v, exists z : Z, (node_duration c v == inject_Z z)%Q) ->
  exists z : Z, (total_duration c l == inject_Z z)%Q.
Proof.
  intros Hw. induction l as [|x r [zr IH]]; simpl.
  - now exists 0%Z.
  - fold (total_duration c r). destruct (Hw x) as [zx Hx].
    exists (zx + zr)%Z. rewrite inject_Z_plus, Hx, IH. reflexivity.
Qed.

Lemma whole_durationsb_spec (c : HybridChain) :
  whole_durationsb c = true -> whole_durations c.
Proof.
  unfold whole_durationsb. intros H. apply andb_prop in H. destruct H as [H1 H2].
  split.
  - intros v. destruct (in_dec string_dec v (dict_keys (_entities c))) as [Hv|Hv].
    + rewrite forallb_forall in H1. specialize (H1 v Hv).
      apply Qeq_bool_iff in H1. eexists. exact H1.
    + exists 0%Z. unfold node_duration.
      apply dict_get_None in Hv. rewrite Hv. reflexivity.
  - apply Qnot_le_lt. intros Hle. apply Qle_bool_iff in Hle.
    rewrite Hle in H2. discriminate.
Qed.

Section ExactDurations.
Variable c : HybridChain.
Hypothesis Hok : chain_ok c.
Hypothesis Hac : ~ cyclic (graph c).
Hypothesis Hsrc : ~ In "__src__" (nodes (graph c)).
Hypothesis Hsnk : ~ In "__sink__" (nodes (graph c)).
Hypothesis Hwhole : whole_durations c.

Lemma node_duration_src : node_duration c "__src__" = 0%Q.
Proof.
  unfold node_duration. destruct Hok as (_ & Hk & _). rewrite Hk in Hsrc.
  apply dict_get_None in Hsrc. now rewrite Hsrc.
Qed.

(** The durations along a walk of the search graph add up to a float. *)
Lemma walk_sum_exact (p : list string) (t : string) (x : Q) :
  path_to (augmented c) t ("__src__" :: p) ->
  (x == - total_duration c p)%Q ->
  (fl x == x)%Q.
Proof.
  intros Hp Hx. destruct Hwhole as [Hw Hb].
  destruct (total_duration_whole c p Hw) as [z Hz].
  apply (fl_exact_int x (- z)).
  - rewrite Hx, Hz, inject_Z_opp. reflexivity.
  - assert (Hnd : NoDup ("__src__" :: p)).
    { apply (acyclic_walk_NoDup (augmented c) t); auto.
      now apply (aug_acyclic c Hok Hac Hsrc Hsnk). }
    inversion Hnd as [|? ? _ Hnd']; subst.
    destruct (augmented_spec c (aug_graph_ok c Hok)) as (A1 & A2 & _).
    assert (Hin : incl p (nodes (graph c) ++ ["__src__"; "__sink__"])).
    { intros y Hy. apply in_or_app.
      assert (Hy' : In y (nodes (augmented c))).
      { apply (path_to_nodes (augmented c) t "__src__" p A1); auto.
        - apply A2. auto.
        - now right. }
      apply A2 in Hy'. destruct Hy' as [Hy' | [ -> | -> ] ]; simpl; auto. }
    pose proof (abs_duration_incl c p _ Hnd' Hin) as H1.
    rewrite abs_duration_app in H1. cbn [abs_duration fold_right] in H1.
    rewrite node_duration_src, (node_duration_sink c Hok Hsnk) in H1.
    pose proof (total_duration_abs c p) as H2.
    assert (H3 : (Qabs (inject_Z z) < inject_Z (2 ^ 53))%Q).
    { rewrite <- Hz. change (Qabs 0) with 0%Q in H1. lra. }
    apply Qabs_Qlt_condition in H3. destruct H3 as [H3 H4].
    rewrite <- inject_Z_opp, <- Zlt_Qlt in H3. rewrite <- Zlt_Qlt in H4. lia.
Qed.

Lemma float_walk_exact (p : list string) :
  forall t,
    path_to (augmented c) t ("__src__" :: p) ->
    (float_walk_weight (_weight c) ("__src__" :: p) == - total_duration c p)%Q.
Proof.
  induction p as [|v q IH] using rev_ind; intros t Hp.
  - reflexivity.
  - apply path_to_snoc_inv in Hp. destruct Hp as [-> [t' [Hq He]]].
    unfold float_walk_weight.
    rewrite (float_walk_from_snoc (augmented c) (_weight c) t' v q "__src__" 0%Q Hq).
    fold (float_walk_weight (_weight c) ("__src__" :: q)).
    assert (E : (float_walk_weight (_weight c) ("__src__" :: q) + _weight c t' v
                 == - total_duration c (q ++ [v]))%Q).
    { rewrite (IH t' Hq), weight_node, total_duration_app. simpl. ring. }
    rewrite (walk_sum_exact (q ++ [v]) v _); auto.
    change ("__src__" :: q ++ [v]) with (("__src__" :: q) ++ [v]).
    now apply (path_to_snoc (augmented c) t' v).
Qed.

Lemma aug_exact (d : Q) (t v : string) :
  reached_by (augmented c) (_weight c) "__src__" d t ->
  edge (augmented c) t v ->
  (fl (d + _weight c t v) == d + _weight c t v)%Q.
Proof.
  intros [p [Hp ->]] He. apply (walk_sum_exact (p ++ [v]) v).
  - change ("__src__" :: p ++ [v]) with (("__src__" :: p) ++ [v]).
    now apply (path_to_snoc (augmented c) t v).
  - rewrite (float_walk_exact p t Hp), weight_node, total_duration_app. simpl. ring.
Qed.
End ExactDurations.

Lemma get_critical_path_search (c : HybridChain) :
  graph_ok (graph c) -> ~ cyclic (graph c) -> nodes (graph c) <> [] ->
  get_critical_path c
  = match bellman_ford_path (augmented c) "__src__" "__sink__" (_weight c) with
    | None => None
    | Some (Ok path) =>
        Some (Ok (filter (fun n => negb (mem n ["__src__"; "__sink__"])) path))
    | Some (Raise NetworkXNoPath) => Some (Ok [])
    | Some (Raise e) => Some (Raise e)
    end.
Proof.
  intros Hg Hac Hne.
  destruct (acyclic_has_source_and_sink _ Hg Hac Hne) as [HS HT].
  unfold get_critical_path.
  destruct (is_directed_acyclic_graph_spec _ Hg) as [(Hy & _)|(_ & E & _)]; [tauto|].
  rewrite E.
  assert ((order (graph c) =? 0) = false) as Eo.
  { apply Nat.eqb_neq. rewrite order_nodes.
    destruct (nodes (graph c)); [tauto|discriminate]. }
  rewrite Eo.
  destruct (graph_sources (graph c)); [tauto|].
  destruct (graph_sinks (graph c)); [tauto|]. reflexivity.
Qed.

(** On an empty chain [get_critical_path] returns the empty sequence. *)
Lemma critical_path_empty (c : HybridChain) :
  wf_chain c = true -> nodes (graph c) = [] -> get_critical_path c = Some (Ok []).
Proof.
  intros Hwf En. pose proof (wf_chain_graph_ok c Hwf) as Hg.
  unfold get_critical_path.
  destruct (is_directed_acyclic_graph_spec _ Hg) as [(Hy & _)|(_ & E & _)].
  - exfalso. now apply (empty_graph_acyclic _ Hg En).
  - rewrite E. unfold order. unfold nodes, dict_keys in En.
    destruct (g_node (graph c)); [reflexivity|discriminate].
Qed.

(** The general case of [get_critical_path]. On an acyclic chain with at
    least one entity, none of which is named like one of the two virtual end
    points, and whose durations are whole numbers of hours adding up to less
    than 2^53 (so that every float addition of the search is exact),
    [get_critical_path] returns a path from a zero-in-degree node to a
    zero-out-degree node whose total duration is the greatest among all
    such paths. *)
Theorem critical_path_optimal (c : HybridChain) :
  wf_chain c = true -> ~ cyclic (graph c) -> nodes (graph c) <> [] ->
  ~ In "__src__" (nodes (graph c)) -> ~ In "__sink__" (nodes (graph c)) ->
  whole_durations c ->
  exists p,
    get_critical_path c = Some (Ok p)
    /\ source_sink_path (graph c) p
    /\ forall p', source_sink_path (graph c) p' ->
                  (total_duration c p' <= total_duration c p)%Q.
Proof.
  intros Hwf Hac Hne Hsrc Hsnk Hwhole.
  pose proof (proj1 (wf_chain_ok c) Hwf) as Hok.
  pose proof (wf_chain_graph_ok c Hwf) as Hg.
  destruct (augmented_spec c Hg) as (A1 & A2 & _).
  rewrite (get_critical_path_search c Hg Hac Hne).
  assert (Hx0 : exists x0, In x0 (graph_sources (graph c))).
  { destruct (acyclic_has_source_and_sink _ Hg Hac Hne) as [HS _].
    destruct (graph_sources (graph c)) as [|x0 r]; [tauto|]. exists x0. now left. }
  destruct Hx0 as [x0 Hx0].
  pose proof (proj1 (In_graph_sources _ _) Hx0) as [Hx0n _].
  destruct (sink_walk (graph c) (order (graph c)) Hg Hac x0 [] x0 Hx0n eq_refl)
    as [t0 [q0 [Hq0 Ht0]]]; [simpl; lia|].
  pose proof (aug_walk_of c Hok x0 t0 q0 Hx0 Ht0 Hq0) as Hw0.
  destruct (bellman_ford_path_spec (augmented c) A1 (aug_acyclic c Hok Hac Hsrc Hsnk)
              (_weight c) "__src__") with (t := "__sink__")
    as [path (Ebf & [r Er] & Hpath & Hmin)].
  - apply A2. auto.
  - apply (aug_no_in_src c Hok Hsrc).
  - apply (aug_exact c Hok Hac Hsrc Hsnk Hwhole).
  - discriminate.
  - eexists. exact Hw0.
  - rewrite Ebf. subst path. destruct r as [|x r]; [discriminate Hpath|].
    destruct Hpath as [He Hpath].
    assert (Hx : In x (graph_sources (graph c))).
    { apply (aug_edge c Hok) in He. destruct He as [He|[[_ He]|[He _]]]; auto.
      - exfalso. apply Hsrc. now apply (edge_nodes _ Hg "__src__" x).
      - exfalso. apply In_graph_sinks in He. tauto. }
    pose proof (proj1 (In_graph_sources _ _) Hx) as [Hxn Hxd].
    destruct (aug_walk_shape c Hok Hsrc Hsnk r x Hxn Hpath) as [m [t (Er & Hm & Ht)]].
    subst r. pose proof (proj1 (In_graph_sinks _ _) Ht) as [Htn Htd].
    exists (x :: m). split.
    { change ("__src__" :: x :: m ++ ["__sink__"])
        with ("__src__" :: (x :: m) ++ ["__sink__"]).
      rewrite (filter_sentinels c Hsrc Hsnk); [reflexivity|].
      apply (path_to_nodes (graph c) t x m Hg Hxn Hm). }
    split.
    { exists x, t. repeat split; auto.
      - now exists m.
      - now apply (acyclic_walk_NoDup (graph c) t). }
    intros p' (s' & t' & Hs'n & Hs'd & Ht'n & Ht'd & [q Eq] & Hp' & _). subst p'.
    assert (Hs' : In s' (graph_sources (graph c))) by now apply In_graph_sources.
    assert (Ht' : In t' (graph_sinks (graph c))) by now apply In_graph_sinks.
    pose proof (Hmin _ (aug_walk_of c Hok s' t' q Hs' Ht' Hp')) as Hle.
    rewrite !path_weight_total in Hle.
    change (x :: m ++ ["__sink__"]) with ((x :: m) ++ ["__sink__"]) in Hle.
    rewrite !total_duration_app in Hle.
    assert (E0 : (total_duration c ["__sink__"] == 0)%Q).
    { simpl. rewrite (node_duration_sink c Hok Hsnk). reflexivity. }
    rewrite E0 in Hle. lra.
Qed.

(** [get_critical_path] on the chain of the tests: the longest path is the
    one through the three actions to the narrative and its target. *)
Lemma critical_path_optimal_witness :
  exists p,
    get_critical_path simple_chain = Some (Ok p)
    /\ source_sink_path (graph simple_chain) p
    /\ forall p', source_sink_path (graph simple_chain) p' ->
                  (total_duration simple_chain p' <= total_duration simple_chain p)%Q.
Proof.
  apply (critical_path_optimal simple_chain).
  - vm_compute; reflexivity.
  - apply is_dag_true_acyclic.
    + apply wf_chain_graph_ok. vm_compute; reflexivity.
    + vm_compute; reflexivity.
  - vm_compute; discriminate.
  - apply (proj1 (mem_notIn _ _)). vm_compute; reflexivity.
  - apply (proj1 (mem_notIn _ _)). vm_compute; reflexivity.
  - apply whole_durationsb_spec. vm_compute; reflexivity.
Defined.

(** * Further properties of the chain store *)

Lemma NoDup_of_keys {A B : Type} (f : A -> B) (l : list A) : NoDup (map f l) -> NoDup l.
Proof.
  induction l as [|a r IH]; intros H; [constructor|].
  simpl in H. inversion H as [|? ? Hn Hr]; subst. constructor; auto.
  intros Hin. apply Hn. now apply in_map.
Qed.

(** [graph.edges(data=True)] lists every edge once. *)
Lemma edges_data_perm (g : DiGraph) : graph_ok g -> Permutation (edges_data g) (g_edges g).
Proof.
  intros Hg. apply NoDup_Permutation.
  - apply (NoDup_of_keys fst). now apply edges_data_keys_NoDup.
  - apply (NoDup_of_keys fst). apply Hg.
  - intros [[u v] d]. rewrite In_edges_data. split; [tauto|].
    intros H. split; auto. destruct Hg as (_ & _ & Hends). now destruct (Hends u v d H).
Qed.

Lemma reachable_mono (g g' : DiGraph) (x y : string) :
  (forall a b, edge g a b -> edge g' a b) -> reachable g x y -> reachable g' x y.
Proof.
  intros Hsub. induction 1 as [x y He|x y z _ IH1 _ IH2].
  - apply t_step. auto.
  - now apply t_trans with y.
Qed.

Lemma reachable_nodes (g : DiGraph) (x y : string) :
  graph_ok g -> reachable g x y -> In x (nodes g) /\ In y (nodes g).
Proof.
  intros Hg. induction 1 as [x y He|x y z _ IH1 _ IH2].
  - now apply (edge_nodes g Hg).
  - tauto.
Qed.

Lemma constructed_simple_chain : constructed simple_chain.
Proof.
  assert (E : simple_chain
              = fold_left (fun c op => snd (op c)) simple_chain_ops
                  (new_chain "test-chain" "Test Chain" "A simple test chain"))
    by (vm_compute; reflexivity).
  rewrite E. unfold simple_chain_ops. cbn [fold_left].
  do 7 apply constructed_relationship. do 8 apply constructed_entity.
  apply constructed_new.
Qed.

Lemma succ_items_outside (g : DiGraph) (u : string) :
  graph_ok g -> ~ In u (nodes g) -> succ_items g u = [].
Proof.
  intros Hg Hu. destruct (succ_items g u) as [|[v d] r] eqn:E; auto.
  exfalso. assert (Hin : In (v, d) (succ_items g u)) by (rewrite E; now left).
  apply In_succ_items in Hin. destruct Hg as (_ & _ & Hends).
  now destruct (Hends u v d Hin).
Qed.

(** [add_entity] under an id that is not in use: the entity is appended to
    the entities and its id to the nodes, it is found under its id, and the
    relationships are the same list as before. *)
Theorem add_entity_fresh (c : HybridChain) (e : Entity) :
  wf_chain c = true ->
  ~ In (entity_id e) (dict_keys (entities c)) ->
  let c' := snd (add_entity e c) in
  fst (add_entity e c) = Ok tt
  /\ entities c' = entities c ++ [(entity_id e, e)]
  /\ nodes (graph c') = nodes (graph c) ++ [entity_id e]
  /\ get_entity c' (entity_id e) = Some e
  /\ (forall k, k <> entity_id e -> get_entity c' k = get_entity c k)
  /\ relationships c' = relationships c
  /\ wf_chain c' = true.
Proof.
  intros Hwf Hout. pose proof (proj1 (wf_chain_ok c) Hwf) as Hok.
  pose proof (chain_ok_add_entity e c Hok) as Hok'. apply wf_chain_ok in Hok'.
  destruct Hok as [Hg [Hn He]]. unfold entities in *. cbn zeta.
  assert (Hnode : ~ In (entity_id e) (nodes (graph c))) by now rewrite Hn.
  split; [reflexivity|]. split; [|split; [|split; [|split; [|split]]]]; auto.
  - cbn [add_entity snd _entities]. now apply dict_set_notin.
  - cbn [add_entity snd graph]. now apply nodes_add_node_notin.
  - unfold get_entity. cbn [add_entity snd _entities]. apply dict_get_set_eq.
  - intros k Hk. unfold get_entity. cbn [add_entity snd _entities].
    apply dict_get_set_neq. congruence.
  - unfold relationships, edges_data. cbn [add_entity snd graph].
    rewrite nodes_add_node_notin by assumption.
    rewrite flat_map_app. cbn [flat_map].
    unfold succ_items at 2. rewrite edges_add_node.
    fold (succ_items (graph c) (entity_id e)).
    rewrite (succ_items_outside _ _ Hg Hnode). cbn [map app]. rewrite app_nil_r.
    apply flat_map_ext. intros u. unfold succ_items. now rewrite edges_add_node.
Qed.

Lemma add_entity_fresh_witness :
  wf_chain simple_chain = true
  /\ ~ In "obs1" (dict_keys (entities simple_chain))
  /\ relationships (snd (add_entity (mk_actor "obs1" "Observer" PROXY) simple_chain))
     = relationships simple_chain
  /\ get_entity (snd (add_entity (mk_actor "obs1" "Observer" PROXY) simple_chain)) "obs1"
     = Some (mk_actor "obs1" "Observer" PROXY).
Proof.
  assert (H1 : wf_chain simple_chain = true) by (vm_compute; reflexivity).
  assert (H2 : ~ In "obs1" (dict_keys (entities simple_chain)))
    by (apply (proj1 (mem_notIn _ _)); vm_compute; reflexivity).
  split; [exact H1|]. split; [exact H2|].
  destruct (add_entity_fresh simple_chain (mk_actor "obs1" "Observer" PROXY) H1 H2)
    as (_ & _ & _ & K1 & _ & K2 & _).
  split; [exact K2|exact K1].
Defined.

(** Referential integrity of the chains built through the API: both end
    points of every relationship are entities stored under the id the
    relationship names, every relationship carries the attributes of
    [add_relationship], there is one relationship per ordered pair, and the
    graph nodes are the entity ids in insertion order. *)
Theorem constructed_integrity (c : HybridChain) :
  constructed c ->
  (forall u v d, In (u, v, d) (relationships c) ->
     (exists eu, get_entity c u = Some eu /\ entity_id eu = u)
     /\ (exists ev, get_entity c v = Some ev /\ entity_id ev = v)
     /\ exists x, d = Some x)
  /\ NoDup (map fst (relationships c))
  /\ nodes (graph c) = dict_keys (entities c).
Proof.
  intros Hc. pose proof (constructed_ok c Hc) as [Hg [Hn He]].
  pose proof (proj1 (edges_labelled_spec c) (constructed_labelled c Hc)) as Hl.
  assert (Hent : forall u, In u (nodes (graph c)) ->
                           exists eu, get_entity c u = Some eu /\ entity_id eu = u).
  { intros u Hu. rewrite Hn in Hu. apply dict_get_In in Hu. destruct Hu as [eu Hu].
    exists eu. split; auto. symmetry. apply He. now apply dict_get_Some_In. }
  split; [|split]; auto.
  - intros u v d Hin. apply In_edges_data in Hin. destruct Hin as [_ Hin].
    destruct Hg as (_ & _ & Hends). destruct (Hends u v d Hin) as [Hu Hv].
    split; [auto|]. split; [auto|].
    destruct d as [x|]; [eauto|]. now destruct (Hl u v None Hin).
  - now apply edges_data_keys_NoDup.
Qed.

Lemma constructed_integrity_witness :
  constructed simple_chain
  /\ exists eu, get_entity simple_chain "act1" = Some eu /\ entity_id eu = "act1".
Proof.
  split; [exact constructed_simple_chain|].
  destruct (constructed_integrity simple_chain constructed_simple_chain) as (H & _ & _).
  destruct (H "act1" "act2"
              (Some (edge_data_of (mk_rel "act1" "act2" DEPENDENCY)))) as (K & _ & _).
  - vm_compute. tauto.
  - exact K.
Defined.

(** [is_valid_dag] decides acyclicity: it returns [True] exactly on the
    chains without directed cycle and [False] exactly on the others, and
    where it returns [True], [get_chain] returns a list. *)
Theorem is_valid_dag_decides (c : HybridChain) :
  wf_chain c = true ->
  (is_valid_dag c = Some (Ok true) <-> ~ cyclic (graph c))
  /\ (is_valid_dag c = Some (Ok false) <-> cyclic (graph c))
  /\ (is_valid_dag c = Some (Ok true) -> exists l, get_chain c = Some (Ok l)).
Proof.
  intros Hwf. pose proof (wf_chain_graph_ok c Hwf) as Hg.
  unfold is_valid_dag, get_chain.
  destruct (is_directed_acyclic_graph_spec _ Hg) as [(Hy & E & _)|(Hn & E & l & El & _)];
    rewrite E.
  - split; [split; [discriminate|tauto]|]. split; [tauto|discriminate].
  - split; [tauto|]. split; [split; [discriminate|tauto]|]. intros _. now exists l.
Qed.

Lemma is_valid_dag_decides_witness :
  wf_chain simple_chain = true /\ ~ cyclic (graph simple_chain).
Proof.
  assert (H1 : wf_chain simple_chain = true) by (vm_compute; reflexivity).
  split; [exact H1|].
  destruct (is_valid_dag_decides simple_chain H1) as (H & _ & _).
  apply H. vm_compute; reflexivity.
Defined.

(** [add_relationship] makes no acyclicity check. A relationship whose
    target already reaches its source, or is its source, is accepted like
    any other, and from then on [is_valid_dag] is [False] and [get_chain]
    raises the cycle error. *)
Theorem add_relationship_closes_cycle (c : HybridChain) (rel : Relationship) :
  wf_chain c = true ->
  In (source_id rel) (dict_keys (entities c)) ->
  In (target_id rel) (dict_keys (entities c)) ->
  target_id rel = source_id rel \/ reachable (graph c) (target_id rel) (source_id rel) ->
  fst (add_relationship rel c) = Ok tt
  /\ is_valid_dag (snd (add_relationship rel c)) = Some (Ok false)
  /\ get_chain (snd (add_relationship rel c)) = Some (Raise cycle_error).
Proof.
  intros Hwf Hs Ht Hback. pose proof (proj1 (wf_chain_ok c) Hwf) as Hok.
  pose proof (chain_ok_add_relationship rel c Hok) as [Hg' _].
  revert Hg'. unfold add_relationship, entities in *.
  rewrite (proj2 (mem_In _ _) Hs), (proj2 (mem_In _ _) Ht). cbn [negb fst snd graph].
  intros Hg'. split; [reflexivity|].
  set (g' := add_edge (source_id rel) (target_id rel)
               (Some {| ed_edge_type := edge_type rel; ed_resource_id := resource_id rel;
                        ed_description := description rel |}) (graph c)) in *.
  assert (Hcyc : cyclic g').
  { exists (source_id rel).
    assert (He : edge g' (source_id rel) (target_id rel)).
    { unfold g'. apply edge_add_edge. auto. }
    destruct Hback as [E|Hr].
    - rewrite E in He. now apply t_step.
    - apply t_trans with (target_id rel); [now apply t_step|].
      apply (reachable_mono (graph c)); auto.
      intros a b Hab. unfold g'. apply edge_add_edge. auto. }
  unfold is_valid_dag, get_chain. cbn [graph].
  destruct (is_directed_acyclic_graph_spec g' Hg') as [(_ & E & _)|(Hn & _)]; [|tauto].
  rewrite E. auto.
Qed.

Lemma add_relationship_closes_cycle_witness :
  fst (add_relationship (mk_rel "t1" "a1" TRIGGERS) simple_chain) = Ok tt
  /\ is_valid_dag (snd (add_relationship (mk_rel "t1" "a1" TRIGGERS) simple_chain))
     = Some (Ok false).
Proof.
  destruct (add_relationship_closes_cycle simple_chain (mk_rel "t1" "a1" TRIGGERS))
    as (H1 & H2 & _).
  - vm_compute; reflexivity.
  - apply (proj1 (mem_In _ _)). vm_compute; reflexivity.
  - apply (proj1 (mem_In _ _)). vm_compute; reflexivity.
  - right. cbn [mk_rel source_id target_id].
    destruct (descendants_spec (graph simple_chain)
                (wf_chain_graph_ok _ wf_simple_chain) "a1") as [des (E & _ & Hd)].
    + apply (proj1 (mem_In _ _)). vm_compute; reflexivity.
    + apply Hd. assert (Ed : des = ["act1"; "act2"; "act3"; "eff1"; "nar1"; "t1"]).
      { assert (Ev : descendants (graph simple_chain) "a1"
                     = Ok ["act1"; "act2"; "act3"; "eff1"; "nar1"; "t1"])
          by (vm_compute; reflexivity).
        rewrite Ev in E. now inversion E. }
      rewrite Ed. simpl. tauto.
  - split; assumption.
Defined.

(** [intervention_score] raises its [ValueError] exactly for an id that is
    not in the chain; for an id of the chain it returns a count below the
    number of entities. *)
Theorem intervention_score_range (c : HybridChain) (node_id : string) :
  wf_chain c = true ->
  (~ In node_id (dict_keys (entities c)) ->
   intervention_score c node_id
   = Raise (ValueError ("Node '" ++ node_id ++ "' not in chain")))
  /\ (In node_id (dict_keys (entities c)) ->
      exists k, intervention_score c node_id = Ok k /\ k < length (entities c)).
Proof.
  intros Hwf. pose proof (proj1 (wf_chain_ok c) Hwf) as [Hg [Hn _]].
  unfold entities. rewrite <- Hn. unfold intervention_score, has_node. split.
  - intros Hout. now rewrite (proj2 (mem_notIn _ _) Hout).
  - intros Hin. rewrite (proj2 (mem_In _ _) Hin). cbn [negb].
    destruct (descendants_spec (graph c) Hg node_id Hin) as [des (E & Hnd & Hd)].
    rewrite E. exists (length des). split; [reflexivity|].
    assert (Hlen : length (node_id :: des) <= length (nodes (graph c))).
    { apply NoDup_incl_length.
      - constructor; auto. intros H. apply Hd in H. tauto.
      - intros x [<-|Hx]; auto. apply Hd in Hx.
        now apply (reachable_nodes (graph c) node_id x Hg). }
    simpl in Hlen. rewrite Hn in Hlen. unfold dict_keys in Hlen.
    rewrite length_map in Hlen. lia.
Qed.

Lemma intervention_score_range_witness :
  intervention_score simple_chain "ghost"
  = Raise (ValueError "Node 'ghost' not in chain")
  /\ exists k, intervention_score simple_chain "act1" = Ok k /\ k < 8.
Proof.
  destruct (intervention_score_range simple_chain "ghost") as [H1 _];
    [vm_compute; reflexivity|].
  destruct (intervention_score_range simple_chain "act1") as [_ H2];
    [vm_compute; reflexivity|].
  split.
  - apply H1. apply (proj1 (mem_notIn _ _)). vm_compute; reflexivity.
  - apply H2. apply (proj1 (mem_In _ _)). vm_compute; reflexivity.
Defined.

(** [get_entities_by_type] returns exactly the entities of the asked type
    that [get_entity] finds under their own id, each once. *)
Theorem get_entities_by_type_spec (c : HybridChain) (isinstance : Entity -> bool) :
  wf_chain c = true ->
  (forall e, In e (get_entities_by_type c isinstance)
             <-> get_entity c (entity_id e) = Some e /\ isinstance e = true)
  /\ NoDup (map entity_id (get_entities_by_type c isinstance))
  /\ length (get_entities_by_type c isinstance) <= length (entities c).
Proof.
  intros Hwf. pose proof (proj1 (wf_chain_ok c) Hwf) as [Hg [Hn He]].
  assert (Hnd : NoDup (dict_keys (_entities c))) by (rewrite <- Hn; apply Hg).
  unfold get_entities_by_type, get_entity, entities. split; [|split].
  - intros e. rewrite filter_In, in_map_iff. split.
    + intros [[[k e'] [E Hin]] Ht]. simpl in E. subst e'. split; auto.
      rewrite <- (He k e Hin). now apply dict_In_get.
    + intros [Hget Ht]. split; auto. exists (entity_id e, e). split; auto.
      now apply dict_get_Some_In.
  - assert (Hids : map entity_id (map snd (_entities c)) = dict_keys (_entities c)).
    { unfold dict_keys. rewrite map_map. apply map_ext_in.
      intros [k e] Hin. simpl. symmetry. now apply He. }
    rewrite <- Hids in Hnd. clear Hids.
    induction (map snd (_entities c)) as [|a r IH]; [constructor|].
    simpl in Hnd. inversion Hnd as [|? ? Hna Hr]; subst. simpl.
    destruct (isinstance a); auto. simpl. constructor; auto.
    intros Hin. apply Hna. apply in_map_iff in Hin. destruct Hin as [x [Ex Hx]].
    apply filter_In in Hx. rewrite <- Ex. apply in_map. tauto.
  - rewrite <- (length_map snd (_entities c)). apply filter_length_le.
Qed.

Lemma get_entities_by_type_spec_witness :
  wf_chain simple_chain = true
  /\ length (get_entities_by_type simple_chain is_action) <= 8.
Proof.
  assert (H1 : wf_chain simple_chain = true) by (vm_compute; reflexivity).
  split; [exact H1|].
  destruct (get_entities_by_type_spec simple_chain is_action H1) as (_ & _ & H).
  exact H.
Defined.

(** [add_relationship] between two entities that are already related
    replaces that relationship: the number of relationships is unchanged.
    Between two entities not yet related in that direction it adds one. *)
Theorem add_relationship_count (c : HybridChain) (rel : Relationship) :
  wf_chain c = true ->
  fst (add_relationship rel c) = Ok tt ->
  length (relationships (snd (add_relationship rel c)))
  = if has_edge (graph c) (source_id rel) (target_id rel)
    then length (relationships c)
    else S (length (relationships c)).
Proof.
  intros Hwf Hok. pose proof (proj1 (wf_chain_ok c) Hwf) as Hc.
  pose proof (chain_ok_add_relationship rel c Hc) as [Hg' _].
  destruct Hc as [Hg _]. unfold relationships.
  rewrite (Permutation_length (edges_data_perm _ Hg')).
  rewrite (Permutation_length (edges_data_perm _ Hg)).
  revert Hok. unfold add_relationship.
  destruct (mem (source_id rel) (dict_keys (_entities c))); [|discriminate].
  destruct (mem (target_id rel) (dict_keys (_entities c))); [|discriminate].
  intros _. cbn [negb snd graph]. rewrite edges_add_edge. unfold has_edge.
  destruct (existsb (edge_is (source_id rel) (target_id rel)) (g_edges (graph c))) eqn:E.
  - apply has_edge_key in E.
    rewrite <- (length_map fst (edge_set _ _ _ _)), edge_set_keys_in by assumption.
    apply length_map.
  - rewrite edge_set_notin.
    + rewrite length_app. simpl. lia.
    + intros H. apply has_edge_key in H. congruence.
Qed.

Lemma add_relationship_count_witness :
  length (relationships (snd (add_relationship (mk_rel "act1" "act2" ENABLES) simple_chain)))
  = 7
  /\ length (relationships (snd (add_relationship (mk_rel "a1" "t1" ENABLES) simple_chain)))
     = 8.
Proof.
  split.
  - rewrite (add_relationship_count simple_chain (mk_rel "act1" "act2" ENABLES));
      vm_compute; reflexivity.
  - rewrite (add_relationship_count simple_chain (mk_rel "a1" "t1" ENABLES));
      vm_compute; reflexivity.
Defined.

(** * analysis.py: chokepoints *)

Lemma nodes_reverse_view (g : DiGraph) : nodes (reverse_view g) = nodes g.
Proof. reflexivity. Qed.

Lemma edge_reverse_view (g : DiGraph) (u v : string) :
  edge (reverse_view g) u v <-> edge g v u.
Proof.
  unfold edge, reverse_view. cbn [g_edges]. split.
  - intros [d H]. apply in_map_iff in H. destruct H as [[[a b] d'] [E H]].
    simpl in E. inversion E; subst. eauto.
  - intros [d H]. exists d. apply in_map_iff. now exists (v, u, d).
Qed.

(** The successors in the reversed view are [G.predecessors], in the same
    order. *)
Lemma successors_reverse_view (g : DiGraph) (v : string) :
  successors (reverse_view g) v = predecessors g v.
Proof.
  unfold successors, succ_items, predecessors, reverse_view. cbn [g_edges].
  induction (g_edges g) as [|[[a b] d] r IH]; [reflexivity|].
  cbn [map filter fst snd]. destruct (String.eqb b v); cbn [map fst snd]; now rewrite IH.
Qed.

Lemma graph_ok_reverse_view (g : DiGraph) : graph_ok g -> graph_ok (reverse_view g).
Proof.
  intros (H1 & H2 & H3). split; [exact H1|]. split.
  - unfold reverse_view. cbn [g_edges]. rewrite map_map. cbn [fst].
    assert (E : map (fun x : string * string * option EdgeData => (snd (fst x), fst (fst x)))
                    (g_edges g)
                = map (fun k : string * string => (snd k, fst k)) (map fst (g_edges g)))
      by now rewrite map_map.
    rewrite E. apply Finite.Injective_map_NoDup; auto.
    intros [a b] [a' b'] H. simpl in H. now inversion H.
  - intros u v d H. unfold reverse_view in H. cbn [g_edges] in H.
    apply in_map_iff in H. destruct H as [[[a b] d'] [E H]]. simpl in E.
    inversion E; subst. rewrite nodes_reverse_view. destruct (H3 _ _ _ H). tauto.
Qed.

Lemma reachable_reverse_view (g : DiGraph) (u v : string) :
  reachable (reverse_view g) u v <-> reachable g v u.
Proof.
  split.
  - induction 1 as [x y He|x y z _ IH1 _ IH2].
    + apply t_step. now apply edge_reverse_view.
    + now apply t_trans with y.
  - induction 1 as [x y He|x y z _ IH1 _ IH2].
    + apply t_step. now apply edge_reverse_view.
    + now apply t_trans with y.
Qed.

Lemma ancestors_spec (g : DiGraph) (s : string) :
  graph_ok g -> In s (nodes g) ->
  exists anc,
    ancestors g s = Ok anc
    /\ NoDup anc
    /\ (forall v, In v anc <-> v <> s /\ reachable g v s).
Proof.
  intros Hg Hs. unfold ancestors, has_node.
  rewrite (proj2 (mem_In s (nodes g)) Hs). cbn [negb].
  eexists. split; [reflexivity|]. split; [apply NoDup_nodup|].
  intros v. rewrite nodup_In.
  rewrite (bfs_edges_spec (reverse_view g) (graph_ok_reverse_view g Hg) s Hs v).
  now rewrite reachable_reverse_view.
Qed.

Lemma chokepoint_of_spec (c : HybridChain) (n : string) :
  graph_ok (graph c) -> In n (nodes (graph c)) ->
  exists x, chokepoint_of c n = Ok x /\ chokepoint_ok c x /\ cp_node_id x = n.
Proof.
  intros Hg Hn.
  destruct (descendants_spec (graph c) Hg n Hn) as [des (E1 & D1 & D2)].
  destruct (ancestors_spec (graph c) n Hg Hn) as [anc (E2 & A1 & A2)].
  unfold chokepoint_of. rewrite E1, E2. cbn [bind].
  eexists. split; [reflexivity|]. split; [|reflexivity].
  unfold chokepoint_ok. cbn. split; auto. split; auto. split; auto.
  exists des, anc. auto 10.
Qed.

Lemma StronglySorted_impl {A : Type} (R R' : A -> A -> Prop) (l : list A) :
  (forall a b, R a b -> R' a b) -> StronglySorted R l -> StronglySorted R' l.
Proof.
  intros HR. induction 1 as [|a l Hl IH Ha]; constructor; auto.
  eapply Forall_impl; [|exact Ha]. auto.
Qed.

Lemma StronglySorted_app_inv {A : Type} (R : A -> A -> Prop) (l1 l2 : list A) :
  StronglySorted R (l1 ++ l2) ->
  StronglySorted R l1 /\ forall x y, In x l1 -> In y l2 -> R x y.
Proof.
  induction l1 as [|a r IH]; simpl; intros H.
  - split; [constructor|]. intros x y [].
  - inversion H as [|? ? Hs Ha]; subst. destruct (IH Hs) as [H1 H2]. split.
    + constructor; auto. apply Forall_forall. intros x Hx.
      rewrite Forall_forall in Ha. apply Ha. apply in_or_app. now left.
    + intros x y [<-|Hx] Hy; auto. rewrite Forall_forall in Ha. apply Ha.
      apply in_or_app. now right.
Qed.

Lemma nat_Q_le (a b : nat) : (nat_Q a <= nat_Q b)%Q <-> a <= b.
Proof. unfold nat_Q. rewrite <- Zle_Qle. lia. Qed.

Lemma slice_to_prefix {A : Type} (n : Z) (l : list A) :
  exists rest, l = slice_to n l ++ rest.
Proof.
  unfold slice_to. destruct (0 <=? n)%Z; eexists; symmetry; apply firstn_skipn.
Qed.

Lemma slice_to_length {A : Type} (n : Z) (l : list A) :
  length (slice_to n l)
  = if (0 <=? n)%Z then Nat.min (Z.to_nat n) (length l)
    else length l - Z.to_nat (- n).
Proof.
  unfold slice_to. destruct (0 <=? n)%Z; rewrite length_firstn; lia.
Qed.

Lemma mapM_In {A B : Type} (f : A -> result B) (l : list A) :
  forall ys y, mapM f l = Ok ys -> In y ys -> exists x, In x l /\ f x = Ok y.
Proof.
  induction l as [|a r IH]; intros ys y E Hy.
  - simpl in E. inversion E as [E']. rewrite <- E' in Hy. destruct Hy.
  - simpl in E. destruct (f a) as [ya|] eqn:Ea; [|discriminate]. cbn [bind] in E.
    destruct (mapM f r) as [yr|] eqn:Er; [|discriminate]. cbn [bind] in E.
    inversion E as [E']. rewrite <- E' in Hy. destruct Hy as [Hy|Hy].
    + exists a. split; [now left|]. now rewrite <- Hy.
    + destruct (IH yr y eq_refl Hy) as [x [Hx Hf]]. exists x. split; [now right|exact Hf].
Qed.

Lemma chokepoint_of_id (c : HybridChain) (a : string) (y : Chokepoint) :
  chokepoint_of c a = Ok y -> cp_node_id y = a.
Proof.
  unfold chokepoint_of. destruct (descendants (graph c) a); [|discriminate].
  cbn [bind]. destruct (ancestors (graph c) a); [|discriminate]. cbn [bind].
  intros E. inversion E. reflexivity.
Qed.

Lemma find_chokepoints_sorted (c : HybridChain) :
  graph_ok (graph c) ->
  exists all,
    mapM (chokepoint_of c) (nodes (graph c)) = Ok all
    /\ Forall (chokepoint_ok c) all
    /\ map cp_node_id all = nodes (graph c)
    /\ Permutation (sort_desc (fun x => nat_Q (cp_impact x)) all) all
    /\ StronglySorted impact_ge (sort_desc (fun x => nat_Q (cp_impact x)) all).
Proof.
  intros Hg.
  destruct (mapM_spec (chokepoint_of c) cp_node_id (chokepoint_ok c) (nodes (graph c)))
    as [rs (H1 & H2 & H3)].
  { intros x Hx. now apply chokepoint_of_spec. }
  exists rs. split; auto. split; auto. split; auto. split.
  - apply sort_desc_perm.
  - eapply StronglySorted_impl; [|apply sort_desc_sorted].
    intros a b H. cbv beta in H. now apply nat_Q_le in H.
Qed.

(** [find_chokepoints] returns records of distinct nodes of the chain. The
    record of a node holds its number of descendants (the other nodes it
    reaches), which is also its impact, its number of ancestors (the other
    nodes that reach it) and the type name of its entity. With a limit of at
    least the number of entities every node is reported. *)
Theorem find_chokepoints_counts (c : HybridChain) (top_n : Z) :
  wf_chain c = true ->
  exists l,
    find_chokepoints c top_n = Ok l
    /\ Forall (chokepoint_ok c) l
    /\ NoDup (map cp_node_id l)
    /\ ((Z.of_nat (length (entities c)) <= top_n)%Z ->
        Permutation (map cp_node_id l) (dict_keys (entities c))).
Proof.
  intros Hwf. pose proof (proj1 (wf_chain_ok c) Hwf) as [Hg [Hn _]].
  destruct (find_chokepoints_sorted c Hg) as [all (E & Hok & Hids & Hperm & _)].
  unfold find_chokepoints. rewrite E. cbn [bind].
  set (sorted := sort_desc (fun x => nat_Q (cp_impact x)) all) in *.
  exists (slice_to top_n sorted). split; [reflexivity|].
  destruct (slice_to_prefix top_n sorted) as [rest Hrest].
  assert (Hnd : NoDup (map cp_node_id sorted)).
  { apply (Permutation_NoDup (l := map cp_node_id all)).
    - apply Permutation_map. now symmetry.
    - rewrite Hids. apply Hg. }
  split; [|split].
  - apply Forall_forall. intros x Hx.
    assert (Hin : In x all).
    { apply (Permutation_in x Hperm). rewrite Hrest. apply in_or_app. now left. }
    rewrite Forall_forall in Hok. now apply Hok.
  - rewrite Hrest, map_app in Hnd. now apply NoDup_app_remove_r in Hnd.
  - intros Hbig. unfold entities in *.
    assert (Hlen : length sorted = length (_entities c)).
    { rewrite (Permutation_length Hperm), <- (length_map cp_node_id), Hids, Hn.
      unfold dict_keys. apply length_map. }
    assert (Hall : slice_to top_n sorted = sorted).
    { unfold slice_to. destruct (0 <=? top_n)%Z eqn:E0; [|lia].
      apply firstn_all2. lia. }
    rewrite Hall, <- Hn, <- Hids. now apply Permutation_map.
Qed.

Lemma find_chokepoints_counts_witness :
  wf_chain simple_chain = true
  /\ exists l, find_chokepoints simple_chain 10 = Ok l
               /\ Permutation (map cp_node_id l) (dict_keys (entities simple_chain)).
Proof.
  assert (H1 : wf_chain simple_chain = true) by (vm_compute; reflexivity).
  split; [exact H1|].
  destruct (find_chokepoints_counts simple_chain 10 H1) as [l (E & _ & _ & H)].
  exists l. split; [exact E|]. apply H. vm_compute. discriminate.
Defined.

(** [find_chokepoints] returns the records in decreasing order of impact;
    a node that is left out has no greater impact than any node that is
    reported. For a limit [top_n >= 0] there are [min(top_n, number of
    nodes)] records; a negative limit drops that many records from the end
    of the ranking instead. *)
Theorem find_chokepoints_top (c : HybridChain) (top_n : Z) :
  wf_chain c = true ->
  exists l,
    find_chokepoints c top_n = Ok l
    /\ StronglySorted impact_ge l
    /\ length l
       = (if (0 <=? top_n)%Z then Nat.min (Z.to_nat top_n) (length (entities c))
          else length (entities c) - Z.to_nat (- top_n))
    /\ (forall n des x,
          In n (dict_keys (entities c)) -> ~ In n (map cp_node_id l) ->
          descendants (graph c) n = Ok des -> In x l ->
          length des <= cp_impact x).
Proof.
  intros Hwf. pose proof (proj1 (wf_chain_ok c) Hwf) as [Hg [Hn _]].
  destruct (find_chokepoints_sorted c Hg) as [all (E & Hok & Hids & Hperm & Hsort)].
  unfold find_chokepoints. rewrite E. cbn [bind].
  set (sorted := sort_desc (fun x => nat_Q (cp_impact x)) all) in *.
  exists (slice_to top_n sorted). split; [reflexivity|].
  destruct (slice_to_prefix top_n sorted) as [rest Hrest].
  assert (Hlen : length sorted = length (entities c)).
  { unfold entities.
    rewrite (Permutation_length Hperm), <- (length_map cp_node_id), Hids, Hn.
    unfold dict_keys. apply length_map. }
  pose proof Hsort as Hsort'. rewrite Hrest in Hsort'.
  apply StronglySorted_app_inv in Hsort'. destruct Hsort' as [Hs1 Hs2].
  split; [exact Hs1|]. split.
  - rewrite slice_to_length. now rewrite Hlen.
  - intros n des x Hin Hout Hdes Hx. unfold entities in Hin. rewrite <- Hn, <- Hids in Hin.
    apply in_map_iff in Hin. destruct Hin as [y [Ey Hy]].
    assert (Hy' : In y sorted) by (apply (Permutation_in y (Permutation_sym Hperm) Hy)).
    rewrite Hrest in Hy'. apply in_app_or in Hy'. destruct Hy' as [Hy'|Hy'].
    + exfalso. apply Hout. rewrite <- Ey. now apply in_map.
    + specialize (Hs2 x y Hx Hy'). unfold impact_ge in Hs2.
      rewrite Forall_forall in Hok. destruct (Hok y Hy) as (_ & Hi & _ & _).
      assert (Ed : chokepoint_of c n = Ok y).
      { destruct (mapM_In _ _ _ _ E Hy) as [a [_ Ea]].
        rewrite <- Ey, (chokepoint_of_id c a y Ea). exact Ea. }
      unfold chokepoint_of in Ed. rewrite Hdes in Ed. cbn [bind] in Ed.
      destruct (ancestors (graph c) n) as [anc|]; [|discriminate]. cbn [bind] in Ed.
      inversion Ed as [Ed']. rewrite <- Ed' in Hs2. exact Hs2.
Qed.

Lemma find_chokepoints_top_witness :
  wf_chain simple_chain = true
  /\ exists l, find_chokepoints simple_chain 3 = Ok l /\ length l = 3
               /\ StronglySorted impact_ge l.
Proof.
  assert (H1 : wf_chain simple_chain = true) by (vm_compute; reflexivity).
  split; [exact H1|].
  destruct (find_chokepoints_top simple_chain 3 H1) as [l (E & Hs & Hl & _)].
  exists l. split; [exact E|]. split; [|exact Hs].
  rewrite Hl. vm_compute; reflexivity.
Defined.

(** * analysis.py: capability requirements *)

Lemma In_get_entities_by_type (c : HybridChain) (isinstance : Entity -> bool) (e : Entity) :
  chain_ok c ->
  In e (get_entities_by_type c isinstance)
  <-> get_entity c (entity_id e) = Some e /\ isinstance e = true.
Proof.
  intros [Hg [Hn He]].
  assert (Hnd : NoDup (dict_keys (_entities c))) by (rewrite <- Hn; apply Hg).
  unfold get_entities_by_type, get_entity. rewrite filter_In, in_map_iff. split.
  - intros [[[k e'] [E Hin]] Ht]. simpl in E. subst e'. split; auto.
    rewrite <- (He k e Hin). now apply dict_In_get.
  - intros [Hget Ht]. split; auto. exists (entity_id e, e). split; auto.
    now apply dict_get_Some_In.
Qed.

Lemma length_flat_map_sum {A B : Type} (f : A -> list B) (l : list A) :
  length (flat_map f l) = list_sum (map (fun x => length (f x)) l).
Proof.
  induction l as [|a r IH]; simpl; auto. now rewrite length_app, IH.
Qed.

(** [capability_requirements] lists one record of source ["entity"] for
    every Capability entity of the chain, followed by one record of type
    ["tooling"] for every tool of every Action entity; tools are not merged,
    so the length is the number of capabilities plus the number of tool
    entries. *)
Theorem capability_requirements_spec (c : HybridChain) :
  wf_chain c = true ->
  (forall r, In r (capability_requirements c)
     <-> (exists cap,
            get_entity c (capability_id cap) = Some (ECapability cap)
            /\ r = {| cr_id := capability_id cap; cr_name := capability_name cap;
                      cr_type := capability_type_value (capability_type cap);
                      cr_source := "entity" |})
         \/ (exists a tool,
               get_entity c (action_id a) = Some (EAction a)
               /\ In tool (tools a)
               /\ r = {| cr_id := action_id a ++ ":" ++ tool; cr_name := tool;
                         cr_type := "tooling";
                         cr_source := "action:" ++ action_id a |}))
  /\ length (capability_requirements c)
     = length (get_entities_by_type c is_capability)
       + list_sum (map (fun e => match e with
                                 | EAction a => length (tools a)
                                 | _ => 0
                                 end)
                       (get_entities_by_type c is_action)).
Proof.
  intros Hwf. pose proof (proj1 (wf_chain_ok c) Hwf) as Hok. split.
  - intros r. unfold capability_requirements. rewrite in_app_iff, !in_flat_map. split.
    + intros [[e [He Hr]]|[e [He Hr]]].
      * apply (In_get_entities_by_type c is_capability e Hok) in He.
        destruct He as [Hget Ht]. destruct e; try discriminate.
        destruct Hr as [<-|[]]. left. eexists. split; [exact Hget|reflexivity].
      * apply (In_get_entities_by_type c is_action e Hok) in He.
        destruct He as [Hget Ht]. destruct e; try discriminate.
        apply in_map_iff in Hr. destruct Hr as [tool [<- Htool]].
        right. eexists. exists tool. split; [exact Hget|]. split; [exact Htool|reflexivity].
    + intros [[cap [Hget ->]]|[a [tool (Hget & Htool & ->)]]].
      * left. exists (ECapability cap). split; [|now left].
        now apply (In_get_entities_by_type c is_capability (ECapability cap) Hok).
      * right. exists (EAction a). split.
        -- now apply (In_get_entities_by_type c is_action (EAction a) Hok).
        -- apply in_map_iff. now exists tool.
  - unfold capability_requirements. rewrite length_app, !length_flat_map_sum. f_equal.
    + unfold get_entities_by_type.
      induction (map snd (_entities c)) as [|e r IH]; [reflexivity|].
      simpl. destruct e; simpl; auto.
    + f_equal. apply map_ext. intros [ | a | | | | | ]; try reflexivity.
      apply length_map.
Qed.

Lemma capability_requirements_spec_witness :
  wf_chain simple_chain = true /\ length (capability_requirements simple_chain) = 2.
Proof.
  assert (H1 : wf_chain simple_chain = true) by (vm_compute; reflexivity).
  split; [exact H1|].
  destruct (capability_requirements_spec simple_chain H1) as [_ H].
  rewrite H. vm_compute; reflexivity.
Defined.

(** * io.py: further properties of the JSON form *)

Lemma from_json_to_json (c : HybridChain) :
  chain_ok c -> edges_labelled c = true ->
  from_json (to_json c)
  = Ok (rebuilt (chain_id c) (name c) (chain_description c) (entities c) (relationships c)).
Proof.
  intros [Hg [Hn He]] Hlab.
  pose proof (proj1 (edges_labelled_spec c) Hlab) as Hl.
  assert (Hnd : NoDup (map fst (_entities c))).
  { change (map fst (_entities c)) with (dict_keys (_entities c)).
    rewrite <- Hn. apply Hg. }
  unfold from_json, to_json. cbn [dict_get String.eqb Ascii.eqb Bool.eqb].
  unfold str_default. cbn [dict_get String.eqb Ascii.eqb Bool.eqb bind].
  change (new_chain (chain_id c) (name c) (chain_description c))
    with (rebuilt (chain_id c) (name c) (chain_description c) [] []).
  rewrite (load_entities _ _ _ (entities c) []); auto. cbn [bind app].
  rewrite (load_relationships _ _ _ (entities c) (relationships c) []); auto.
  - simpl. apply edges_data_keys_NoDup. exact Hg.
  - intros u v d Hin. apply In_edges_data in Hin. destruct Hin as [_ Hin].
    destruct Hg as (_ & _ & Hends). destruct (Hends u v d Hin) as [Hu Hv].
    unfold entities. change (map fst (_entities c)) with (dict_keys (_entities c)).
    rewrite <- Hn. repeat split; auto. now apply (Hl u v d).
Qed.

Lemma rebuilt_relationships (c : HybridChain) :
  chain_ok c ->
  relationships (rebuilt (chain_id c) (name c) (chain_description c)
                         (entities c) (relationships c))
  = relationships c.
Proof.
  intros [Hg [Hn He]]. unfold relationships at 1. apply edges_data_regrouped; auto.
  rewrite rebuilt_nodes. unfold entities. symmetry. exact Hn.
Qed.

Lemma chain_ok_rebuilt (c : HybridChain) :
  chain_ok c ->
  chain_ok (rebuilt (chain_id c) (name c) (chain_description c)
                    (entities c) (relationships c)).
Proof.
  intros Hok. pose proof Hok as [Hg [Hn He]]. unfold chain_ok, graph_ok.
  rewrite rebuilt_nodes. unfold entities, relationships.
  cbn [rebuilt graph g_edges _entities].
  change (map fst (_entities c)) with (dict_keys (_entities c)). rewrite <- Hn.
  split; [split; [apply Hg|split]|split]; auto.
  - now apply edges_data_keys_NoDup.
  - intros u v d Hin. apply In_edges_data in Hin. destruct Hin as [_ Hin].
    destruct Hg as (_ & _ & Hends). exact (Hends u v d Hin).
Qed.

(** Serialisation is stable: the chain read back from [to_json] serialises
    to the same JSON value, is read back as itself, keeps the name and the
    description and satisfies the class invariant. *)
Theorem to_json_stable (c : HybridChain) :
  wf_chain c = true ->
  edges_labelled c = true ->
  exists c',
    from_json (to_json c) = Ok c'
    /\ to_json c' = to_json c
    /\ from_json (to_json c') = Ok c'
    /\ name c' = name c
    /\ chain_description c' = chain_description c
    /\ wf_chain c' = true.
Proof.
  intros Hwf Hlab. pose proof (proj1 (wf_chain_ok c) Hwf) as Hok.
  pose proof (from_json_to_json c Hok Hlab) as E.
  pose proof (rebuilt_relationships c Hok) as Hrel.
  set (c' := rebuilt (chain_id c) (name c) (chain_description c) (entities c)
                     (relationships c)) in *.
  assert (Hto : to_json c' = to_json c).
  { unfold to_json. rewrite Hrel. reflexivity. }
  exists c'. split; [exact E|]. split; [exact Hto|]. split; [now rewrite Hto|].
  split; [reflexivity|]. split; [reflexivity|].
  apply wf_chain_ok. now apply chain_ok_rebuilt.
Qed.

Lemma to_json_stable_witness :
  wf_chain simple_chain = true
  /\ edges_labelled simple_chain = true
  /\ exists c', from_json (to_json simple_chain) = Ok c'
                /\ to_json c' = to_json simple_chain.
Proof.
  assert (H1 : wf_chain simple_chain = true) by (vm_compute; reflexivity).
  assert (H2 : edges_labelled simple_chain = true) by (vm_compute; reflexivity).
  split; [exact H1|]. split; [exact H2|].
  destruct (to_json_stable simple_chain H1 H2) as [c' (E1 & E2 & _)].
  exists c'. split; [exact E1|exact E2].
Defined.

